(** * go-reqws: retry executor, WebSocket reconnect supervisor and request builder

    A shallow embedding of [retry.go] ([shouldRetry], [executeWithRetry]), of
    the WebSocket streaming code ([WebSocketStream],
    [WebSocketStreamWithReconnect]) and of the client calls ([Request], [Do],
    [buildAndExecuteRequest], the request options and hooks, [HTTPError]),
    together with the properties the specification states about them and
    further properties read off the code.

    Conventions.
    - Go [int], [int64] and [time.Duration] values are integers of [Z].
    - A Go [error] is an [option error]: [None] is [nil].
    - Pointers that may be [nil] (to [http.Response], [RetryConfig],
      [WebSocketConfig]) are options.
    - Everything the code obtains from outside (the result of one HTTP round
      trip, the moment the context is cancelled, which branch a [select]
      takes, what the peer sends) is supplied by an explicit environment
      argument, and everything the code does to the outside (sleeping,
      closing a body, invoking a callback, sending on a channel) is recorded
      in a trace of events. *)

From Stdlib Require Import ZArith List Bool Ascii String DecimalString Lia.
From Stdlib Require Import SpecFloat.
Import ListNotations.
Local Open Scope Z_scope.

(* ================================================================== *)
(** * Errors ([errors.go]) *)
(* ================================================================== *)

#[warnings="-register-all"]
Inductive error : Type :=
| Canceled                                   (* context.Canceled *)
| DeadlineExceeded                           (* context.DeadlineExceeded *)
| Opaque (msg : string)                      (* an error made by net/http or the websocket library *)
| Errorf (prefix : string) (cause : error)   (* fmt.Errorf(prefix + ": %w", cause) *)
| WebSocketError (Reason : string) (Err : option error).

(** [NewWebSocketError(reason, err)]. *)
Definition NewWebSocketError (reason : string) (err : option error) : error :=
  WebSocketError reason err.

(** The [Unwrap] method of [WebSocketError] (and of [fmt.Errorf]'s [%w]). *)
Definition Unwrap (e : error) : option error :=
  match e with
  | WebSocketError _ inner => inner
  | Errorf _ cause => Some cause
  | _ => None
  end.

(* ================================================================== *)
(** * Durations and the backoff step *)
(* ================================================================== *)

(** [time.Duration] is an [int64] count of nanoseconds. *)
Definition Duration := Z.

Definition Nanosecond : Duration := 1.
Definition Millisecond : Duration := 1000000.
Definition Second : Duration := 1000000000.

Module Float64.

(** IEEE 754 binary64, the Go [float64]. *)
Definition float64 := spec_float.
Definition prec : Z := 53.
Definition emax : Z := 1024.

Definition min_int64 : Z := - 2 ^ 63.
Definition max_int64 : Z := 2 ^ 63 - 1.

(** [float64(n)] for an integer [n]: round to nearest, ties to even. *)
Definition of_int (n : Z) : float64 := binary_normalize prec emax n 0 false.

(** [x * y] on [float64]. *)
Definition mul (x y : float64) : float64 := SFmul prec emax x y.

Definition leb (x y : float64) : bool := SFleb x y.

(** A literal [num / 2^k], for instance [2.0 = lit 2 0], [1.5 = lit 3 1]. *)
Definition lit (num : Z) (k : Z) : float64 := binary_normalize prec emax num (- k) false.

Section Conversion.
(** Go: "if the result type cannot represent the value the conversion
    succeeds but the result value is implementation-dependent".  The
    function below is what the platform yields in that case. *)
Variable out_of_range : float64 -> Z.

(** [int64(f)]: the fraction is discarded (truncation towards zero). *)
Definition to_int64 (f : float64) : Z :=
  match f with
  | S754_zero _ => 0
  | S754_finite s m e =>
      let mag := Z.shiftl (Zpos m) e in
      let v := if s then - mag else mag in
      if (min_int64 <=? v) && (v <=? max_int64) then v else out_of_range f
  | S754_infinity _ | S754_nan => out_of_range f
  end.

(** [time.Duration(float64(delay) * multiplier)]. *)
Definition scale (delay : Duration) (multiplier : float64) : Duration :=
  to_int64 (mul (of_int delay) multiplier).
End Conversion.

(** What amd64 yields for an unrepresentable value (the "integer
    indefinite" of CVTTSD2SQ). *)
Definition amd64 (_ : float64) : Z := min_int64.

End Float64.

Import Float64.

(* ================================================================== *)
(** * Retry classifier ([retry.go]) *)
(* ================================================================== *)

(** The part of [http.Response] the retry code reads: the status code and
    the body, a handle that can be closed ([None] is a nil [Body]). *)
Record Response : Type := {
  StatusCode : Z;
  Body : option nat
}.

Record RetryConfig : Type := {
  MaxRetries : Z;
  InitialDelay : Duration;
  MaxDelay : Duration;
  Multiplier : float64
}.

Definition DefaultRetryConfig : RetryConfig :=
  {| MaxRetries := 3;
     InitialDelay := 100 * Millisecond;
     MaxDelay := 5 * Second;
     Multiplier := lit 2 0 |}.

Definition shouldRetry (resp : option Response) (err : option error) : bool :=
  match err with
  | Some _ => true                                  (* err != nil *)
  | None =>
    match resp with
    | None => true                                  (* resp == nil *)
    | Some r =>
      if StatusCode r >=? 500 then true
      else if StatusCode r =? 429 then true
      else if (StatusCode r >=? 400) && (StatusCode r <? 500) then false
      else false
    end
  end.


(* ================================================================== *)
(** * Retry executor ([retry.go]) *)
(* ================================================================== *)

(** The [Client] fields the retry code reads: whether a logger is set. *)
Record Client : Type := {
  logger : bool
}.

(** What [executeWithRetry] does to the outside, in program order. *)
Inductive event : Type :=
| Cancel (cause : error)                                  (* the context is cancelled *)
| Attempt (n : Z) (resp : option Response) (err : option error)
                                                          (* one call of buildAndExecuteRequest and its result *)
| BodyClose (body : nat)                                  (* resp.Body.Close() *)
| LogInfo (msg : string) (attempt max_retries : Z) (delay : Duration)
| LogError (msg : string) (err : error)
| Sleep (delay : Duration).                               (* the select on time.After(delay) is entered *)

(** What the outside does during the loop iteration of one attempt. *)
Record Round : Type := {
  cancel_at_head : option error;     (* the context is cancelled before the check at the loop head *)
  outcome : option Response * option error;   (* what buildAndExecuteRequest returns *)
  cancel_in_flight : option error;   (* the context is cancelled while the request is in flight *)
  cancel_in_wait : option error;     (* the context is cancelled during the backoff wait *)
  timer_first : bool                 (* the select takes the timer branch when both are ready *)
}.

(** The statement that returned; a label on the result, not a Go value. *)
Inductive Exit : Type :=
| NoRetryConfig      (* line 88: return c.buildAndExecuteRequest(ctx, config) *)
| CancelledAtHead    (* line 98: return nil, ctx.Err() *)
| Succeeded          (* line 106: return resp, nil *)
| NotRetryable       (* line 112: return resp, err *)
| CancelledInWait    (* line 141: return nil, ctx.Err() *)
| Exhausted          (* lines 156 and 160 *)
| Diverged.          (* the loop bound of the model ran out; never happens, see [executeWithRetry_returns] *)

Record Return : Type := {
  ret_resp : option Response;
  ret_err : option error;
  ret_via : Exit
}.

Definition Run : Type := (list event * Return)%type.

(** Prefix a run with the events that happened before it. *)
Definition emit (evs : list event) (k : Run) : Run := (evs ++ fst k, snd k).

Definition done (resp : option Response) (err : option error) (via : Exit) : Run :=
  ([], {| ret_resp := resp; ret_err := err; ret_via := via |}).

(** [ctx.Err()] after a cancellation request: the first cause sticks. *)
Definition fire (c : option error) (ctx : option error) : option error :=
  match ctx with
  | Some e => Some e
  | None => c
  end.

Definition fired (c : option error) : list event :=
  match c with
  | Some e => [Cancel e]
  | None => []
  end.

(** [select { case <-ctx.Done(): ...; case <-time.After(delay): ... }]:
    [Some e] is the first branch, taken only when the context is done. *)
Definition select_wait (ctx : option error) (timer_first : bool) : option error :=
  match ctx with
  | Some e => if timer_first then None else Some e
  | None => None
  end.

(** [err == nil && resp != nil && resp.StatusCode >= 200 && resp.StatusCode < 300] *)
Definition is_success (resp : option Response) (err : option error) : bool :=
  match err, resp with
  | None, Some r => (StatusCode r >=? 200) && (StatusCode r <? 300)
  | _, _ => false
  end.

(** [if resp != nil && resp.Body != nil { resp.Body.Close() }] *)
Definition close_body (resp : option Response) : list event :=
  match resp with
  | Some r => match Body r with Some b => [BodyClose b] | None => [] end
  | None => []
  end.

(** [if c.logger != nil { c.logger.Info(msg, "attempt", ..., "max_retries", ..., "delay", ...) }] *)
Definition log_info (c : Client) (msg : string) (attempt max_retries : Z) (delay : Duration)
  : list event :=
  if logger c then [LogInfo msg attempt max_retries delay] else [].

(** [if c.logger != nil { c.logger.Error(msg, "error", err) }] *)
Definition log_error (c : Client) (msg : string) (err : error) : list event :=
  if logger c then [LogError msg err] else [].

Section Retry.

Variable out_of_range : float64 -> Z.
Variable c : Client.
Variable env : Z -> Round.

(** The statements after the loop (lines 151-160). *)
Definition after_loop (lastResp : option Response) (lastErr : option error) : Run :=
  match lastErr with
  | Some e =>
      emit (log_error c "max retries exceeded" e)
           (done lastResp (Some e) Exhausted)
  | None => done lastResp None Exhausted
  end.

(** The delay after one completed wait (lines 144-147). *)
Definition next_delay (rc : RetryConfig) (delay : Duration) : Duration :=
  let delay := scale out_of_range delay (Multiplier rc) in
  if delay >? MaxDelay rc then MaxDelay rc else delay.

(** The loop of lines 95-149, entered at its condition with the current
    values of [attempt], [delay], [lastResp], [lastErr] and [ctx.Err()].
    [fuel] bounds the number of iterations.  The increment [attempt++] is
    reached only with [attempt < MaxRetries], so it cannot wrap around. *)
Fixpoint retry_loop (rc : RetryConfig) (fuel : nat) (attempt : Z) (delay : Duration)
         (lastResp : option Response) (lastErr : option error)
         (ctx : option error) {struct fuel} : Run :=
  if attempt <=? MaxRetries rc then
    match fuel with
    | O => done None None Diverged
    | S fuel' =>
      let r := env attempt in
      emit (fired (cancel_at_head r))
      (match fire (cancel_at_head r) ctx with
       | Some e => done None (Some e) CancelledAtHead
       | None =>
         let resp := fst (outcome r) in
         let err := snd (outcome r) in
         emit (Attempt attempt resp err :: fired (cancel_in_flight r))
         (let ctx := fire (cancel_in_flight r) None in
          if is_success resp err then done resp None Succeeded
          else if negb (shouldRetry resp err) then done resp err NotRetryable
          else
            emit (close_body resp)
            (if attempt >=? MaxRetries rc then after_loop resp err
             else
               emit (log_info c "retrying request" (attempt + 1) (MaxRetries rc) delay
                     ++ Sleep delay :: fired (cancel_in_wait r))
               (let ctx := fire (cancel_in_wait r) ctx in
                match select_wait ctx (timer_first r) with
                | Some e => done None (Some e) CancelledInWait
                | None =>
                    retry_loop rc fuel' (attempt + 1) (next_delay rc delay) resp err ctx
                end)))
       end)
    end
  else after_loop lastResp lastErr.

(** [executeWithRetry(ctx, config)]; [ctx] is [ctx.Err()] at the call and
    [retryConfig] is [config.retryConfig]. *)
Definition executeWithRetry (ctx : option error) (retryConfig : option RetryConfig) : Run :=
  match retryConfig with
  | None =>
      let r := env 0 in
      emit [Attempt 0 (fst (outcome r)) (snd (outcome r))]
           (done (fst (outcome r)) (snd (outcome r)) NoRetryConfig)
  | Some rc =>
      retry_loop rc (Z.to_nat (MaxRetries rc + 1)) 0 (InitialDelay rc) None None ctx
  end.

End Retry.


(** ** Reading a trace *)

(** The attempts of a trace, in order: index and result. *)
Fixpoint attempts (tr : list event) : list (Z * option Response * option error) :=
  match tr with
  | [] => []
  | Attempt n resp err :: rest => (n, resp, err) :: attempts rest
  | _ :: rest => attempts rest
  end.

(** The delays of the backoff waits of a trace, in order. *)
Fixpoint sleeps (tr : list event) : list Duration :=
  match tr with
  | [] => []
  | Sleep d :: rest => d :: sleeps rest
  | _ :: rest => sleeps rest
  end.

(** The bodies closed in a trace, in order. *)
Fixpoint closed_bodies (tr : list event) : list nat :=
  match tr with
  | [] => []
  | BodyClose b :: rest => b :: closed_bodies rest
  | _ :: rest => closed_bodies rest
  end.

(** The cause of the first cancellation of a trace. *)
Fixpoint first_cancel (tr : list event) : option error :=
  match tr with
  | [] => None
  | Cancel e :: _ => Some e
  | _ :: rest => first_cancel rest
  end.

Definition is_attempt (ev : event) : bool :=
  match ev with
  | Attempt _ _ _ => true
  | _ => false
  end.

(** The delay of wait number [i] as the code computes it: [InitialDelay]
    (line 93), and then each time the step of lines 144-147 on the delay
    before. *)
Fixpoint backoff (out_of_range : float64 -> Z) (rc : RetryConfig) (i : nat) : Duration :=
  match i with
  | O => InitialDelay rc
  | S j => next_delay out_of_range rc (backoff out_of_range rc j)
  end.

(** Modelled from the spec: the product [delay * m] as a number, not as a
    [float64].  The multiplier [(-1)^s * mant * 2^e] is taken exactly, and of
    the product the whole nanoseconds are kept.  A multiplier that is
    infinite or not a number has no product. *)
Definition exact_product (delay : Duration) (m : float64) : option Z :=
  match m with
  | S754_zero _ => Some 0
  | S754_finite s mant e =>
      let n := delay * (if s then Zneg mant else Zpos mant) in
      Some (if 0 <=? e then n * 2 ^ e else Z.quot n (2 ^ (- e)))
  | S754_infinity _ | S754_nan => None
  end.

(** Modelled from the spec: [delay[0] = d0] and
    [delay[i] = min(delay[i-1] * m, M)]. *)
Fixpoint spec_backoff (rc : RetryConfig) (i : nat) : option Duration :=
  match i with
  | O => Some (InitialDelay rc)
  | S j =>
      match spec_backoff rc j with
      | Some d =>
          match exact_product d (Multiplier rc) with
          | Some p => Some (Z.min p (MaxDelay rc))
          | None => None
          end
      | None => None
      end
  end.

(** The last element of a list, if any. *)
Fixpoint last_opt {A : Type} (l : list A) : option A :=
  match l with
  | [] => None
  | a :: rest => match last_opt rest with Some b => Some b | None => Some a end
  end.

(** The first [k] values of the sequence [d, next d, next (next d), ...]. *)
Fixpoint schedule (next : Duration -> Duration) (k : nat) (d : Duration) : list Duration :=
  match k with
  | O => []
  | S k' => d :: schedule next k' (next d)
  end.

(** No attempt is made after a cancellation. *)
Fixpoint quiet_after_cancel (tr : list event) : Prop :=
  match tr with
  | [] => True
  | Cancel _ :: rest => attempts rest = []
  | _ :: rest => quiet_after_cancel rest
  end.

(** Some backoff wait of the trace is directly followed by a cancellation. *)
Fixpoint cancelled_while_waiting (tr : list event) : bool :=
  match tr with
  | [] => false
  | Sleep _ :: rest =>
      match rest with
      | Cancel _ :: _ => true
      | _ => cancelled_while_waiting rest
      end
  | _ :: rest => cancelled_while_waiting rest
  end.

(** Every retryable attempt that carries a body is followed by the closing
    of that body. *)
Fixpoint retryable_closed (tr : list event) : Prop :=
  match tr with
  | [] => True
  | Attempt _ (Some r) e :: rest =>
      (shouldRetry (Some r) e = true ->
       forall b, Body r = Some b -> In (BodyClose b) rest)
      /\ retryable_closed rest
  | _ :: rest => retryable_closed rest
  end.

(** [ctx.Err()] at the end of a trace that started with [ctx.Err() = ctx]. *)
Definition ctx_err (ctx : option error) (tr : list event) : option error :=
  fire (first_cancel tr) ctx.

(** ** Sample environments *)

(** Attempt [n] answers with status [status] and a body of its own. *)
Definition answer (status : Z) (n : Z) : option Response * option error :=
  (Some {| StatusCode := status; Body := Some (Z.to_nat n) |}, None).

(** Every attempt answers [status]; nobody cancels; every wait runs out. *)
Definition env_status (status : Z) (n : Z) : Round :=
  {| cancel_at_head := None;
     outcome := answer status n;
     cancel_in_flight := None;
     cancel_in_wait := None;
     timer_first := true |}.

(** Every attempt answers 503 and the context is cancelled during the
    first backoff wait. *)
Definition env_cancel_in_first_wait (n : Z) : Round :=
  {| cancel_at_head := None;
     outcome := answer 503 n;
     cancel_in_flight := None;
     cancel_in_wait := if n =? 0 then Some Canceled else None;
     timer_first := false |}.

Definition plain_client : Client := {| logger := false |}.

(** A policy within the bounds of the specification ([MaxDelay >= d0],
    multiplier 1) whose first delay, 2^53 + 1 ns, is no [float64]. *)
Definition long_config : RetryConfig :=
  {| MaxRetries := 2;
     InitialDelay := 2 ^ 53 + 1;
     MaxDelay := 2 ^ 62;
     Multiplier := lit 1 0 |}.

(** A policy within the bounds of the specification whose first product,
    10^19 ns, is no [int64]. *)
Definition overflowing_config : RetryConfig :=
  {| MaxRetries := 2;
     InitialDelay := 1 * Second;
     MaxDelay := max_int64;
     Multiplier := lit 10000000000 0 |}.

(** A policy whose first delay is above its cap. *)
Definition steep_config : RetryConfig :=
  {| MaxRetries := 3;
     InitialDelay := 10 * Second;
     MaxDelay := 2 * Second;
     Multiplier := lit 3 1 |}.


(* ================================================================== *)
(** * WebSocket streaming ([WebSocketStream], [WebSocketStreamWithReconnect]) *)
(* ================================================================== *)

(** A JSON message, in either direction. *)
Definition payload := string.

Record WebSocketResponse : Type := {
  Data : option payload;
  RawData : list Byte.byte;
  Error : option error;
  Closed : bool
}.

Record WebSocketConfig : Type := {
  AutoReconnect : bool;
  MaxReconnectAttempts : Z;
  ReconnectDelay : Duration;
  MaxReconnectDelay : Duration;
  ReconnectMultiplier : float64;
  OnReconnect : bool                 (* the callback is not nil *)
}.

Definition DefaultWebSocketConfig : WebSocketConfig :=
  {| AutoReconnect := true;
     MaxReconnectAttempts := 10;
     ReconnectDelay := 1 * Second;
     MaxReconnectDelay := 30 * Second;
     ReconnectMultiplier := lit 2 0;
     OnReconnect := false |}.

(** [Error] or [Closed] set: the consumer is to stop reading. *)
Definition terminal (r : WebSocketResponse) : bool :=
  match Error r with
  | Some _ => true
  | None => Closed r
  end.

(** ** The state shared by the goroutines *)

(** What the streaming code does to the outside, in the order it happens. *)
Inductive ws_event : Type :=
| Cancelled (cause : error)                          (* the context is cancelled *)
| Dial (ok : bool)                                   (* websocket.Dial returns *)
| Published (conn : nat) (r : WebSocketResponse)     (* receiveChan <- r, by the reader of conn *)
| ChanClose (conn : nat)                             (* close(receiveChan), by the reader of conn *)
| Wrote (conn : nat) (m : payload)                   (* wsjson.Write succeeds *)
| ConnClose (conn : nat)                             (* the deferred conn.Close *)
| Reconnecting                                       (* config.wsConfig.OnReconnect() *)
| Waiting (delay : Duration)                         (* the select on time.After(delay) *)
| Panic (msg : string).                              (* a goroutine panics: the program dies *)

Record World : Type := {
  ctxErr : option error;       (* ctx.Err() *)
  recv_closed : bool;          (* receiveChan is closed *)
  next_conn : nat;             (* connections made so far; they are numbered from 0 *)
  closed_conns : list nat;     (* connections that have been closed *)
  readers : list nat;          (* connections whose reader goroutine is running *)
  panicked : option string;    (* the message of the panic that killed the program *)
  history : list ws_event      (* oldest first *)
}.

Definition fresh : World :=
  {| ctxErr := None; recv_closed := false; next_conn := 0; closed_conns := [];
     readers := []; panicked := None; history := [] |}.

Definition record (ev : ws_event) (w : World) : World :=
  {| ctxErr := ctxErr w; recv_closed := recv_closed w; next_conn := next_conn w;
     closed_conns := closed_conns w; readers := readers w; panicked := panicked w;
     history := history w ++ [ev] |}.

Definition panic (msg : string) (w : World) : World :=
  {| ctxErr := ctxErr w; recv_closed := recv_closed w; next_conn := next_conn w;
     closed_conns := closed_conns w; readers := readers w; panicked := Some msg;
     history := history w ++ [Panic msg] |}.

(** The context is cancelled; a second cancellation changes nothing. *)
Definition cancel (cause : error) (w : World) : World :=
  {| ctxErr := fire (Some cause) (ctxErr w); recv_closed := recv_closed w;
     next_conn := next_conn w; closed_conns := closed_conns w; readers := readers w;
     panicked := panicked w; history := history w ++ [Cancelled cause] |}.

(** [receiveChan <- r]: a send on a closed channel panics.  On an open
    channel the send completes when the consumer takes the value; the step
    stands for that moment. *)
Definition chan_send (conn : nat) (r : WebSocketResponse) (w : World) : World :=
  match panicked w with
  | Some _ => w
  | None =>
    if recv_closed w then panic "send on closed channel" w
    else record (Published conn r) w
  end.

(** [close(receiveChan)]: closing a closed channel panics. *)
Definition chan_close (conn : nat) (w : World) : World :=
  match panicked w with
  | Some _ => w
  | None =>
    if recv_closed w then panic "close of closed channel" w
    else
      {| ctxErr := ctxErr w; recv_closed := true; next_conn := next_conn w;
         closed_conns := closed_conns w; readers := readers w; panicked := panicked w;
         history := history w ++ [ChanClose conn] |}
  end.

Definition conn_open (conn : nat) (w : World) : bool :=
  negb (existsb (Nat.eqb conn) (closed_conns w)).

Definition reader_running (conn : nat) (w : World) : bool :=
  existsb (Nat.eqb conn) (readers w).

(** The reader goroutine of [conn] returns. *)
Definition reader_exit (conn : nat) (w : World) : World :=
  {| ctxErr := ctxErr w; recv_closed := recv_closed w; next_conn := next_conn w;
     closed_conns := closed_conns w;
     readers := filter (fun c => negb (Nat.eqb conn c)) (readers w);
     panicked := panicked w; history := history w |}.

(** [websocket.Dial] succeeds: a new connection, and [go func() {...}()]
    starts its reader. *)
Definition open_conn (w : World) : World :=
  {| ctxErr := ctxErr w; recv_closed := recv_closed w; next_conn := S (next_conn w);
     closed_conns := closed_conns w; readers := next_conn w :: readers w;
     panicked := panicked w; history := history w ++ [Dial true] |}.

(** [defer conn.Close(websocket.StatusNormalClosure, "closing stream")]. *)
Definition close_conn (conn : nat) (w : World) : World :=
  {| ctxErr := ctxErr w; recv_closed := recv_closed w; next_conn := next_conn w;
     closed_conns := conn :: closed_conns w; readers := readers w;
     panicked := panicked w; history := history w ++ [ConnClose conn] |}.

(** ** The reader goroutine (lines 114-131) *)

(** The error [wsjson.Read] gives on a connection that was closed locally. *)
Definition ErrClosed : error := Opaque "use of closed network connection".

(** [wsjson.Read(ctx, conn, &msg)]: what arrives on the wire, unless the
    connection has been closed, in which case the read fails (the websocket
    library: closing unblocks every goroutine that is using the connection). *)
Definition wsjson_Read (open : bool) (wire : payload + error) : payload + error :=
  if open then wire else inr ErrClosed.

(** One iteration of the reader loop of connection [conn]: a message is
    published and the loop goes on; an error is published with [Closed],
    the goroutine returns and its deferred [close(receiveChan)] runs. *)
Definition reader_step (conn : nat) (wire : payload + error) (w : World) : World :=
  match panicked w with
  | Some _ => w
  | None =>
    if reader_running conn w then
      match wsjson_Read (conn_open conn w) wire with
      | inr err =>
          reader_exit conn
            (chan_close conn
               (chan_send conn {| Data := None; RawData := []; Error := Some err;
                                  Closed := true |} w))
      | inl msg =>
          chan_send conn {| Data := Some msg; RawData := []; Error := None;
                            Closed := false |} w
      end
    else w
  end.

(** ** What the environment does *)

(** Something that happens concurrently with the calling goroutine. *)
Inductive background : Type :=
| BgCancel (cause : error)                       (* the caller cancels the context *)
| BgRead (conn : nat) (wire : payload + error).  (* the reader of conn finishes one read *)

Definition bg_step (b : background) (w : World) : World :=
  match panicked w with
  | Some _ => w
  | None =>
    match b with
    | BgCancel cause => cancel cause w
    | BgRead conn wire => reader_step conn wire w
    end
  end.

Definition bg_steps (bs : list background) (w : World) : World :=
  fold_left (fun w b => bg_step b w) bs w.

(** How connecting goes. *)
Inductive connect_result : Type :=
| BadURL (err : error)                              (* url.Parse fails *)
| DialFailed (status : option Z) (err : error)      (* websocket.Dial fails; the HTTP status if any *)
| Dialed.

(** What happens while the writer loop of one session runs. *)
Inductive writer_script : Type :=
| WBackground (b : background) (rest : writer_script)  (* the select blocks; meanwhile b *)
| WSend (msg : payload) (rest : writer_script)         (* a message is taken and written *)
| WSendFail (msg : payload) (err : error)              (* a message is taken; wsjson.Write fails *)
| WCtxDone                                             (* the select takes <-ctx.Done() *)
| WInputClosed                                         (* sendChan has been closed *)
| WBlocked.                                            (* the select blocks for good *)

(** What happens during one session.  [closing] is what the other goroutines
    do while the deferred [conn.Close] runs, that is between the moment the
    connection is closed and the return of [WebSocketStream]. *)
Record session_script : Type := {
  connect : connect_result;
  writer : writer_script;
  closing : list background
}.

(** How a call ends. *)
Inductive status : Type :=
| Returned (err : option error)
| Running                          (* it is still blocked when the script ends *)
| Crashed (msg : string).          (* the program panicked *)

(** ** [WebSocketStream] (lines 65-152) *)

(** The writer loop (lines 134-151) of the session on connection [conn]. *)
Fixpoint writer_loop (conn : nat) (script : writer_script) (w : World) : status * World :=
  match panicked w with
  | Some msg => (Crashed msg, w)
  | None =>
    match script with
    | WBackground b rest => writer_loop conn rest (bg_step b w)
    | WCtxDone =>
        match ctxErr w with
        | Some e => (Returned (Some e), w)            (* return ctx.Err() *)
        | None => (Running, w)                        (* the channel is not ready *)
        end
    | WInputClosed => (Returned None, w)              (* return nil *)
    | WSend msg rest => writer_loop conn rest (record (Wrote conn msg) w)
    | WSendFail msg err =>
        (Returned (Some (NewWebSocketError "failed to send message" (Some err))), w)
    | WBlocked => (Running, w)
    end
  end.

(** [fmt.Sprintf("dial failed with status %d", resp.StatusCode)] *)
Definition dial_failed_with_status (code : Z) : string :=
  "dial failed with status " ++ NilZero.string_of_int (Z.to_int code).

(** The deferred [conn.Close] runs when the writer loop has chosen what to
    return and before the function returns: the connection is closed, the
    close handshake takes its time, during which the reader goroutine may be
    scheduled ([closing]), and then the call returns, unless the program has
    panicked in between. *)
Definition deferred_close (conn : nat) (closing : list background) (r : status * World)
  : status * World :=
  match fst r with
  | Returned _ =>
      let w := bg_steps closing (close_conn conn (snd r)) in
      match panicked w with
      | Some msg => (Crashed msg, w)
      | None => (fst r, w)
      end
  | _ => r
  end.

Definition WebSocketStream (script : session_script) (w : World) : status * World :=
  match panicked w with
  | Some msg => (Crashed msg, w)
  | None =>
    match connect script with
    | BadURL err => (Returned (Some err), w)
    | DialFailed (Some code) err =>
        (Returned (Some (NewWebSocketError (dial_failed_with_status code) (Some err))),
         record (Dial false) w)
    | DialFailed None err =>
        (Returned (Some (NewWebSocketError "dial failed" (Some err))),
         record (Dial false) w)
    | Dialed =>
        let conn := next_conn w in
        deferred_close conn (closing script)
                       (writer_loop conn (writer script) (open_conn w))
    end
  end.

(** ** [WebSocketStreamWithReconnect] (lines 157-237) *)

(** What the environment does during one iteration of the reconnect loop. *)
Record reconnect_round : Type := {
  before_check : list background;   (* before the check at the loop head *)
  in_wait : list background;        (* during the backoff wait *)
  wait_timer_first : bool;          (* the select takes the timer branch when both are ready *)
  session : session_script;         (* during the session *)
  after_session : list background   (* between the return of the session and the next check *)
}.

(** [attempt++] on a 64-bit [int]. *)
Definition int_succ (n : Z) : Z := if n =? max_int64 then min_int64 else n + 1.

Section Reconnect.

Variable out_of_range : float64 -> Z.

(** The delay after one completed wait (lines 203-206). *)
Definition next_reconnect_delay (cfg : WebSocketConfig) (delay : Duration) : Duration :=
  let delay := scale out_of_range delay (ReconnectMultiplier cfg) in
  if delay >? MaxReconnectDelay cfg then MaxReconnectDelay cfg else delay.

(** The loop of lines 176-236, entered at its head. *)
Fixpoint reconnect_loop (cfg : WebSocketConfig) (rounds : list reconnect_round)
         (attempt : Z) (delay : Duration) (w : World) {struct rounds} : status * World :=
  match rounds with
  | [] => (Running, w)
  | r :: rest =>
    let w := bg_steps (before_check r) w in
    match panicked w, ctxErr w with
    | Some msg, _ => (Crashed msg, w)
    | None, Some e => (Returned (Some e), w)                   (* line 179 *)
    | None, None =>
      (* lines 183-208: announce and wait, except before the first session *)
      let '(stop, delay, w) :=
        if attempt >? 0 then
          let w := if OnReconnect cfg then record Reconnecting w else w in
          let w := bg_steps (in_wait r) (record (Waiting delay) w) in
          match select_wait (ctxErr w) (wait_timer_first r) with
          | Some e => (Some e, delay, w)                        (* line 200 *)
          | None => (None, next_reconnect_delay cfg delay, w)
          end
        else (None, delay, w) in
      match panicked w, stop with
      | Some msg, _ => (Crashed msg, w)
      | None, Some e => (Returned (Some e), w)
      | None, None =>
        match WebSocketStream (session r) w with                (* line 211 *)
        | (Returned err, w) =>
          let w := bg_steps (after_session r) w in
          match panicked w, ctxErr w with
          | Some msg, _ => (Crashed msg, w)
          | None, Some e => (Returned (Some e), w)              (* line 215 *)
          | None, None =>
            let attempt := int_succ attempt in
            if (MaxReconnectAttempts cfg >? 0) && (attempt >=? MaxReconnectAttempts cfg)
            then (Returned (Some (NewWebSocketError "max reconnection attempts exceeded" err)),
                  w)                                            (* line 227 *)
            else reconnect_loop cfg rest attempt delay w
          end
        | other => other
        end
      end
    end
  end.

(** [WebSocketStreamWithReconnect]; [wsConfig] is [config.wsConfig]. *)
Definition WebSocketStreamWithReconnect (wsConfig : option WebSocketConfig)
           (rounds : list reconnect_round) (w : World) : status * World :=
  match wsConfig with
  | Some cfg =>
    if AutoReconnect cfg
    then reconnect_loop cfg rounds 0 (ReconnectDelay cfg) w
    else match rounds with
         | r :: _ => WebSocketStream (session r) w
         | [] => (Running, w)
         end
  | None =>
    match rounds with
    | r :: _ => WebSocketStream (session r) w
    | [] => (Running, w)
    end
  end.

End Reconnect.

(** ** Reading a history *)

(** The responses the consumer received on [receiveChan], oldest first. *)
Fixpoint published (h : list ws_event) : list WebSocketResponse :=
  match h with
  | [] => []
  | Published _ r :: rest => r :: published rest
  | _ :: rest => published rest
  end.

(** The number of calls of [websocket.Dial], that is of connection attempts. *)
Fixpoint dials (h : list ws_event) : nat :=
  match h with
  | [] => 0
  | Dial _ :: rest => S (dials rest)
  | _ :: rest => dials rest
  end.

(** The number of calls of [OnReconnect]. *)
Fixpoint callbacks (h : list ws_event) : nat :=
  match h with
  | [] => 0
  | Reconnecting :: rest => S (callbacks rest)
  | _ :: rest => callbacks rest
  end.

(** The number of successful dials, that is of connections made. *)
Fixpoint connections (h : list ws_event) : nat :=
  match h with
  | [] => 0
  | Dial true :: rest => S (connections rest)
  | _ :: rest => connections rest
  end.

(** An operation on [receiveChan], carried out or attempted. *)
Definition touches_queue (ev : ws_event) : bool :=
  match ev with
  | Published _ _ | ChanClose _ | Panic _ => true
  | _ => false
  end.

(** Nothing is done to [receiveChan] after a terminal event was published. *)
Fixpoint untouched_after_terminal (h : list ws_event) : bool :=
  match h with
  | [] => true
  | Published _ r :: rest =>
      if terminal r then negb (existsb touches_queue rest)
      else untouched_after_terminal rest
  | _ :: rest => untouched_after_terminal rest
  end.

(** A session script of a graceful shutdown on connection [conn]: messages
    are written, messages arrive, and then the caller closes [sendChan]. *)
Fixpoint graceful (conn : nat) (script : writer_script) : Prop :=
  match script with
  | WInputClosed => True
  | WSend _ rest => graceful conn rest
  | WBackground (BgRead c (inl _)) rest => c = conn /\ graceful conn rest
  | _ => False
  end.

(** The event a reader publishes when it finds its connection closed. *)
Definition closed_event : WebSocketResponse :=
  {| Data := None; RawData := []; Error := Some ErrClosed; Closed := true |}.

(** The connection [conn] has been closed at the end of the history [before],
    and its reader, the only reader there is, has either not been scheduled
    since, or has published [closed_event], closed [receiveChan] and
    returned. *)
Definition closing_down (conn : nat) (before : list ws_event) (w : World) : Prop :=
  panicked w = None
  /\ conn_open conn w = false
  /\ (forall c, In c (readers w) -> c = conn)
  /\ exists during,
      history w = before ++ ConnClose conn :: during
      /\ ((reader_running conn w = true /\ recv_closed w = false
           /\ published during = [])
          \/ (reader_running conn w = false /\ recv_closed w = true
              /\ published during = [closed_event])).

(** [w'] is [w] some steps later: the history has only grown, each
    successful dial in between has made one new connection, and a closed
    [receiveChan] has stayed closed. *)
Definition extends (w w' : World) : Prop :=
  (exists h, history w' = history w ++ h
             /\ next_conn w' = (next_conn w + connections h)%nat)
  /\ (recv_closed w = true -> recv_closed w' = true).

(** The loop over [rounds], entered in [w], has run the session of round
    number [n] (counting from 0) as its last one: that session was entered in
    a world [w2] that [w] has become, it returned [last], and the loop was
    left in [w'] after what happened behind that session. *)
Definition ended_by_session (rounds : list reconnect_round) (w : World) (n : nat)
           (last : option error) (w' : World) : Prop :=
  exists pre r post w2,
    rounds = pre ++ r :: post
    /\ List.length pre = n
    /\ extends w w2
    /\ fst (WebSocketStream (session r) w2) = Returned last
    /\ w' = bg_steps (after_session r) (snd (WebSocketStream (session r) w2)).

(** The session on [conn] is up: nothing has panicked, [receiveChan] is
    open, the reader runs, the connection is open, and only messages have
    been published. *)
Definition session_up (conn : nat) (w : World) : Prop :=
  panicked w = None
  /\ recv_closed w = false
  /\ reader_running conn w = true
  /\ conn_open conn w = true
  /\ Forall (fun r => Error r = None /\ Closed r = false) (published (history w)).

(** ** Sample scripts *)

Definition refused : error := Opaque "connection refused".

(** Nothing happens around a session whose dial is refused. *)
Definition failing_round : reconnect_round :=
  {| before_check := [];
     in_wait := [];
     wait_timer_first := true;
     session := {| connect := DialFailed None refused; writer := WBlocked;
                   closing := [] |};
     after_session := [] |}.

(** The configuration of the README: five reconnection attempts. *)
Definition five_attempts : WebSocketConfig :=
  {| AutoReconnect := true;
     MaxReconnectAttempts := 5;
     ReconnectDelay := 2 * Second;
     MaxReconnectDelay := 60 * Second;
     ReconnectMultiplier := lit 2 0;
     OnReconnect := true |}.

(** The peer drops the first connection: the reader sees the error, and the
    next message of the caller cannot be written. *)
Definition dropped_round : reconnect_round :=
  {| before_check := [];
     in_wait := [];
     wait_timer_first := true;
     session := {| connect := Dialed;
                   writer := WBackground (BgRead 0 (inr (Opaque "EOF")))
                               (WSendFail "ping"%string (Opaque "broken pipe"));
                   closing := [] |};
     after_session := [] |}.

(** The second connection is made and the peer sends a message on it. *)
Definition greeted_round : reconnect_round :=
  {| before_check := [];
     in_wait := [];
     wait_timer_first := true;
     session := {| connect := Dialed;
                   writer := WBackground (BgRead 1 (inl "hello"%string)) WBlocked;
                   closing := [] |};
     after_session := [] |}.

(** One message each way, then the caller closes [sendChan]; the call
    returns before the reader is scheduled again. *)
Definition shutdown_script : session_script :=
  {| connect := Dialed;
     writer := WSend "subscribe"%string
                 (WBackground (BgRead 0 (inl "update"%string)) WInputClosed);
     closing := [] |}.

(** The same, but the reader's pending read ends while [conn.Close] runs. *)
Definition observed_shutdown_script : session_script :=
  {| connect := Dialed;
     writer := WSend "subscribe"%string
                 (WBackground (BgRead 0 (inl "update"%string)) WInputClosed);
     closing := [BgRead 0 (inr ErrClosed)] |}.

(* ================================================================== *)
(** * Further readings of a retry trace *)
(* ================================================================== *)

Definition is_log (ev : event) : bool :=
  match ev with
  | LogInfo _ _ _ _ | LogError _ _ => true
  | _ => false
  end.

(** A trace with the calls of the logger left out. *)
Definition without_logs (tr : list event) : list event :=
  filter (fun ev => negb (is_log ev)) tr.

(** Exactly one of a response and an error is nil. *)
Definition one_of (resp : option Response) (err : option error) : Prop :=
  match resp, err with
  | Some _, None | None, Some _ => True
  | _, _ => False
  end.

(** Nobody cancels the context during the round. *)
Definition undisturbed (r : Round) : Prop :=
  cancel_at_head r = None /\ cancel_in_flight r = None /\ cancel_in_wait r = None.

(* ================================================================== *)
(** * Further readings of a streaming history *)
(* ================================================================== *)

(** The delays of the backoff waits of a history, oldest first. *)
Fixpoint waits (h : list ws_event) : list Duration :=
  match h with
  | [] => []
  | Waiting d :: rest => d :: waits rest
  | _ :: rest => waits rest
  end.

(** How often the connection [conn] was closed. *)
Fixpoint conn_closes (conn : nat) (h : list ws_event) : nat :=
  match h with
  | [] => 0
  | ConnClose c :: rest => (if Nat.eqb c conn then 1 else 0) + conn_closes conn rest
  | _ :: rest => conn_closes conn rest
  end.

(** What can happen while the writer loop of a session runs: a message is
    written, the context is cancelled, a reader publishes, closes the queue
    or panics. *)
Definition in_session (ev : ws_event) : Prop :=
  match ev with
  | Wrote _ _ | Cancelled _ | Published _ _ | ChanClose _ | Panic _ => True
  | _ => False
  end.

(** The script of the writer loop ends with the caller closing [sendChan]. *)
Fixpoint reaches_input_closed (script : writer_script) : Prop :=
  match script with
  | WBackground _ rest => reaches_input_closed rest
  | WSend _ rest => reaches_input_closed rest
  | WInputClosed => True
  | _ => False
  end.

(** At most one reader goroutine exists, and none once [receiveChan] is
    closed. *)
Definition single_reader (w : World) : Prop :=
  panicked w = None
  /\ (forall c c', In c (readers w) -> In c' (readers w) -> c = c')
  /\ (recv_closed w = true -> readers w = []).

(** A step that neither waits nor calls back, and dials at most [n] times. *)
Definition between (n : nat) (w w' : World) : Prop :=
  waits (history w') = waits (history w)
  /\ callbacks (history w') = callbacks (history w)
  /\ (dials (history w') <= dials (history w) + n)%nat.

(** The reconnect loop, entered in [w] with the current [delay], has left
    [res]: it has waited [delay], [next delay], ... some [k] times, has called
    back once for each wait when there is a callback, and, as long as the
    attempt counter cannot wrap around, has dialled at most once per wait and
    once more when it started with its first session. *)
Definition continues_backoff (next : Duration -> Duration) (callback reconnecting : bool)
           (delay : Duration) (w : World) (no_wrap : Prop) (res : status * World) : Prop :=
  exists k : nat,
    waits (history (snd res)) = waits (history w) ++ schedule next k delay
    /\ callbacks (history (snd res))
       = (callbacks (history w) + if callback then k else 0)%nat
    /\ (no_wrap ->
        (dials (history (snd res))
         <= dials (history w) + k + if reconnecting then 0 else 1)%nat).

(* ================================================================== *)
(** * Request options ([requests.go], [middleware.go]) *)
(* ================================================================== *)

(** [url.Values] and [http.Header]: the values of each key, in the order
    they were added.  A key occurs once. *)
Definition Values : Type := list (string * list string).

(** [v.Add(key, value)] of [url.Values]. *)
Fixpoint Values_Add (v : Values) (key value : string) : Values :=
  match v with
  | [] => [(key, [value])]
  | (k, vs) :: rest =>
      if String.eqb k key then (k, vs ++ [value]) :: rest
      else (k, vs) :: Values_Add rest key value
  end.

(** [v.Set(key, value)]. *)
Fixpoint Values_Set (v : Values) (key value : string) : Values :=
  match v with
  | [] => [(key, [value])]
  | (k, vs) :: rest =>
      if String.eqb k key then (k, [value]) :: rest
      else (k, vs) :: Values_Set rest key value
  end.

(** [v[key]]; a key that is absent has no values. *)
Fixpoint Values_lookup (v : Values) (key : string) : list string :=
  match v with
  | [] => []
  | (k, vs) :: rest => if String.eqb k key then vs else Values_lookup rest key
  end.

(** [for key, values := range params { for _, v := range values { dst.Add(key, v) } }]
    with [add] for [Add]; [params] lists the keys in the order the [range]
    visits them. *)
Definition add_each (add : Values -> string -> string -> Values) (dst params : Values)
  : Values :=
  fold_left (fun acc kv => fold_left (fun acc' v => add acc' (fst kv) v) (snd kv) acc)
            params dst.

(** [m[key] = value] on a [map[string]string]. *)
Fixpoint map_set (m : list (string * string)) (key value : string) : list (string * string) :=
  match m with
  | [] => [(key, value)]
  | (k, v) :: rest =>
      if String.eqb k key then (k, value) :: rest else (k, v) :: map_set rest key value
  end.

(** The part of [multipart.FileHeader] the code reads. *)
Record FileHeader : Type := {
  Filename : string
}.

(** A hook is a Go function; here it is known by a name, and what it does
    when called is part of the environment ([Answers] below). *)
Definition RequestHook : Type := nat.
Definition ResponseHook : Type := nat.
Definition ErrorHook : Type := nat.

Record requestConfig : Type := {
  method : string;
  path : string;
  queryParams : Values;
  body : option payload;
  headers : Values;
  auth : string;
  file : option FileHeader;
  formFieldName : string;
  formFields : list (string * string);
  insecureSkipVerify : bool;
  retryConfig : option RetryConfig;
  wsConfig : option WebSocketConfig;
  beforeRequestHooks : list RequestHook;
  afterResponseHooks : list ResponseHook;
  errorHooks : list ErrorHook
}.

Definition RequestOption : Type := requestConfig -> requestConfig.

(** Assignments to one field of [*requestConfig]. *)
Definition set_method (v : string) (c : requestConfig) : requestConfig :=
  {| method := v;
     path := path c;
     queryParams := queryParams c;
     body := body c;
     headers := headers c;
     auth := auth c;
     file := file c;
     formFieldName := formFieldName c;
     formFields := formFields c;
     insecureSkipVerify := insecureSkipVerify c;
     retryConfig := retryConfig c;
     wsConfig := wsConfig c;
     beforeRequestHooks := beforeRequestHooks c;
     afterResponseHooks := afterResponseHooks c;
     errorHooks := errorHooks c |}.

Definition set_path (v : string) (c : requestConfig) : requestConfig :=
  {| method := method c;
     path := v;
     queryParams := queryParams c;
     body := body c;
     headers := headers c;
     auth := auth c;
     file := file c;
     formFieldName := formFieldName c;
     formFields := formFields c;
     insecureSkipVerify := insecureSkipVerify c;
     retryConfig := retryConfig c;
     wsConfig := wsConfig c;
     beforeRequestHooks := beforeRequestHooks c;
     afterResponseHooks := afterResponseHooks c;
     errorHooks := errorHooks c |}.

Definition set_queryParams (v : Values) (c : requestConfig) : requestConfig :=
  {| method := method c;
     path := path c;
     queryParams := v;
     body := body c;
     headers := headers c;
     auth := auth c;
     file := file c;
     formFieldName := formFieldName c;
     formFields := formFields c;
     insecureSkipVerify := insecureSkipVerify c;
     retryConfig := retryConfig c;
     wsConfig := wsConfig c;
     beforeRequestHooks := beforeRequestHooks c;
     afterResponseHooks := afterResponseHooks c;
     errorHooks := errorHooks c |}.

Definition set_body (v : option payload) (c : requestConfig) : requestConfig :=
  {| method := method c;
     path := path c;
     queryParams := queryParams c;
     body := v;
     headers := headers c;
     auth := auth c;
     file := file c;
     formFieldName := formFieldName c;
     formFields := formFields c;
     insecureSkipVerify := insecureSkipVerify c;
     retryConfig := retryConfig c;
     wsConfig := wsConfig c;
     beforeRequestHooks := beforeRequestHooks c;
     afterResponseHooks := afterResponseHooks c;
     errorHooks := errorHooks c |}.

Definition set_headers (v : Values) (c : requestConfig) : requestConfig :=
  {| method := method c;
     path := path c;
     queryParams := queryParams c;
     body := body c;
     headers := v;
     auth := auth c;
     file := file c;
     formFieldName := formFieldName c;
     formFields := formFields c;
     insecureSkipVerify := insecureSkipVerify c;
     retryConfig := retryConfig c;
     wsConfig := wsConfig c;
     beforeRequestHooks := beforeRequestHooks c;
     afterResponseHooks := afterResponseHooks c;
     errorHooks := errorHooks c |}.

Definition set_auth (v : string) (c : requestConfig) : requestConfig :=
  {| method := method c;
     path := path c;
     queryParams := queryParams c;
     body := body c;
     headers := headers c;
     auth := v;
     file := file c;
     formFieldName := formFieldName c;
     formFields := formFields c;
     insecureSkipVerify := insecureSkipVerify c;
     retryConfig := retryConfig c;
     wsConfig := wsConfig c;
     beforeRequestHooks := beforeRequestHooks c;
     afterResponseHooks := afterResponseHooks c;
     errorHooks := errorHooks c |}.

Definition set_file (v : option FileHeader) (c : requestConfig) : requestConfig :=
  {| method := method c;
     path := path c;
     queryParams := queryParams c;
     body := body c;
     headers := headers c;
     auth := auth c;
     file := v;
     formFieldName := formFieldName c;
     formFields := formFields c;
     insecureSkipVerify := insecureSkipVerify c;
     retryConfig := retryConfig c;
     wsConfig := wsConfig c;
     beforeRequestHooks := beforeRequestHooks c;
     afterResponseHooks := afterResponseHooks c;
     errorHooks := errorHooks c |}.

Definition set_formFieldName (v : string) (c : requestConfig) : requestConfig :=
  {| method := method c;
     path := path c;
     queryParams := queryParams c;
     body := body c;
     headers := headers c;
     auth := auth c;
     file := file c;
     formFieldName := v;
     formFields := formFields c;
     insecureSkipVerify := insecureSkipVerify c;
     retryConfig := retryConfig c;
     wsConfig := wsConfig c;
     beforeRequestHooks := beforeRequestHooks c;
     afterResponseHooks := afterResponseHooks c;
     errorHooks := errorHooks c |}.

Definition set_formFields (v : list (string * string)) (c : requestConfig) : requestConfig :=
  {| method := method c;
     path := path c;
     queryParams := queryParams c;
     body := body c;
     headers := headers c;
     auth := auth c;
     file := file c;
     formFieldName := formFieldName c;
     formFields := v;
     insecureSkipVerify := insecureSkipVerify c;
     retryConfig := retryConfig c;
     wsConfig := wsConfig c;
     beforeRequestHooks := beforeRequestHooks c;
     afterResponseHooks := afterResponseHooks c;
     errorHooks := errorHooks c |}.

Definition set_insecureSkipVerify (v : bool) (c : requestConfig) : requestConfig :=
  {| method := method c;
     path := path c;
     queryParams := queryParams c;
     body := body c;
     headers := headers c;
     auth := auth c;
     file := file c;
     formFieldName := formFieldName c;
     formFields := formFields c;
     insecureSkipVerify := v;
     retryConfig := retryConfig c;
     wsConfig := wsConfig c;
     beforeRequestHooks := beforeRequestHooks c;
     afterResponseHooks := afterResponseHooks c;
     errorHooks := errorHooks c |}.

Definition set_retryConfig (v : option RetryConfig) (c : requestConfig) : requestConfig :=
  {| method := method c;
     path := path c;
     queryParams := queryParams c;
     body := body c;
     headers := headers c;
     auth := auth c;
     file := file c;
     formFieldName := formFieldName c;
     formFields := formFields c;
     insecureSkipVerify := insecureSkipVerify c;
     retryConfig := v;
     wsConfig := wsConfig c;
     beforeRequestHooks := beforeRequestHooks c;
     afterResponseHooks := afterResponseHooks c;
     errorHooks := errorHooks c |}.

Definition set_wsConfig (v : option WebSocketConfig) (c : requestConfig) : requestConfig :=
  {| method := method c;
     path := path c;
     queryParams := queryParams c;
     body := body c;
     headers := headers c;
     auth := auth c;
     file := file c;
     formFieldName := formFieldName c;
     formFields := formFields c;
     insecureSkipVerify := insecureSkipVerify c;
     retryConfig := retryConfig c;
     wsConfig := v;
     beforeRequestHooks := beforeRequestHooks c;
     afterResponseHooks := afterResponseHooks c;
     errorHooks := errorHooks c |}.

Definition set_beforeRequestHooks (v : list RequestHook) (c : requestConfig) : requestConfig :=
  {| method := method c;
     path := path c;
     queryParams := queryParams c;
     body := body c;
     headers := headers c;
     auth := auth c;
     file := file c;
     formFieldName := formFieldName c;
     formFields := formFields c;
     insecureSkipVerify := insecureSkipVerify c;
     retryConfig := retryConfig c;
     wsConfig := wsConfig c;
     beforeRequestHooks := v;
     afterResponseHooks := afterResponseHooks c;
     errorHooks := errorHooks c |}.

Definition set_afterResponseHooks (v : list ResponseHook) (c : requestConfig) : requestConfig :=
  {| method := method c;
     path := path c;
     queryParams := queryParams c;
     body := body c;
     headers := headers c;
     auth := auth c;
     file := file c;
     formFieldName := formFieldName c;
     formFields := formFields c;
     insecureSkipVerify := insecureSkipVerify c;
     retryConfig := retryConfig c;
     wsConfig := wsConfig c;
     beforeRequestHooks := beforeRequestHooks c;
     afterResponseHooks := v;
     errorHooks := errorHooks c |}.

Definition set_errorHooks (v : list ErrorHook) (c : requestConfig) : requestConfig :=
  {| method := method c;
     path := path c;
     queryParams := queryParams c;
     body := body c;
     headers := headers c;
     auth := auth c;
     file := file c;
     formFieldName := formFieldName c;
     formFields := formFields c;
     insecureSkipVerify := insecureSkipVerify c;
     retryConfig := retryConfig c;
     wsConfig := wsConfig c;
     beforeRequestHooks := beforeRequestHooks c;
     afterResponseHooks := afterResponseHooks c;
     errorHooks := v |}.

(** [for _, opt := range opts { opt(config) }] *)
Definition apply_options (opts : list RequestOption) (config : requestConfig)
  : requestConfig :=
  fold_left (fun cfg opt => opt cfg) opts config.

(** [if !strings.HasPrefix(path, "/") { path = "/" + path }] *)
Definition slash_path (path : string) : string :=
  if prefix "/" path then path else "/" ++ path.

(** The shortcuts [GET], [POST], ...: the method and the path at once. *)
Definition method_and_path (m path : string) : RequestOption :=
  fun c => set_path (slash_path path) (set_method m c).

Definition GET : string -> RequestOption := method_and_path "GET".
Definition POST : string -> RequestOption := method_and_path "POST".
Definition PUT : string -> RequestOption := method_and_path "PUT".
Definition DELETE : string -> RequestOption := method_and_path "DELETE".
Definition PATCH : string -> RequestOption := method_and_path "PATCH".
Definition HEAD : string -> RequestOption := method_and_path "HEAD".
Definition OPTIONS : string -> RequestOption := method_and_path "OPTIONS".

Definition WithPath (path : string) : RequestOption :=
  fun c => set_path (slash_path path) c.

Definition WithQueryParam (key value : string) : RequestOption :=
  fun c => set_queryParams (Values_Add (queryParams c) key value) c.

(** [params] lists the keys of the Go map in the order the [range] visits
    them.  A nil [cfg.queryParams] is replaced by an empty map first, which
    are the same list here. *)
Definition WithQueryParams (params : Values) : RequestOption :=
  fun cfg => set_queryParams (add_each Values_Add (queryParams cfg) params) cfg.

Definition WithBody (b : option payload) : RequestOption :=
  fun c => set_body b c.

Definition WithJSON (b : option payload) : RequestOption := WithBody b.

Definition WithAuth (token : string) : RequestOption :=
  fun c => set_auth token c.

Definition WithBearerToken (token : string) : RequestOption :=
  fun c => set_auth ("Bearer " ++ token) c.

Definition WithForm (key value : string) : RequestOption :=
  fun c => set_formFields (map_set (formFields c) key value) c.

Definition WithFile (fieldName : string) (f : option FileHeader) : RequestOption :=
  fun c =>
    set_formFieldName (match fieldName with
                       | EmptyString => "file"
                       | _ => fieldName
                       end)
                      (set_file f c).

Definition WithInsecureSkipVerify : RequestOption :=
  fun c => set_insecureSkipVerify true c.

Definition WithRetry (config : RetryConfig) : RequestOption :=
  fun c => set_retryConfig (Some config) c.

Definition WithDefaultRetry : RequestOption :=
  fun c => set_retryConfig (Some DefaultRetryConfig) c.

Definition WithWebSocketAutoReconnect (config : WebSocketConfig) : RequestOption :=
  fun c => set_wsConfig (Some config) c.

Definition WithDefaultWebSocketReconnect : RequestOption :=
  fun c => set_wsConfig (Some DefaultWebSocketConfig) c.

Definition WithBeforeRequest (hook : RequestHook) : RequestOption :=
  fun c => set_beforeRequestHooks (beforeRequestHooks c ++ [hook]) c.

Definition WithAfterResponse (hook : ResponseHook) : RequestOption :=
  fun c => set_afterResponseHooks (afterResponseHooks c ++ [hook]) c.

Definition WithOnError (hook : ErrorHook) : RequestOption :=
  fun c => set_errorHooks (errorHooks c ++ [hook]) c.

(** The configuration [Request] and [Do] start from. *)
Definition new_requestConfig : requestConfig :=
  {| method := "GET"; path := EmptyString; queryParams := []; body := None;
     headers := []; auth := EmptyString; file := None; formFieldName := EmptyString;
     formFields := []; insecureSkipVerify := false; retryConfig := None;
     wsConfig := None; beforeRequestHooks := []; afterResponseHooks := [];
     errorHooks := [] |}.

(* ================================================================== *)
(** * Building and sending one request ([buildAndExecuteRequest]) *)
(* ================================================================== *)

(** The body of the request that is sent. *)
Inductive request_body : Type :=
| JSONBody (v : payload)
| MultipartBody (fields : list (string * string)) (fieldName fileName : string).

(** The query of a URL: the text [url.Parse] found behind the question
    mark, or the encoding of parameters, [v.Encode()]. *)
Inductive query : Type :=
| ParsedQuery (raw : string)
| EncodedValues (v : Values).

(** A parsed URL ([url.URL]).  [Location] stands for all of it but the query:
    scheme, user, host, path and fragment. *)
Record url_URL : Type := {
  Location : string;
  RawQuery : query
}.

(** An [http.Request]: its method, its URL, its header and its body.  The
    before-request hooks are handed a pointer to it and may change it. *)
Record http_Request : Type := {
  Method : string;
  URL : url_URL;
  Header : Values;
  SendBody : option request_body
}.

(** What the libraries, the hooks and the server answer during one call.
    [url_Parse] is [url.Parse] on the text it is given.  [range_formFields]
    and [range_headers] give the order in which a [range] visits a map.
    [client_Do] is the status and the body of the response, or the error:
    [http.Client.Do] returns a response with a non-nil body exactly when its
    error is nil.  The answer of a hook goes by its position in the list of
    hooks; a before-request hook answers with the request as it leaves it
    and with its error.  What an after-response hook does to the response is
    not part of the model. *)
Record Answers : Type := {
  url_Parse : string -> url_URL + error;
  range_formFields : list (string * string) -> list (string * string);
  WriteField : string -> string -> option error;
  CreateFormFile : option error;
  Open : option error;
  io_Copy : option error;
  Boundary : string;
  json_Marshal : option error;
  range_headers : Values -> Values;
  NewRequestWithContext : option error;
  before_result : nat -> http_Request -> http_Request * option error;
  client_Do : (Z * nat) + error;
  after_result : nat -> option error
}.

(** The calls [buildAndExecuteRequest] makes, in program order. *)
Inductive build_event : Type :=
| CallWriteField (k v : string)
| CallCreateFormFile (fieldName fileName : string)
| CallOpen
| CallCopy
| CallFileClose                          (* the deferred file.Close() *)
| CallMarshal (v : payload)
| CallBefore (hook : RequestHook)
| LogDebug (msg : string)
| CallDo (req : http_Request)
| CallAfter (hook : ResponseHook)
| CallOnError (hook : ErrorHook) (err : error)
| CallBodyClose (b : nat).               (* resp.Body.Close() *)

(** [strings.ReplaceAll(s, old, new)] for one-byte [old] and [new]. *)
Fixpoint ReplaceAll (s : string) (old new : ascii) : string :=
  match s with
  | EmptyString => EmptyString
  | String ch rest =>
      String (if Ascii.eqb ch old then new else ch) (ReplaceAll rest old new)
  end.

(** [for k, v := range config.formFields { writer.WriteField(k, v) }], up to
    the first failure. *)
Fixpoint write_fields (a : Answers) (fields : list (string * string))
  : list build_event * option error :=
  match fields with
  | [] => ([], None)
  | (k, v) :: rest =>
      match WriteField a k v with
      | Some e => ([CallWriteField k v], Some e)
      | None => let r := write_fields a rest in (CallWriteField k v :: fst r, snd r)
      end
  end.

(** A loop over hooks that stops at the first one that fails; [i] is the
    position of the first hook of [hooks]. *)
Fixpoint run_hooks (call : nat -> build_event) (answer : nat -> option error)
         (i : nat) (hooks : list nat) : list build_event * option error :=
  match hooks with
  | [] => ([], None)
  | h :: rest =>
      match answer i with
      | Some e => ([call h], Some e)
      | None => let r := run_hooks call answer (S i) rest in (call h :: fst r, snd r)
      end
  end.

(** [for _, hook := range config.beforeRequestHooks { if err := hook(req);
    err != nil { ... } }]: each hook is handed the request as the hooks
    before it left it, and the loop stops at the first hook that fails.  The
    result is what was called, the request as it is then, and the error of
    the hook that failed; [i] is the position of the first hook of [hooks]. *)
Fixpoint run_before (a : Answers) (i : nat) (hooks : list RequestHook) (req : http_Request)
  : list build_event * http_Request * option error :=
  match hooks with
  | [] => ([], req, None)
  | h :: rest =>
      match snd (before_result a i req) with
      | Some e => ([CallBefore h], fst (before_result a i req), Some e)
      | None =>
          let r := run_before a (S i) rest (fst (before_result a i req)) in
          (CallBefore h :: fst (fst r), snd (fst r), snd r)
      end
  end.

(** [for _, errHook := range config.errorHooks { errHook(req, err) }] *)
Definition call_error_hooks (config : requestConfig) (err : error) : list build_event :=
  map (fun h => CallOnError h err) (errorHooks config).

(** The body and its content type, or the failure. *)
Inductive prepared : Type :=
| Prepared (reqBody : option request_body) (contentType : string)
| PrepareFailed (prefix : string) (cause : error).

(** Lines 548-587: the body of the request.  The last component tells
    whether the file was opened, so that the deferred [file.Close()] is due. *)
Definition prepare_body (config : requestConfig) (a : Answers)
  : list build_event * prepared * bool :=
  match file config with
  | Some f =>
      let fields := range_formFields a (formFields config) in
      let w := write_fields a fields in
      match snd w with
      | Some e => (fst w, PrepareFailed "failed to write form field" e, false)
      | None =>
          let sanitizedFilename := ReplaceAll (Filename f) " " "_" in
          let evs := fst w ++ [CallCreateFormFile (formFieldName config) sanitizedFilename] in
          match CreateFormFile a with
          | Some e => (evs, PrepareFailed "failed to create form file" e, false)
          | None =>
              match Open a with
              | Some e => (evs ++ [CallOpen], PrepareFailed "failed to open file" e, false)
              | None =>
                  match io_Copy a with
                  | Some e =>
                      (evs ++ [CallOpen; CallCopy],
                       PrepareFailed "failed to copy file to buffer" e, true)
                  | None =>
                      (evs ++ [CallOpen; CallCopy],
                       Prepared (Some (MultipartBody fields (formFieldName config)
                                                     sanitizedFilename))
                                ("multipart/form-data; boundary=" ++ Boundary a),
                       true)
                  end
              end
          end
      end
  | None =>
      match body config with
      | Some v =>
          match json_Marshal a with
          | Some e => ([CallMarshal v], PrepareFailed "failed to marshal JSON body" e, false)
          | None => ([CallMarshal v], Prepared (Some (JSONBody v)) "application/json", false)
          end
      | None => ([], Prepared None EmptyString, false)
      end
  end.

(** [if c.logger != nil { c.logger.Debug(msg, ...) }] *)
Definition log_debug (c : Client) (msg : string) : list build_event :=
  if logger c then [LogDebug msg] else [].

Section Builder.

(** [textproto.CanonicalMIMEHeaderKey], which [Header.Add] and [Header.Set]
    apply to the key. *)
Variable CanonicalMIMEHeaderKey : string -> string.

Definition Header_Add (h : Values) (key value : string) : Values :=
  Values_Add h (CanonicalMIMEHeaderKey key) value.

Definition Header_Set (h : Values) (key value : string) : Values :=
  Values_Set h (CanonicalMIMEHeaderKey key) value.

Definition WithHeader (key value : string) : RequestOption :=
  fun c => set_headers (Header_Add (headers c) key value) c.

(** Lines 595-606: the header of the request. *)
Definition request_header (config : requestConfig) (a : Answers) (contentType : string)
  : Values :=
  let h := add_each Header_Add [] (range_headers a (headers config)) in
  let h := match contentType with
           | EmptyString => h
           | _ => Header_Set h "Content-Type" contentType
           end in
  match auth config with
  | EmptyString => h
  | _ => Header_Set h "Authorization" (auth config)
  end.

(** Lines 589-606: the request as the builder makes it.  [fullURL] is the
    parsed URL with its query replaced; [http.NewRequestWithContext] is given
    its text and parses it again. *)
Definition new_request (config : requestConfig) (a : Answers) (fullURL : url_URL)
           (reqBody : option request_body) (contentType : string) : http_Request :=
  {| Method := method config;
     URL := fullURL;
     Header := request_header config a contentType;
     SendBody := reqBody |}.

(** Lines 589-647, after the body is prepared. *)
Definition send_request (c : Client) (config : requestConfig) (a : Answers)
           (fullURL : url_URL) (reqBody : option request_body) (contentType : string)
  : list build_event * (option Response * option error) :=
  match NewRequestWithContext a with
  | Some e => ([], (None, Some (Errorf "failed to create request" e)))
  | None =>
      let before := run_before a 0 (beforeRequestHooks config)
                               (new_request config a fullURL reqBody contentType) in
      let called := fst (fst before) in
      let req := snd (fst before) in
      match snd before with
      | Some e =>
          (called ++ call_error_hooks config e,
           (None, Some (Errorf "before-request hook failed" e)))
      | None =>
          let sent := called ++ log_debug c "requesting to API" ++ [CallDo req] in
          match client_Do a with
          | inr e =>
              (sent ++ call_error_hooks config e,
               (None, Some (Errorf "request failed" e)))
          | inl (status, b) =>
              let resp := {| StatusCode := status; Body := Some b |} in
              let after := run_hooks CallAfter (after_result a) 0
                                     (afterResponseHooks config) in
              match snd after with
              | Some e =>
                  (sent ++ fst after ++ call_error_hooks config e ++ [CallBodyClose b],
                   (None, Some (Errorf "after-response hook failed" e)))
              | None => (sent ++ fst after, (Some resp, None))
              end
          end
      end
  end.

(** [buildAndExecuteRequest(ctx, config)]; [baseURL] is [c.baseURL].  The
    query that the parsed URL has is overwritten with the encoding of
    [config.queryParams] (line 544). *)
Definition buildAndExecuteRequest (c : Client) (baseURL : string) (config : requestConfig)
           (a : Answers) : list build_event * (option Response * option error) :=
  match url_Parse a (baseURL ++ path config) with
  | inr e => ([], (None, Some (Errorf "invalid URL" e)))
  | inl u =>
      let fullURL := {| Location := Location u;
                        RawQuery := EncodedValues (queryParams config) |} in
      match prepare_body config a with
      | (evs, PrepareFailed prefix e, opened) =>
          (evs ++ (if opened then [CallFileClose] else []),
           (None, Some (Errorf prefix e)))
      | (evs, Prepared reqBody contentType, opened) =>
          let r := send_request c config a fullURL reqBody contentType in
          (evs ++ fst r ++ (if opened then [CallFileClose] else []), snd r)
      end
  end.

End Builder.

(* ================================================================== *)
(** * [Request] and [Do] ([requests.go], [errors.go]) *)
(* ================================================================== *)

Module HTTPError.

Record HTTPError : Type := {
  StatusCode : Z;
  Body : list Byte.byte;
  Message : string
}.

(** [fmt.Sprintf("%d", n)] *)
Definition decimal (n : Z) : string := NilZero.string_of_int (Z.to_int n).

(** The [Error] method. *)
Definition Error (e : HTTPError) : string :=
  match Message e with
  | EmptyString =>
      "HTTP " ++ decimal (StatusCode e) ++ ": received non-2xx status code"
  | m => "HTTP " ++ decimal (StatusCode e) ++ ": " ++ m
  end.

End HTTPError.

Definition NewHTTPError (statusCode : Z) (body : list Byte.byte) : HTTPError.HTTPError :=
  {| HTTPError.StatusCode := statusCode;
     HTTPError.Body := body;
     HTTPError.Message :=
       "received non-2xx status code: " ++ HTTPError.decimal statusCode |}.

(** The response of the client API ([reqws.Response], not [http.Response]);
    the copy of the header is left out. *)
Module reqws.

Record Response : Type := {
  Body : list Byte.byte;
  StatusCode : Z
}.

Definition IsSuccess (r : Response) : bool :=
  (StatusCode r >=? 200) && (StatusCode r <? 300).

Definition IsClientError (r : Response) : bool :=
  (StatusCode r >=? 400) && (StatusCode r <? 500).

Definition IsServerError (r : Response) : bool :=
  (StatusCode r >=? 500) && (StatusCode r <? 600).

End reqws.

(** The error [Request] returns: an [error] of the kinds above, or an
    [HTTPError]. *)
Inductive request_error : Type :=
| Failed (e : error)
| Status (e : HTTPError.HTTPError).

(** What a call of [Request] or [Do] does to the outside. *)
Inductive call_event : Type :=
| Retrying (e : event)        (* an event of executeWithRetry *)
| ReadAll (b : nat)           (* io.ReadAll(resp.Body) *)
| DeferredClose (b : nat).    (* the deferred resp.Body.Close() *)

(** How a call ends: it returns, or it dereferences a nil pointer. *)
Inductive ending (A : Type) : Type :=
| Returns (value : A)
| NilDereference.

Arguments Returns {A} value.
Arguments NilDereference {A}.

(** The body [b] was closed in the trace [tr]. *)
Definition closed_in (tr : list event) (b : nat) : bool :=
  existsb (Nat.eqb b) (closed_bodies tr).

Section Calls.

Variable out_of_range : float64 -> Z.
Variable c : Client.
Variable env : Z -> Round.

(** [io.ReadAll] on the body [b]; the flag tells whether the body was closed
    before. *)
Variable io_ReadAll : nat -> bool -> list Byte.byte + error.

(** The common part of [Request] and [Do]: lines 663-682 and 1103-1120.
    [finish] is what follows a successful read. *)
Definition execute_and_read {A : Type} (ctx : option error) (opts : list RequestOption)
           (fail : error -> A) (finish : Response -> list Byte.byte -> A)
  : list call_event * ending A :=
  let config := apply_options opts new_requestConfig in
  let run := executeWithRetry out_of_range c env ctx (retryConfig config) in
  let tr := map Retrying (fst run) in
  match ret_err (snd run) with
  | Some e => (tr, Returns (fail e))
  | None =>
      match ret_resp (snd run) with
      | None => (tr, NilDereference)                    (* resp.Body with resp == nil *)
      | Some resp =>
          match Body resp with
          | None => (tr, NilDereference)                (* Close of a nil interface *)
          | Some b =>
              (tr ++ [ReadAll b; DeferredClose b],
               Returns
                 match io_ReadAll b (closed_in (fst run) b) with
                 | inr e => fail (Errorf "failed to read response body" e)
                 | inl respBody => finish resp respBody
                 end)
          end
      end
  end.

Definition Request (ctx : option error) (opts : list RequestOption)
  : list call_event * ending (option (list Byte.byte) * option request_error) :=
  execute_and_read ctx opts
    (fun e => (None, Some (Failed e)))
    (fun resp respBody =>
       if (StatusCode resp <? 200) || (StatusCode resp >=? 300)
       then (Some respBody, Some (Status (NewHTTPError (StatusCode resp) respBody)))
       else (Some respBody, None)).

Definition Do (ctx : option error) (opts : list RequestOption)
  : list call_event * ending (option reqws.Response * option error) :=
  execute_and_read ctx opts
    (fun e => (None, Some e))
    (fun resp respBody =>
       (Some {| reqws.Body := respBody; reqws.StatusCode := StatusCode resp |}, None)).

End Calls.

(* ================================================================== *)
(** * Readings of the calls of the request builder *)
(* ================================================================== *)

(** The calls of error hooks: which hook, with which error. *)
Definition error_hook_calls (tr : list build_event) : list (ErrorHook * error) :=
  flat_map (fun ev => match ev with CallOnError h e => [(h, e)] | _ => [] end) tr.

(** The before-request hooks that were called. *)
Definition before_calls (tr : list build_event) : list RequestHook :=
  flat_map (fun ev => match ev with CallBefore h => [h] | _ => [] end) tr.

(** The after-response hooks that were called. *)
Definition after_calls (tr : list build_event) : list ResponseHook :=
  flat_map (fun ev => match ev with CallAfter h => [h] | _ => [] end) tr.

(** The requests handed to [c.client.Do]. *)
Definition sent (tr : list build_event) : list http_Request :=
  flat_map (fun ev => match ev with CallDo req => [req] | _ => [] end) tr.

(** The response bodies that were closed. *)
Definition body_closes (tr : list build_event) : list nat :=
  flat_map (fun ev => match ev with CallBodyClose b => [b] | _ => [] end) tr.

(** The values handed to [json.Marshal]. *)
Definition marshals (tr : list build_event) : list payload :=
  flat_map (fun ev => match ev with CallMarshal v => [v] | _ => [] end) tr.

(** The prefixes of the errors that arise once the request exists and the
    hooks have begun to run. *)
Definition reported : list string :=
  ["before-request hook failed"; "request failed"; "after-response hook failed"]%string.

(** The prefixes of the errors of the preparation. *)
Definition unreported : list string :=
  ["invalid URL"; "failed to write form field"; "failed to create form file";
   "failed to open file"; "failed to copy file to buffer";
   "failed to marshal JSON body"; "failed to create request"]%string.

(** A parser that finds no query. *)
Definition whole_location (raw : string) : url_URL + error :=
  inl {| Location := raw; RawQuery := ParsedQuery EmptyString |}.

(** A server that answers [status] with the body [b]; every library call and
    every hook succeeds, and no hook changes the request. *)
Definition answers (status : Z) (b : nat) : Answers :=
  {| url_Parse := whole_location;
     range_formFields := fun m => m;
     WriteField := fun _ _ => None;
     CreateFormFile := None;
     Open := None;
     io_Copy := None;
     Boundary := "b0";
     json_Marshal := None;
     range_headers := fun h => h;
     NewRequestWithContext := None;
     before_result := fun _ req => (req, None);
     client_Do := inl (status, b);
     after_result := fun _ => None |}.

(** The same, but the after-response hook at position [i] fails. *)
Definition answers_after_fails (status : Z) (b : nat) (i : nat) (e : error) : Answers :=
  {| url_Parse := whole_location;
     range_formFields := fun m => m;
     WriteField := fun _ _ => None;
     CreateFormFile := None;
     Open := None;
     io_Copy := None;
     Boundary := "b0";
     json_Marshal := None;
     range_headers := fun h => h;
     NewRequestWithContext := None;
     before_result := fun _ req => (req, None);
     client_Do := inl (status, b);
     after_result := fun j => if Nat.eqb i j then Some e else None |}.

(** The same, but the before-request hook at position [i] fails. *)
Definition answers_before_fails (status : Z) (b : nat) (i : nat) (e : error) : Answers :=
  {| url_Parse := whole_location;
     range_formFields := fun m => m;
     WriteField := fun _ _ => None;
     CreateFormFile := None;
     Open := None;
     io_Copy := None;
     Boundary := "b0";
     json_Marshal := None;
     range_headers := fun h => h;
     NewRequestWithContext := None;
     before_result := fun j req => (req, if Nat.eqb i j then Some e else None);
     client_Do := inl (status, b);
     after_result := fun _ => None |}.

(** A parser that splits the text at its first question mark. *)
Fixpoint split_query (raw : string) : string * string :=
  match raw with
  | EmptyString => (EmptyString, EmptyString)
  | String ch rest =>
      if Ascii.eqb ch "?" then (EmptyString, rest)
      else (String ch (fst (split_query rest)), snd (split_query rest))
  end.

Definition query_location (raw : string) : url_URL + error :=
  inl {| Location := fst (split_query raw); RawQuery := ParsedQuery (snd (split_query raw)) |}.

(** The server of [answers] behind a parser that splits off the query. *)
Definition answers_splitting (status : Z) (b : nat) : Answers :=
  {| url_Parse := query_location;
     range_formFields := fun m => m;
     WriteField := fun _ _ => None;
     CreateFormFile := None;
     Open := None;
     io_Copy := None;
     Boundary := "b0";
     json_Marshal := None;
     range_headers := fun h => h;
     NewRequestWithContext := None;
     before_result := fun _ req => (req, None);
     client_Do := inl (status, b);
     after_result := fun _ => None |}.

(** The server of [answers], with before-request hooks that set the
    [Authorization] header to [token] and pass. *)
Definition answers_hook_sets_token (status : Z) (b : nat) (token : string) : Answers :=
  {| url_Parse := whole_location;
     range_formFields := fun m => m;
     WriteField := fun _ _ => None;
     CreateFormFile := None;
     Open := None;
     io_Copy := None;
     Boundary := "b0";
     json_Marshal := None;
     range_headers := fun h => h;
     NewRequestWithContext := None;
     before_result :=
       fun _ req =>
         ({| Method := Method req; URL := URL req;
             Header := Values_Set (Header req) "Authorization" token;
             SendBody := SendBody req |}, None);
     client_Do := inl (status, b);
     after_result := fun _ => None |}.

(** Header keys as they are. *)
Definition verbatim (key : string) : string := key.

(** The bodies of [net/http]: all of them are empty, and reading one that
    was closed fails. *)
Definition http_body (b : nat) (closed : bool) : list Byte.byte + error :=
  if closed then inr (Opaque "http: read on closed response body") else inl [].

(** The rounds in which nobody cancels and attempt [i] is the call of
    [buildAndExecuteRequest] that is answered by [scripts i]. *)
Definition env_of (canon : string -> string) (c : Client) (baseURL : string)
           (config : requestConfig) (scripts : Z -> Answers) (i : Z) : Round :=
  {| cancel_at_head := None;
     outcome := snd (buildAndExecuteRequest canon c baseURL config (scripts i));
     cancel_in_flight := None;
     cancel_in_wait := None;
     timer_first := true |}.

(** A retry policy that allows no attempt at all. *)
Definition no_attempts : RetryConfig :=
  {| MaxRetries := -1;
     InitialDelay := 100 * Millisecond;
     MaxDelay := 5 * Second;
     Multiplier := lit 2 0 |}.

(* ================================================================== *)
(** * Properties of the retry classifier and executor *)
(* ================================================================== *)

(** ** Bookkeeping lemmas *)

Lemma last_opt_app {A : Type} (l1 l2 : list A) :
  last_opt (l1 ++ l2) =
  match last_opt l2 with Some b => Some b | None => last_opt l1 end.
Proof.
  induction l1 as [|a l1 IH]; simpl.
  - destruct (last_opt l2); reflexivity.
  - rewrite IH. destruct (last_opt l2); reflexivity.
Qed.

Lemma attempts_app (t1 t2 : list event) : attempts (t1 ++ t2) = attempts t1 ++ attempts t2.
Proof.
  induction t1 as [|ev t1 IH]; simpl; [reflexivity|].
  destruct ev; simpl; rewrite ?IH; reflexivity.
Qed.

Lemma sleeps_app (t1 t2 : list event) : sleeps (t1 ++ t2) = sleeps t1 ++ sleeps t2.
Proof.
  induction t1 as [|ev t1 IH]; simpl; [reflexivity|].
  destruct ev; simpl; rewrite ?IH; reflexivity.
Qed.

Lemma closed_bodies_app (t1 t2 : list event) :
  closed_bodies (t1 ++ t2) = closed_bodies t1 ++ closed_bodies t2.
Proof.
  induction t1 as [|ev t1 IH]; simpl; [reflexivity|].
  destruct ev; simpl; rewrite ?IH; reflexivity.
Qed.

Lemma attempts_fired (c : option error) : attempts (fired c) = [].
Proof. destruct c; reflexivity. Qed.

Lemma sleeps_fired (c : option error) : sleeps (fired c) = [].
Proof. destruct c; reflexivity. Qed.

Lemma attempts_close_body (resp : option Response) : attempts (close_body resp) = [].
Proof. destruct resp as [[s [b|]]|]; reflexivity. Qed.

Lemma sleeps_close_body (resp : option Response) : sleeps (close_body resp) = [].
Proof. destruct resp as [[s [b|]]|]; reflexivity. Qed.

Lemma attempts_log_info c msg a m d : attempts (log_info c msg a m d) = [].
Proof. unfold log_info. destruct (logger c); reflexivity. Qed.

Lemma sleeps_log_info c msg a m d : sleeps (log_info c msg a m d) = [].
Proof. unfold log_info. destruct (logger c); reflexivity. Qed.

Lemma attempts_log_error c msg e : attempts (log_error c msg e) = [].
Proof. unfold log_error. destruct (logger c); reflexivity. Qed.

Lemma sleeps_log_error c msg e : sleeps (log_error c msg e) = [].
Proof. unfold log_error. destruct (logger c); reflexivity. Qed.

Lemma closed_bodies_fired (c : option error) : closed_bodies (fired c) = [].
Proof. destruct c; reflexivity. Qed.

Lemma closed_bodies_log_info c msg a m d : closed_bodies (log_info c msg a m d) = [].
Proof. unfold log_info. destruct (logger c); reflexivity. Qed.

Lemma closed_bodies_log_error c msg e : closed_bodies (log_error c msg e) = [].
Proof. unfold log_error. destruct (logger c); reflexivity. Qed.

Lemma first_cancel_app (t1 t2 : list event) :
  first_cancel (t1 ++ t2) = fire (first_cancel t2) (first_cancel t1).
Proof.
  induction t1 as [|ev t1 IH]; simpl; [destruct (first_cancel t2); reflexivity|].
  destruct ev; simpl; rewrite ?IH; reflexivity.
Qed.

Lemma first_cancel_fired (c : option error) : first_cancel (fired c) = c.
Proof. destruct c; reflexivity. Qed.

Lemma first_cancel_close_body (resp : option Response) : first_cancel (close_body resp) = None.
Proof. destruct resp as [[s [b|]]|]; reflexivity. Qed.

Lemma first_cancel_log_info c msg a m d : first_cancel (log_info c msg a m d) = None.
Proof. unfold log_info. destruct (logger c); reflexivity. Qed.

Lemma first_cancel_log_error c msg e : first_cancel (log_error c msg e) = None.
Proof. unfold log_error. destruct (logger c); reflexivity. Qed.

Lemma fire_none (c ctx : option error) : fire c ctx = None -> c = None /\ ctx = None.
Proof. destruct ctx; simpl; [discriminate | auto]. Qed.

Lemma fst_emit (evs : list event) (k : Run) : fst (emit evs k) = evs ++ fst k.
Proof. reflexivity. Qed.

Lemma snd_emit (evs : list event) (k : Run) : snd (emit evs k) = snd k.
Proof. reflexivity. Qed.

Lemma success_not_retried (resp : option Response) (err : option error) :
  is_success resp err = true -> shouldRetry resp err = false.
Proof.
  destruct err as [e|]; [discriminate|]. destruct resp as [r|]; [|discriminate].
  simpl. intro H. apply andb_prop in H. destruct H as [H1 H2].
  destruct (StatusCode r >=? 500) eqn:H500; [lia|].
  destruct (StatusCode r =? 429) eqn:H429; [lia|].
  destruct ((StatusCode r >=? 400) && (StatusCode r <? 500)); reflexivity.
Qed.

Create Rewrite HintDb trace.
#[local] Hint Rewrite fst_emit snd_emit attempts_app sleeps_app closed_bodies_app
  attempts_fired sleeps_fired attempts_close_body sleeps_close_body
  attempts_log_info sleeps_log_info attempts_log_error sleeps_log_error
  closed_bodies_fired closed_bodies_log_info closed_bodies_log_error
  first_cancel_app first_cancel_fired first_cancel_close_body first_cancel_log_info
  first_cancel_log_error
  app_nil_r app_nil_l : trace.

Ltac tidy :=
  repeat (autorewrite with trace in *
          || cbn [attempts sleeps closed_bodies first_cancel app fst snd last_opt
                  ret_via ret_resp ret_err done emit schedule] in * ).

(** *** Splitting a trace at an event *)

Lemma quiet_after_cancel_split (tr : list event) :
  quiet_after_cancel tr ->
  forall pre e post, tr = pre ++ Cancel e :: post -> attempts post = [].
Proof.
  induction tr as [|ev tr IH]; intros Hq pre e post Heq.
  - destruct pre; discriminate.
  - destruct pre as [|ev' pre]; simpl in Heq; injection Heq as Hev Htr.
    + subst ev tr. exact Hq.
    + subst ev'. destruct ev; simpl in Hq; try (apply (IH Hq pre e post Htr)).
      subst tr. rewrite attempts_app in Hq. apply app_eq_nil in Hq. apply Hq.
Qed.

Lemma quiet_after_cancel_app (t1 t2 : list event) :
  attempts t1 = [] ->
  (first_cancel t1 = None -> quiet_after_cancel t2) ->
  (first_cancel t1 <> None -> attempts t2 = []) ->
  quiet_after_cancel (t1 ++ t2).
Proof.
  induction t1 as [|ev t1 IH]; simpl; intros Hatt Hnone Hsome.
  - auto.
  - destruct ev; simpl in *; try discriminate; try (apply IH; assumption).
    rewrite attempts_app, Hatt. apply Hsome. discriminate.
Qed.

Lemma quiet_after_cancel_skip (t1 t2 : list event) :
  first_cancel t1 = None -> attempts t1 = [] ->
  quiet_after_cancel t2 -> quiet_after_cancel (t1 ++ t2).
Proof.
  intros Hc Ha Hq. apply quiet_after_cancel_app; [assumption | auto | congruence].
Qed.

Lemma cancelled_while_waiting_split (pre post : list event) (d : Duration) (e : error) :
  cancelled_while_waiting (pre ++ Sleep d :: Cancel e :: post) = true.
Proof.
  induction pre as [|ev pre IH]; [reflexivity|].
  destruct ev; simpl; try exact IH.
  destruct (pre ++ Sleep d :: Cancel e :: post) as [|[] ?]; (exact IH || reflexivity).
Qed.

Lemma cancelled_while_waiting_app (t1 t2 : list event) :
  sleeps t1 = [] -> cancelled_while_waiting (t1 ++ t2) = cancelled_while_waiting t2.
Proof.
  induction t1 as [|ev t1 IH]; simpl; intro Hs; [reflexivity|].
  destruct ev; simpl in *; try discriminate; apply IH; assumption.
Qed.

Lemma no_sleep_no_cancelled_wait (t : list event) :
  sleeps t = [] -> cancelled_while_waiting t = false.
Proof.
  induction t as [|ev t IH]; simpl; intro Hs; [reflexivity|].
  destruct ev; simpl in *; try discriminate; apply IH; assumption.
Qed.

Lemma cancelled_while_waiting_sleep (d : Duration) (t : list event) :
  cancelled_while_waiting (Sleep d :: t) = true ->
  (exists e post, t = Cancel e :: post) \/ cancelled_while_waiting t = true.
Proof.
  simpl. destruct t as [|[] t]; intro H; try (right; exact H).
  left. eexists. eexists. reflexivity.
Qed.

Lemma retryable_closed_app (t1 t2 : list event) :
  attempts t1 = [] -> retryable_closed t2 -> retryable_closed (t1 ++ t2).
Proof.
  induction t1 as [|ev t1 IH]; simpl; intros Hatt Hc; [assumption|].
  destruct ev; simpl in *; try discriminate; apply IH; assumption.
Qed.

Lemma no_attempt_closed (t : list event) : attempts t = [] -> retryable_closed t.
Proof.
  intro H. rewrite <- (app_nil_r t). apply retryable_closed_app; [assumption | exact I].
Qed.

Lemma retryable_closed_split (tr : list event) :
  retryable_closed tr ->
  forall pre n r e post b,
    tr = pre ++ Attempt n (Some r) e :: post ->
    shouldRetry (Some r) e = true -> Body r = Some b -> In (BodyClose b) post.
Proof.
  induction tr as [|ev tr IH]; intros Hc pre n r e post b Heq Hretry Hbody.
  - destruct pre; discriminate.
  - destruct pre as [|ev' pre]; simpl in Heq; injection Heq as Hev Htr.
    + subst ev tr. simpl in Hc. destruct Hc as [Hc _]. apply (Hc Hretry b Hbody).
    + subst ev'. eapply IH; [ | exact Htr | exact Hretry | exact Hbody ].
      destruct ev as [| ? [?|] ? | | | |]; simpl in Hc; try exact Hc. apply Hc.
Qed.

Lemma last_attempt_split (tr : list event) :
  forall n resp err,
    last_opt (attempts tr) = Some (n, resp, err) ->
    exists pre post, tr = pre ++ Attempt n resp err :: post /\ attempts post = [].
Proof.
  induction tr as [|ev tr IH]; intros n resp err Hlast; [discriminate|].
  destruct (last_opt (attempts tr)) as [[[n' r'] e']|] eqn:Hrest.
  - assert (Hsame : last_opt (attempts (ev :: tr)) = Some (n', r', e'))
      by (destruct ev; simpl; rewrite ?Hrest; reflexivity).
    rewrite Hsame in Hlast. injection Hlast as -> -> ->.
    destruct (IH _ _ _ eq_refl) as [pre [post [-> Hpost]]].
    exists (ev :: pre), post. split; [reflexivity | assumption].
  - assert (Hnil : attempts tr = [])
      by (destruct (attempts tr) as [|a l]; [reflexivity|];
          simpl in Hrest; destruct (last_opt l); discriminate).
    destruct ev; simpl in Hlast; rewrite ?Hrest in Hlast; try discriminate.
    injection Hlast as -> -> ->. exists [], tr. split; [reflexivity | assumption].
Qed.

(** Instantiate an induction hypothesis at the recursive call in the goal. *)
Ltac use_IH IH :=
  match goal with
  | |- context [retry_loop _ _ _ _ ?fuel ?a ?d ?r ?e ?x] => specialize (IH a d r e x)
  end.

Lemma without_logs_app (t1 t2 : list event) :
  without_logs (t1 ++ t2) = without_logs t1 ++ without_logs t2.
Proof. apply filter_app. Qed.

Lemma without_logs_log_info c msg a m d : without_logs (log_info c msg a m d) = [].
Proof. unfold log_info. destruct (logger c); reflexivity. Qed.

Lemma without_logs_log_error c msg e : without_logs (log_error c msg e) = [].
Proof. unfold log_error. destruct (logger c); reflexivity. Qed.

Lemma without_logs_after_loop c lr le : without_logs (fst (after_loop c lr le)) = [].
Proof.
  destruct le; simpl; [|reflexivity]. rewrite app_nil_r. apply without_logs_log_error.
Qed.

Lemma after_loop_snd c lr le :
  snd (after_loop c lr le) = {| ret_resp := lr; ret_err := le; ret_via := Exhausted |}.
Proof. destruct le; reflexivity. Qed.

Lemma without_logs_cons (ev : event) (t : list event) :
  without_logs (ev :: t) = (if is_log ev then [] else [ev]) ++ without_logs t.
Proof. unfold without_logs. simpl. destruct (is_log ev); reflexivity. Qed.

Lemma without_logs_fired (x : option error) : without_logs (fired x) = fired x.
Proof. destruct x; reflexivity. Qed.

Lemma without_logs_close_body (resp : option Response) :
  without_logs (close_body resp) = close_body resp.
Proof. destruct resp as [[s [b|]]|]; reflexivity. Qed.

(** Push [without_logs] down to the pieces of a trace. *)
Ltac logs :=
  repeat (rewrite ?without_logs_app, ?without_logs_cons, ?without_logs_after_loop,
            ?without_logs_log_info;
          cbn [is_log]).

Section RetryFacts.

Variable out_of_range : float64 -> Z.
Variable c : Client.
Variable env : Z -> Round.
Variable rc : RetryConfig.

Local Abbreviation loop := (retry_loop out_of_range c env rc).

Lemma after_loop_result (lr : option Response) (le : option error) :
  snd (after_loop c lr le) = {| ret_resp := lr; ret_err := le; ret_via := Exhausted |}.
Proof. destruct le; reflexivity. Qed.

Lemma attempts_after_loop (lr : option Response) (le : option error) :
  attempts (fst (after_loop c lr le)) = [].
Proof. destruct le; simpl; tidy; reflexivity. Qed.

Lemma sleeps_after_loop (lr : option Response) (le : option error) :
  sleeps (fst (after_loop c lr le)) = [].
Proof. destruct le; simpl; tidy; reflexivity. Qed.

(** One iteration, case by case.  Each proof about the loop starts here. *)
Ltac iteration a ctx :=
  cbn [retry_loop];
  destruct (a <=? MaxRetries rc) eqn:Hcond;
  [ destruct (fire (cancel_at_head (env a)) ctx) as [e_head|] eqn:Hhead;
    [ | destruct (is_success (fst (outcome (env a))) (snd (outcome (env a)))) eqn:Hok;
        [ | destruct (shouldRetry (fst (outcome (env a))) (snd (outcome (env a)))) eqn:Hretry;
            cbn [negb];
            [ destruct (a >=? MaxRetries rc) eqn:Hlast;
              [ | destruct (select_wait (fire (cancel_in_wait (env a))
                                              (fire (cancel_in_flight (env a)) None))
                                        (timer_first (env a))) as [e_wait|] eqn:Hsel ]
            | ] ] ]
  | ].

(** The loop always returns: the bound [MaxRetries + 1 - attempt] on the
    number of iterations is never used up. *)
Lemma retry_loop_returns :
  forall fuel attempt delay lr le ctx,
    (Z.to_nat (MaxRetries rc + 1 - attempt) <= fuel)%nat ->
    ret_via (snd (loop fuel attempt delay lr le ctx)) <> Diverged.
Proof.
  induction fuel as [|fuel IH]; intros attempt delay lr le ctx Hfuel.
  - cbn [retry_loop]. destruct (attempt <=? MaxRetries rc) eqn:Hcond; [lia|].
    rewrite after_loop_result. discriminate.
  - iteration attempt ctx; tidy;
      rewrite ?after_loop_result; try discriminate.
    apply IH. lia.
Qed.

(** On the exhaustion path the values returned are those of the last
    attempt, which is attempt number [MaxRetries] and was retryable. *)
Lemma retry_loop_exhausted :
  forall fuel attempt delay lr le ctx,
    ret_via (snd (loop fuel attempt delay lr le ctx)) = Exhausted ->
    match last_opt (attempts (fst (loop fuel attempt delay lr le ctx))) with
    | Some (n, resp, err) =>
        ret_resp (snd (loop fuel attempt delay lr le ctx)) = resp
        /\ ret_err (snd (loop fuel attempt delay lr le ctx)) = err
        /\ shouldRetry resp err = true /\ n = MaxRetries rc
    | None =>
        ret_resp (snd (loop fuel attempt delay lr le ctx)) = lr
        /\ ret_err (snd (loop fuel attempt delay lr le ctx)) = le
        /\ attempt > MaxRetries rc
    end.
Proof.
  induction fuel as [|fuel IH]; intros attempt delay lr le ctx.
  - cbn [retry_loop]. destruct (attempt <=? MaxRetries rc) eqn:Hcond; [discriminate|].
    rewrite after_loop_result, attempts_after_loop. simpl. intros _. repeat split. lia.
  - iteration attempt ctx; tidy; try discriminate.
    + (* last permitted attempt *)
      rewrite after_loop_result, attempts_after_loop. tidy. intros _.
      repeat split; [assumption | lia].
    + (* another iteration follows *)
      intro Hvia; apply IH in Hvia;
        destruct (last_opt (attempts (fst (loop fuel (attempt + 1) _ _ _ _))))
          as [[[n resp] err]|]; try exact Hvia; lia.
    + rewrite after_loop_result, attempts_after_loop. tidy. intros _. repeat split. lia.
Qed.

(** The attempts are numbered and bounded: never more than
    [MaxRetries + 1 - attempt] further ones. *)
Lemma retry_loop_attempts_bound :
  forall fuel attempt delay lr le ctx,
    Z.of_nat (List.length (attempts (fst (loop fuel attempt delay lr le ctx))))
    <= Z.max 0 (MaxRetries rc + 1 - attempt).
Proof.
  induction fuel as [|fuel IH]; intros attempt delay lr le ctx.
  - cbn [retry_loop]. destruct (attempt <=? MaxRetries rc);
      [|rewrite attempts_after_loop]; simpl; lia.
  - iteration attempt ctx; tidy; rewrite ?attempts_after_loop;
      cbn [List.length]; try lia.
    use_IH IH; lia.
Qed.

(** The first [k] delays of the schedule that starts at [delay]. *)
Lemma retry_loop_sleeps :
  forall fuel attempt delay lr le ctx,
    exists k : nat,
      sleeps (fst (loop fuel attempt delay lr le ctx))
      = schedule (next_delay out_of_range rc) k delay
      /\ Z.of_nat k <= Z.max 0 (MaxRetries rc - attempt).
Proof.
  induction fuel as [|fuel IH]; intros attempt delay lr le ctx.
  - exists 0%nat. cbn [retry_loop]. destruct (attempt <=? MaxRetries rc);
      [|rewrite sleeps_after_loop]; simpl; split; (reflexivity || lia).
  - iteration attempt ctx; tidy; rewrite ?sleeps_after_loop;
      try (exists 0%nat; split; [reflexivity | lia]).
    + exists 1%nat; (split; [reflexivity | lia]).
    + destruct (IH (attempt + 1) (next_delay out_of_range rc delay)
                   (fst (outcome (env attempt))) (snd (outcome (env attempt)))
                   (fire (cancel_in_wait (env attempt))
                         (fire (cancel_in_flight (env attempt)) None)))
        as [k [Hk Hle]].
      exists (S k). rewrite Hk; (split; [reflexivity | lia]).
Qed.

(** A first attempt that succeeds ends the call at once. *)
Lemma retry_loop_first_success :
  forall fuel attempt delay lr le ctx n resp,
    hd_error (attempts (fst (loop fuel attempt delay lr le ctx))) = Some (n, Some resp, None) ->
    200 <= StatusCode resp < 300 ->
    loop fuel attempt delay lr le ctx
    = (fired (cancel_at_head (env attempt))
         ++ Attempt attempt (Some resp) None :: fired (cancel_in_flight (env attempt)),
       {| ret_resp := Some resp; ret_err := None; ret_via := Succeeded |}).
Proof.
  intros fuel attempt delay lr le ctx n resp Hfirst H2xx.
  assert (Hs : is_success (Some resp) None = true) by (simpl; lia).
  destruct fuel as [|fuel]; revert Hfirst.
  - cbn [retry_loop]. destruct (attempt <=? MaxRetries rc);
      [|rewrite attempts_after_loop]; discriminate.
  - iteration attempt ctx; tidy; rewrite ?attempts_after_loop; try discriminate;
      cbn [hd_error]; intro Hfirst; injection Hfirst as Hn Hresp Herr;
      rewrite Hresp, Herr in *; try congruence.
    unfold emit, done; tidy. reflexivity.
Qed.

(** A first outcome that is retryable, with a retry left, is followed by a
    wait of exactly the current delay. *)
Lemma retry_loop_first_wait :
  forall fuel attempt delay lr le,
    cancel_at_head (env attempt) = None ->
    shouldRetry (fst (outcome (env attempt))) (snd (outcome (env attempt))) = true ->
    attempt < MaxRetries rc ->
    hd_error (sleeps (fst (loop (S fuel) attempt delay lr le None))) = Some delay.
Proof.
  intros fuel attempt delay lr le Hhead0 Hretry0 Hlt.
  iteration attempt (@None error); tidy; try reflexivity; try lia.
  - rewrite Hhead0 in Hhead. discriminate.
  - apply success_not_retried in Hok. congruence.
Qed.

Lemma next_delay_min (delay : Duration) :
  next_delay out_of_range rc delay
  = Z.min (scale out_of_range delay (Multiplier rc)) (MaxDelay rc).
Proof.
  unfold next_delay.
  destruct (scale out_of_range delay (Multiplier rc) >? MaxDelay rc) eqn:H; lia.
Qed.

Lemma next_delay_le (delay : Duration) : next_delay out_of_range rc delay <= MaxDelay rc.
Proof. rewrite next_delay_min. lia. Qed.

Lemma schedule_bounded :
  forall k d, d <= MaxDelay rc ->
    Forall (fun x => x <= MaxDelay rc) (schedule (next_delay out_of_range rc) k d).
Proof.
  induction k as [|k IH]; intros d Hd; simpl; constructor; [assumption|].
  apply IH, next_delay_le.
Qed.

Lemma schedule_backoff :
  forall k j,
    schedule (next_delay out_of_range rc) k (backoff out_of_range rc j)
    = map (backoff out_of_range rc) (seq j k).
Proof.
  induction k as [|k IH]; intro j; simpl; [reflexivity|].
  f_equal. apply (IH (S j)).
Qed.

(** With the signal set at the loop head the iteration returns the
    cancellation error and does nothing else. *)
Lemma retry_loop_cancelled :
  forall fuel attempt delay lr le e,
    attempt <= MaxRetries rc ->
    loop (S fuel) attempt delay lr le (Some e)
    = (fired (cancel_at_head (env attempt)),
       {| ret_resp := None; ret_err := Some e; ret_via := CancelledAtHead |}).
Proof.
  intros fuel attempt delay lr le e Hle. cbn [retry_loop].
  destruct (attempt <=? MaxRetries rc) eqn:Hcond; [|lia].
  unfold emit, done. simpl. rewrite app_nil_r. reflexivity.
Qed.

Lemma retry_loop_cancelled_quiet :
  forall fuel attempt delay lr le e,
    attempts (fst (loop fuel attempt delay lr le (Some e))) = [].
Proof.
  intros [|fuel] attempt delay lr le e; cbn [retry_loop];
    destruct (attempt <=? MaxRetries rc); tidy;
    rewrite ?attempts_after_loop; reflexivity.
Qed.

Lemma quiet_after_loop (lr : option Response) (le : option error) :
  quiet_after_cancel (fst (after_loop c lr le)).
Proof.
  destruct le as [e|]; simpl; [|exact I].
  unfold log_error. destruct (logger c); exact I.
Qed.

(** One iteration with the round of the environment taken apart as well. *)
Ltac round a ctx :=
  cbn [retry_loop];
  destruct (a <=? MaxRetries rc) eqn:Hcond;
  [ destruct (env a) as [[e_h|] [resp err] [e_f|] [e_w|] [|]];
    destruct ctx as [e_c|];
    cbn [cancel_at_head outcome cancel_in_flight cancel_in_wait timer_first
         fst snd fire fired select_wait];
    repeat match goal with
      | |- context [if is_success ?r ?e then _ else _] =>
          destruct (is_success r e) eqn:Hok
      | |- context [if negb (shouldRetry ?r ?e) then _ else _] =>
          destruct (shouldRetry r e) eqn:Hretry; cbn [negb]
      | |- context [if a >=? ?m then _ else _] =>
          destruct (a >=? m) eqn:Hlast
      end
  | ].

Lemma retry_loop_quiet :
  forall fuel attempt delay lr le ctx,
    quiet_after_cancel (fst (loop fuel attempt delay lr le ctx)).
Proof.
  induction fuel as [|fuel IH]; intros attempt delay lr le ctx.
  - cbn [retry_loop]. destruct (attempt <=? MaxRetries rc);
      [exact I | apply quiet_after_loop].
  - round attempt ctx; tidy; rewrite <- ?app_assoc;
      repeat first
        [ exact I
        | apply quiet_after_loop
        | apply IH
        | progress cbn [quiet_after_cancel app]
        | apply quiet_after_cancel_skip; [tidy; reflexivity | tidy; reflexivity | ]
        | progress (tidy; rewrite ?attempts_after_loop, ?retry_loop_cancelled_quiet)
        | reflexivity ].
Qed.

Lemma after_loop_no_wait (lr : option Response) (le : option error) :
  cancelled_while_waiting (fst (after_loop c lr le)) = true
  \/ (exists e post, fst (after_loop c lr le) = Cancel e :: post) -> False.
Proof.
  intros [H | [e [post H]]].
  - rewrite no_sleep_no_cancelled_wait in H by apply sleeps_after_loop. discriminate.
  - destruct le; simpl in H; [unfold log_error in H; destruct (logger c)|]; discriminate.
Qed.

Lemma retry_loop_wait_cancelled :
  forall fuel attempt delay lr le ctx,
    (Z.to_nat (MaxRetries rc + 1 - attempt) <= fuel)%nat ->
    cancelled_while_waiting (fst (loop fuel attempt delay lr le ctx)) = true
    \/ (exists e post, fst (loop fuel attempt delay lr le ctx) = Cancel e :: post) ->
    ret_resp (snd (loop fuel attempt delay lr le ctx)) = None
    /\ ret_err (snd (loop fuel attempt delay lr le ctx))
       = fire (first_cancel (fst (loop fuel attempt delay lr le ctx))) ctx
    /\ ret_err (snd (loop fuel attempt delay lr le ctx)) <> None.
Proof.
  induction fuel as [|fuel IH]; intros attempt delay lr le ctx Hfuel.
  - cbn [retry_loop]. destruct (attempt <=? MaxRetries rc) eqn:Hcond; [lia|].
    intro H. destruct (after_loop_no_wait _ _ H).
  - round attempt ctx; tidy; rewrite <- ?app_assoc;
      try solve [intro H; destruct (after_loop_no_wait _ _ H)];
      try solve [intros _; repeat split; discriminate];
      try solve [intros [H | [e [post H]]];
                 [ rewrite no_sleep_no_cancelled_wait in H
                     by (tidy; rewrite ?sleeps_after_loop; reflexivity);
                   discriminate H
                 | discriminate H ]];
      try solve [intros _; tidy; cbn [fire]; repeat split; (reflexivity || discriminate)].
    all: try solve [intros _; destruct fuel as [|fuel']; [lia|];
                    rewrite retry_loop_cancelled by lia;
                    tidy; cbn [fire]; repeat split; (reflexivity || discriminate)].
    all: intros [H | [e [post H]]]; [|discriminate H];
      cbn [cancelled_while_waiting] in H;
      rewrite !cancelled_while_waiting_app in H by (tidy; reflexivity);
      apply cancelled_while_waiting_sleep in H;
      use_IH IH; cbn [fire];
      apply IH; [lia | tauto].
Qed.

(** Every retryable outcome has its body closed right after the attempt. *)
Lemma retry_loop_closes :
  forall fuel attempt delay lr le ctx,
    retryable_closed (fst (loop fuel attempt delay lr le ctx)).
Proof.
  induction fuel as [|fuel IH]; intros attempt delay lr le ctx.
  - cbn [retry_loop]. destruct (attempt <=? MaxRetries rc);
      [exact I | apply no_attempt_closed, attempts_after_loop].
  - round attempt ctx; tidy; rewrite <- ?app_assoc;
      try exact I;
      try (apply no_attempt_closed, attempts_after_loop);
      try (apply success_not_retried in Hok);
      destruct resp as [r|]; cbn [retryable_closed];
      try split;
      try (intros Hr b Hb; try congruence;
           unfold close_body; rewrite Hb; cbn [app In]; solve [auto]);
      repeat first
        [ exact I
        | apply IH
        | progress cbn [retryable_closed app]
        | apply no_attempt_closed; tidy; rewrite ?attempts_after_loop; reflexivity
        | apply retryable_closed_app; [tidy; reflexivity|] ].
Qed.

(** A first outcome that is not to be retried ends the call: it is handed
    back as it is and nothing else is done. *)
Lemma retry_loop_first_final :
  forall fuel attempt delay lr le ctx n resp err,
    hd_error (attempts (fst (loop fuel attempt delay lr le ctx))) = Some (n, resp, err) ->
    shouldRetry resp err = false ->
    fst (loop fuel attempt delay lr le ctx)
    = fired (cancel_at_head (env attempt))
        ++ Attempt attempt resp err :: fired (cancel_in_flight (env attempt))
    /\ ret_resp (snd (loop fuel attempt delay lr le ctx)) = resp
    /\ ret_err (snd (loop fuel attempt delay lr le ctx)) = err.
Proof.
  intros fuel attempt delay lr le ctx n resp err Hfirst Hfinal.
  destruct fuel as [|fuel]; revert Hfirst.
  - cbn [retry_loop]. destruct (attempt <=? MaxRetries rc);
      [|rewrite attempts_after_loop]; discriminate.
  - iteration attempt ctx; tidy; rewrite ?attempts_after_loop; try discriminate;
      cbn [hd_error]; intro Hfirst; injection Hfirst as Hn Hresp Herr;
      rewrite Hresp, Herr in *; try congruence.
    + destruct err as [e|]; [destruct resp; discriminate Hok|]. repeat split.
    + repeat split.
Qed.

(** While nobody cancels and every outcome is retryable, the loop goes on
    to attempt number [MaxRetries], waits between any two attempts, and
    leaves through the statements after the loop with the last outcome. *)
Lemma retry_loop_all_retryable :
  forall fuel attempt delay lr le,
    (Z.to_nat (MaxRetries rc + 1 - attempt) <= fuel)%nat ->
    attempt <= MaxRetries rc ->
    (forall i, attempt <= i <= MaxRetries rc ->
               undisturbed (env i)
               /\ shouldRetry (fst (outcome (env i))) (snd (outcome (env i))) = true) ->
    snd (loop fuel attempt delay lr le None)
    = {| ret_resp := fst (outcome (env (MaxRetries rc)));
         ret_err := snd (outcome (env (MaxRetries rc)));
         ret_via := Exhausted |}
    /\ Z.of_nat (List.length (attempts (fst (loop fuel attempt delay lr le None))))
       = MaxRetries rc + 1 - attempt
    /\ Z.of_nat (List.length (sleeps (fst (loop fuel attempt delay lr le None))))
       = MaxRetries rc - attempt.
Proof.
  induction fuel as [|fuel IH]; intros attempt delay lr le Hfuel Hle Hall; [lia|].
  destruct (Hall attempt ltac:(lia)) as [[Hh [Hf Hw]] Hretry0].
  iteration attempt (@None error); try lia.
  - rewrite Hh in Hhead. discriminate Hhead.
  - apply success_not_retried in Hok. congruence.
  - (* the last attempt *)
    tidy. rewrite after_loop_result, attempts_after_loop, sleeps_after_loop.
    assert (attempt = MaxRetries rc) as -> by lia.
    cbn [List.length]. repeat split; lia.
  - rewrite Hw, Hf in Hsel. discriminate Hsel.
  - (* another attempt follows *)
    rewrite Hf, Hw. cbn [fire]. tidy.
    destruct (IH (attempt + 1) (next_delay out_of_range rc delay)
                 (fst (outcome (env attempt))) (snd (outcome (env attempt))))
      as [Hret [Ha Hs]]; try lia.
    { intros i Hi. apply Hall. lia. }
    rewrite Hret. cbn [List.length]. repeat split; lia.
Qed.

(** When every attempt yields either a response or an error, so does the
    loop. *)
Lemma retry_loop_one_of :
  forall fuel attempt delay lr le ctx,
    (forall i, one_of (fst (outcome (env i))) (snd (outcome (env i)))) ->
    (Z.to_nat (MaxRetries rc + 1 - attempt) <= fuel)%nat ->
    attempt <= MaxRetries rc \/ one_of lr le ->
    one_of (ret_resp (snd (loop fuel attempt delay lr le ctx)))
           (ret_err (snd (loop fuel attempt delay lr le ctx))).
Proof.
  induction fuel as [|fuel IH]; intros attempt delay lr le ctx Hall Hfuel Hstart.
  - cbn [retry_loop]. destruct (attempt <=? MaxRetries rc) eqn:Hcond; [lia|].
    rewrite after_loop_result. destruct Hstart as [H | H]; [lia | exact H].
  - pose proof (Hall attempt) as Hone.
    iteration attempt ctx; tidy; rewrite ?after_loop_result; cbn [ret_resp ret_err];
      try exact I; try exact Hone.
    + destruct (fst (outcome (env attempt))); [exact I | destruct (snd (outcome (env attempt))); discriminate Hok].
    + apply IH; [assumption | lia | left; lia].
    + destruct Hstart as [H | H]; [lia | exact H].
Qed.

(** The logger is only told: with another client the loop returns the same
    result and does the same things, logging apart. *)
Lemma retry_loop_logger_silent (c' : Client) :
  forall fuel attempt delay lr le ctx,
    snd (retry_loop out_of_range c' env rc fuel attempt delay lr le ctx)
    = snd (loop fuel attempt delay lr le ctx)
    /\ without_logs (fst (retry_loop out_of_range c' env rc fuel attempt delay lr le ctx))
       = without_logs (fst (loop fuel attempt delay lr le ctx)).
Proof.
  induction fuel as [|fuel IH]; intros attempt delay lr le ctx.
  - cbn [retry_loop]. destruct (attempt <=? MaxRetries rc); [split; reflexivity|].
    rewrite !after_loop_snd, !without_logs_after_loop. split; reflexivity.
  - destruct (IH (attempt + 1) (next_delay out_of_range rc delay)
                 (fst (outcome (env attempt))) (snd (outcome (env attempt)))
                 (fire (cancel_in_wait (env attempt))
                       (fire (cancel_in_flight (env attempt)) None))) as [Hret Htr].
    iteration attempt ctx; tidy; rewrite ?after_loop_snd;
      (split; [reflexivity || exact Hret | logs; rewrite ?Htr; reflexivity]).
Qed.

(** A client without a logger logs nothing. *)
Lemma retry_loop_no_logger :
  logger c = false ->
  forall fuel attempt delay lr le ctx,
    without_logs (fst (loop fuel attempt delay lr le ctx))
    = fst (loop fuel attempt delay lr le ctx).
Proof.
  intro Hoff.
  assert (Hafter : forall lr le, fst (after_loop c lr le) = [])
    by (intros lr [e|]; simpl; [unfold log_error; rewrite Hoff|]; reflexivity).
  induction fuel as [|fuel IH]; intros attempt delay lr le ctx.
  - cbn [retry_loop]. destruct (attempt <=? MaxRetries rc);
      [reflexivity | rewrite Hafter; reflexivity].
  - iteration attempt ctx; tidy; rewrite ?Hafter; unfold log_info; rewrite ?Hoff;
      logs; rewrite ?without_logs_fired, ?without_logs_close_body, ?IH;
      cbn [app without_logs filter]; rewrite ?app_nil_r; reflexivity.
Qed.

(** A response that the loop returns is the response of the last attempt it
    made, and the error it returns with it is that attempt's error. *)
Lemma retry_loop_returns_last_attempt :
  forall fuel attempt delay lr le ctx resp,
    ret_resp (snd (loop fuel attempt delay lr le ctx)) = Some resp ->
    (exists n,
        last_opt (attempts (fst (loop fuel attempt delay lr le ctx)))
        = Some (n, Some resp, ret_err (snd (loop fuel attempt delay lr le ctx)))
        /\ fst (outcome (env n)) = Some resp
        /\ snd (outcome (env n)) = ret_err (snd (loop fuel attempt delay lr le ctx)))
    \/ (attempts (fst (loop fuel attempt delay lr le ctx)) = []
        /\ lr = Some resp
        /\ le = ret_err (snd (loop fuel attempt delay lr le ctx))).
Proof.
  induction fuel as [|fuel IH]; intros attempt delay lr le ctx resp.
  - cbn [retry_loop]. destruct (attempt <=? MaxRetries rc); [discriminate|].
    rewrite after_loop_result, attempts_after_loop. cbn [ret_resp ret_err].
    intro H. right. repeat split; assumption.
  - specialize (IH (attempt + 1) (next_delay out_of_range rc delay)
                   (fst (outcome (env attempt))) (snd (outcome (env attempt)))
                   (fire (cancel_in_wait (env attempt))
                         (fire (cancel_in_flight (env attempt)) None)) resp).
    iteration attempt ctx; tidy; rewrite ?after_loop_result, ?attempts_after_loop;
      cbn [ret_resp ret_err last_opt]; try discriminate.
    + (* success *)
      intro H. rewrite H in Hok.
      destruct (snd (outcome (env attempt))) eqn:E; [discriminate Hok|].
      left. exists attempt. rewrite H, E. repeat split; assumption.
    + (* the last attempt *)
      intro H. left. exists attempt. rewrite H. repeat split.
    + (* another attempt follows *)
      intro H. left. destruct (IH H) as [[n [Hn Hout]] | [Hnone [Hlr Hle]]].
      * exists n. rewrite Hn. split; [reflexivity | exact Hout].
      * exists attempt. rewrite Hnone. cbn [last_opt].
        split; [|split; assumption].
        exact (f_equal Some (f_equal2 pair (f_equal (pair attempt) Hlr) Hle)).
    + (* not to be retried *)
      intro H. left. exists attempt. rewrite H. repeat split.
    + intro H. right. repeat split; assumption.
Qed.

Lemma closed_bodies_after_loop (lr : option Response) (le : option error) :
  closed_bodies (fst (after_loop c lr le)) = [].
Proof. destruct le; simpl; tidy; reflexivity. Qed.

(** When the loop leaves through the statements after it, what it returns
    came from an attempt that was to be retried, and the body of the
    response it returns has been closed. *)
Lemma retry_loop_exhausted_closed :
  forall fuel attempt delay lr le ctx,
    ret_via (snd (loop fuel attempt delay lr le ctx)) = Exhausted ->
    (ret_resp (snd (loop fuel attempt delay lr le ctx)) = lr
     /\ ret_err (snd (loop fuel attempt delay lr le ctx)) = le
     /\ fst (loop fuel attempt delay lr le ctx) = fst (after_loop c lr le))
    \/ (shouldRetry (ret_resp (snd (loop fuel attempt delay lr le ctx)))
                    (ret_err (snd (loop fuel attempt delay lr le ctx))) = true
        /\ forall resp b,
            ret_resp (snd (loop fuel attempt delay lr le ctx)) = Some resp ->
            Body resp = Some b ->
            In b (closed_bodies (fst (loop fuel attempt delay lr le ctx)))).
Proof.
  induction fuel as [|fuel IH]; intros attempt delay lr le ctx.
  - cbn [retry_loop]. destruct (attempt <=? MaxRetries rc); [discriminate|].
    rewrite after_loop_result. intros _. left. repeat split.
  - specialize (IH (attempt + 1) (next_delay out_of_range rc delay)
                   (fst (outcome (env attempt))) (snd (outcome (env attempt)))
                   (fire (cancel_in_wait (env attempt))
                         (fire (cancel_in_flight (env attempt)) None))).
    iteration attempt ctx; tidy; rewrite ?after_loop_result; cbn [ret_via ret_resp ret_err];
      try discriminate.
    + (* the last attempt *)
      intros _. right. split; [exact Hretry|].
      intros resp b Hresp Hb. rewrite Hresp. unfold close_body. rewrite Hb.
      rewrite closed_bodies_after_loop. cbn. left. reflexivity.
    + (* another attempt follows *)
      intro H. right. destruct (IH H) as [[Hr [He Htr]] | [Hretry' Hclosed]].
      * rewrite Hr, He. split; [exact Hretry|].
        intros resp b Hresp Hb. rewrite Hresp. unfold close_body. rewrite Hb.
        cbn. left. reflexivity.
      * split; [exact Hretry'|].
        intros resp b Hresp Hb. apply in_or_app. right. apply (Hclosed resp b Hresp Hb).
    + intros _. left. repeat split.
Qed.

End RetryFacts.

(** C5. [shouldRetry] answers true exactly when the error is non-nil, or the
    response is absent, or the status is at least 500, or the status is 429;
    it answers false for every 2xx status and every 4xx status other than
    429; with neither a response nor an error it answers true. *)
Theorem shouldRetry_spec :
  (forall resp err,
      shouldRetry resp err = true <->
      (err <> None \/ resp = None \/
       exists r, resp = Some r /\ (StatusCode r >= 500 \/ StatusCode r = 429)))
  /\ (forall r, 200 <= StatusCode r < 300 -> shouldRetry (Some r) None = false)
  /\ (forall r, 400 <= StatusCode r < 500 -> StatusCode r <> 429 ->
                shouldRetry (Some r) None = false)
  /\ shouldRetry None None = true.
Proof.
  repeat split.
  - destruct err as [e|]; [left; discriminate|].
    destruct resp as [r|]; [|right; left; reflexivity].
    unfold shouldRetry. intro H. right. right. exists r. split; [reflexivity|].
    destruct (StatusCode r >=? 500) eqn:H500; [left; lia|].
    destruct (StatusCode r =? 429) eqn:H429; [right; lia|].
    destruct ((StatusCode r >=? 400) && (StatusCode r <? 500)); discriminate.
  - intros [H | [H | [r [-> H]]]].
    + destruct err; [reflexivity | contradiction].
    + subst resp. destruct err; reflexivity.
    + destruct err; [reflexivity|]. unfold shouldRetry.
      destruct (StatusCode r >=? 500) eqn:H500; [reflexivity|].
      destruct (StatusCode r =? 429) eqn:H429; [reflexivity|]. lia.
  - intros r H. unfold shouldRetry.
    destruct (StatusCode r >=? 500) eqn:H500; [lia|].
    destruct (StatusCode r =? 429) eqn:H429; [lia|].
    destruct ((StatusCode r >=? 400) && (StatusCode r <? 500)); reflexivity.
  - intros r H Hne. unfold shouldRetry.
    destruct (StatusCode r >=? 500) eqn:H500; [lia|].
    destruct (StatusCode r =? 429) eqn:H429; [lia|].
    destruct ((StatusCode r >=? 400) && (StatusCode r <? 500)); reflexivity.
Qed.

Lemma shouldRetry_spec_witness :
  shouldRetry (Some {| StatusCode := 204; Body := None |}) None = false
  /\ shouldRetry (Some {| StatusCode := 404; Body := None |}) None = false.
Proof.
  destruct shouldRetry_spec as [_ [H2xx [H4xx _]]].
  split.
  - apply H2xx. simpl. lia.
  - apply H4xx; simpl; lia.
Defined.

(** [executeWithRetry] always returns: the loop never runs out of its bound. *)
Theorem executeWithRetry_returns :
  forall out_of_range c env ctx retryConfig,
    ret_via (snd (executeWithRetry out_of_range c env ctx retryConfig)) <> Diverged.
Proof.
  intros out_of_range c env ctx [rc|]; simpl; [|discriminate].
  apply retry_loop_returns. rewrite Z.sub_0_r. apply Nat.le_refl.
Qed.

(** C3. When [executeWithRetry] leaves through the statements after the loop,
    it returns the response and the error of the last attempt unchanged: a
    non-nil error is returned as it is, and otherwise the last response comes
    back with a nil error although its status is a retryable one.  That last
    attempt is attempt number [MaxRetries]. *)
Theorem exhaustion_returns_last_outcome :
  forall out_of_range c env ctx rc n resp err,
    let run := executeWithRetry out_of_range c env ctx (Some rc) in
    ret_via (snd run) = Exhausted ->
    last_opt (attempts (fst run)) = Some (n, resp, err) ->
    ret_resp (snd run) = resp
    /\ ret_err (snd run) = err
    /\ shouldRetry resp err = true
    /\ n = MaxRetries rc.
Proof.
  intros out_of_range c env ctx rc n resp err run Hvia Hlast.
  subst run. cbn [executeWithRetry] in *.
  pose proof (retry_loop_exhausted out_of_range c env rc _ _ _ _ _ _ Hvia) as H.
  rewrite Hlast in H. exact H.
Qed.

Lemma exhaustion_returns_last_outcome_witness :
  let run := executeWithRetry amd64 plain_client (env_status 503) None
               (Some DefaultRetryConfig) in
  ret_resp (snd run) = Some {| StatusCode := 503; Body := Some 3%nat |}
  /\ ret_err (snd run) = None
  /\ shouldRetry (Some {| StatusCode := 503; Body := Some 3%nat |}) None = true
  /\ 3 = MaxRetries DefaultRetryConfig.
Proof.
  apply (exhaustion_returns_last_outcome amd64 plain_client (env_status 503) None
           DefaultRetryConfig 3 (Some {| StatusCode := 503; Body := Some 3%nat |}) None);
    reflexivity.
Defined.

(** As long as the code's product is the exact one, the delays of the code
    are those of the specification. *)
Lemma backoff_exact (out_of_range : float64 -> Z) (rc : RetryConfig) :
  forall i,
    (forall j, (j < i)%nat ->
               exact_product (backoff out_of_range rc j) (Multiplier rc)
               = Some (scale out_of_range (backoff out_of_range rc j) (Multiplier rc))) ->
    spec_backoff rc i = Some (backoff out_of_range rc i).
Proof.
  induction i as [|i IH]; intro Hexact; [reflexivity|].
  cbn [spec_backoff backoff]. rewrite IH by (intros j Hj; apply Hexact; lia).
  rewrite (Hexact i) by lia. rewrite next_delay_min. reflexivity.
Qed.

(** C4, as the code has it.  The waits of one call are the first delays of
    the schedule [delay[0] = InitialDelay],
    [delay[i] = min(D(delay[i-1]), MaxDelay)], where [D(d)] is the code's
    [time.Duration(float64(d) * Multiplier)]: [d] is rounded to a [float64],
    the product is rounded to a [float64], its fraction is dropped, and a
    product outside [int64] gives what the platform gives.  Where [D] is the
    exact product at every step so far, the delays are those of the
    specification, [min(delay[i-1] * m, M)].  With
    [InitialDelay <= MaxDelay] no wait exceeds [MaxDelay]; there are at most
    [MaxRetries] waits and at most [MaxRetries + 1] attempts.  (The bound
    [Multiplier >= 1] of the policy is not needed.) *)
Theorem backoff_schedule :
  forall out_of_range c env ctx rc,
    0 <= MaxRetries rc ->
    InitialDelay rc <= MaxDelay rc ->
    let tr := fst (executeWithRetry out_of_range c env ctx (Some rc)) in
    let delay := backoff out_of_range rc in
    (exists k : nat,
        sleeps tr = map delay (seq 0 k)
        /\ Z.of_nat k <= MaxRetries rc)
    /\ delay 0%nat = InitialDelay rc
    /\ (forall i, delay (S i)
                  = Z.min (scale out_of_range (delay i) (Multiplier rc)) (MaxDelay rc))
    /\ (forall i,
          (forall j, (j < i)%nat ->
                     exact_product (delay j) (Multiplier rc)
                     = Some (scale out_of_range (delay j) (Multiplier rc))) ->
          spec_backoff rc i = Some (delay i))
    /\ Forall (fun d => d <= MaxDelay rc) (sleeps tr)
    /\ Z.of_nat (List.length (attempts tr)) <= MaxRetries rc + 1.
Proof.
  intros out_of_range c env ctx rc Hn Hd tr delay. subst tr delay.
  cbn [executeWithRetry].
  destruct (retry_loop_sleeps out_of_range c env rc
              (Z.to_nat (MaxRetries rc + 1)) 0 (InitialDelay rc) None None ctx)
    as [k [Hk Hle]].
  split; [|split; [|split; [|split; [|split]]]].
  - exists k. split; [|lia]. rewrite Hk. apply (schedule_backoff out_of_range rc k 0).
  - reflexivity.
  - intro i. cbn [backoff]. apply next_delay_min.
  - apply backoff_exact.
  - rewrite Hk. apply schedule_bounded. assumption.
  - pose proof (retry_loop_attempts_bound out_of_range c env rc
                  (Z.to_nat (MaxRetries rc + 1)) 0 (InitialDelay rc) None None ctx).
    lia.
Qed.

Lemma backoff_schedule_witness :
  0 <= MaxRetries DefaultRetryConfig
  /\ InitialDelay DefaultRetryConfig <= MaxDelay DefaultRetryConfig
  /\ sleeps (fst (executeWithRetry amd64 plain_client (env_status 503) None
                    (Some DefaultRetryConfig)))
     = [100 * Millisecond; 200 * Millisecond; 400 * Millisecond]
  /\ (forall j, (j < 3)%nat ->
                exact_product (backoff amd64 DefaultRetryConfig j)
                              (Multiplier DefaultRetryConfig)
                = Some (scale amd64 (backoff amd64 DefaultRetryConfig j)
                              (Multiplier DefaultRetryConfig)))
  /\ spec_backoff DefaultRetryConfig 3 = Some (backoff amd64 DefaultRetryConfig 3)
  /\ Forall (fun d => d <= MaxDelay DefaultRetryConfig)
            (sleeps (fst (executeWithRetry amd64 plain_client (env_status 503) None
                            (Some DefaultRetryConfig)))).
Proof.
  assert (H0 : 0 <= MaxRetries DefaultRetryConfig) by (simpl; lia).
  assert (H1 : InitialDelay DefaultRetryConfig <= MaxDelay DefaultRetryConfig)
    by (vm_compute; discriminate).
  assert (Hexact : forall j, (j < 3)%nat ->
                     exact_product (backoff amd64 DefaultRetryConfig j)
                                   (Multiplier DefaultRetryConfig)
                     = Some (scale amd64 (backoff amd64 DefaultRetryConfig j)
                                   (Multiplier DefaultRetryConfig))).
  { intros [|[|[|j]]] Hj; try lia; vm_compute; reflexivity. }
  destruct (backoff_schedule amd64 plain_client (env_status 503) None DefaultRetryConfig
              H0 H1) as [_ [_ [_ [Hspec [Hbound _]]]]].
  split; [exact H0|]. split; [exact H1|]. split; [reflexivity|].
  split; [exact Hexact|]. split; [exact (Hspec 3%nat Hexact) | exact Hbound].
Defined.

(** For the default policy the delays of the code are those of the
    specification at every step, on every platform: 100ms, 200ms, 400ms,
    800ms, 1.6s, 3.2s and from then on 5s. *)
Lemma default_backoff_is_exact (out_of_range : float64 -> Z) :
  forall i,
    spec_backoff DefaultRetryConfig i = Some (backoff out_of_range DefaultRetryConfig i).
Proof.
  assert (Htail : forall i,
             spec_backoff DefaultRetryConfig (6 + i) = Some (5 * Second)
             /\ backoff out_of_range DefaultRetryConfig (6 + i) = 5 * Second).
  { induction i as [|i [IHs IHb]]; [split; vm_compute; reflexivity|].
    replace (6 + S i)%nat with (S (6 + i)) by lia.
    cbn [spec_backoff backoff]. rewrite IHs, IHb. split; vm_compute; reflexivity. }
  intro i. destruct (Nat.lt_ge_cases i 6) as [Hlt | Hge].
  - do 6 (destruct i as [|i]; [vm_compute; reflexivity|]). lia.
  - replace i with (6 + (i - 6))%nat by lia.
    destruct (Htail (i - 6)%nat) as [Hs Hb]. rewrite Hs, Hb. reflexivity.
Qed.

(** With a first delay of 2^53 + 1 ns, a multiplier of 1 and a cap above
    both, the second wait is one nanosecond shorter than the first, on every
    platform: the delay is rounded when it is converted to [float64]. *)
Lemma long_config_sleeps (out_of_range : float64 -> Z) :
  sleeps (fst (executeWithRetry out_of_range plain_client (env_status 503) None
                 (Some long_config)))
  = [2 ^ 53 + 1; 2 ^ 53].
Proof. vm_compute. reflexivity. Qed.

(** The claim C4 as it is written fails.  The policy has [M >= d0] and
    [m >= 1], the waits are 2^53 + 1 ns and then 2^53 ns, and the
    specification's [min(delay * m, M)] keeps the delay at 2^53 + 1 ns. *)
Lemma backoff_product_is_rounded :
  let tr := fst (executeWithRetry amd64 plain_client (env_status 503) None
                   (Some long_config)) in
  InitialDelay long_config <= MaxDelay long_config
  /\ leb (lit 1 0) (Multiplier long_config) = true
  /\ sleeps tr = [2 ^ 53 + 1; 2 ^ 53]
  /\ map (spec_backoff long_config) [0; 1]%nat = [Some (2 ^ 53 + 1); Some (2 ^ 53 + 1)]
  /\ map Some (sleeps tr) <> map (spec_backoff long_config) [0; 1]%nat.
Proof.
  cbv zeta.
  assert (Hspec : map (spec_backoff long_config) [0; 1]%nat
                  = [Some (2 ^ 53 + 1); Some (2 ^ 53 + 1)]) by (vm_compute; reflexivity).
  split; [vm_compute; discriminate|]. split; [vm_compute; reflexivity|].
  split; [apply long_config_sleeps|]. split; [exact Hspec|].
  rewrite long_config_sleeps, Hspec. vm_compute. discriminate.
Qed.

(** It also fails when the product leaves [int64]: one second times 10^10
    under a cap of [MaxInt64] should give the cap, and gives a negative
    delay on amd64. *)
Lemma backoff_product_overflows :
  let tr := fst (executeWithRetry amd64 plain_client (env_status 503) None
                   (Some overflowing_config)) in
  InitialDelay overflowing_config <= MaxDelay overflowing_config
  /\ sleeps tr = [1 * Second; - 2 ^ 63]
  /\ spec_backoff overflowing_config 1 = Some max_int64.
Proof.
  split; [vm_compute; discriminate|]. split; vm_compute; reflexivity.
Qed.

(** C6. When the first attempt answers with a 2xx status and no error,
    [executeWithRetry] returns that response at once, whatever the policy:
    one attempt, no backoff wait, no body closed. *)
Theorem first_success_short_circuits :
  forall out_of_range c env ctx retryConfig n resp,
    let run := executeWithRetry out_of_range c env ctx retryConfig in
    hd_error (attempts (fst run)) = Some (n, Some resp, None) ->
    200 <= StatusCode resp < 300 ->
    ret_resp (snd run) = Some resp
    /\ ret_err (snd run) = None
    /\ attempts (fst run) = [(0, Some resp, None)]
    /\ sleeps (fst run) = []
    /\ closed_bodies (fst run) = [].
Proof.
  intros out_of_range c env ctx [rc|] n resp run Hfirst H2xx; subst run.
  - cbn [executeWithRetry] in *.
    rewrite (retry_loop_first_success out_of_range c env rc _ _ _ _ _ _ n resp Hfirst H2xx).
    tidy. repeat split.
  - cbn [executeWithRetry] in *. tidy. cbn [hd_error] in Hfirst.
    injection Hfirst as Hn Hresp Herr. rewrite Hresp, Herr. repeat split.
Qed.

Lemma first_success_short_circuits_witness :
  let run := executeWithRetry amd64 plain_client (env_status 200) None
               (Some DefaultRetryConfig) in
  ret_resp (snd run) = Some {| StatusCode := 200; Body := Some 0%nat |}
  /\ ret_err (snd run) = None
  /\ attempts (fst run) = [(0, Some {| StatusCode := 200; Body := Some 0%nat |}, None)]
  /\ sleeps (fst run) = []
  /\ closed_bodies (fst run) = [].
Proof.
  apply (first_success_short_circuits amd64 plain_client (env_status 200) None
           (Some DefaultRetryConfig) 0 {| StatusCode := 200; Body := Some 0%nat |}).
  - reflexivity.
  - simpl. lia.
Defined.

(** C9. The starting delay is used as it is.  With [InitialDelay] above
    [MaxDelay], a retryable first outcome and at least one retry allowed, the
    first backoff wait lasts [InitialDelay], which is more than [MaxDelay];
    every later wait, being the result of the multiplication step, is at
    most [MaxDelay]. *)
Theorem initial_delay_not_clamped :
  forall out_of_range c env rc,
    InitialDelay rc > MaxDelay rc ->
    1 <= MaxRetries rc ->
    cancel_at_head (env 0) = None ->
    shouldRetry (fst (outcome (env 0))) (snd (outcome (env 0))) = true ->
    let tr := fst (executeWithRetry out_of_range c env None (Some rc)) in
    hd_error (sleeps tr) = Some (InitialDelay rc)
    /\ ~ InitialDelay rc <= MaxDelay rc
    /\ Forall (fun d => d <= MaxDelay rc) (tl (sleeps tr)).
Proof.
  intros out_of_range c env rc Hgt Hn Hhead Hretry tr. subst tr.
  cbn [executeWithRetry].
  destruct (Z.to_nat (MaxRetries rc + 1)) as [|fuel] eqn:Hfuel; [lia|].
  split; [|split].
  - apply retry_loop_first_wait; (assumption || lia).
  - lia.
  - destruct (retry_loop_sleeps out_of_range c env rc (S fuel) 0 (InitialDelay rc)
                None None None) as [k [Hk _]].
    rewrite Hk. destruct k as [|k]; simpl; [constructor|].
    apply schedule_bounded, next_delay_le.
Qed.

Lemma initial_delay_not_clamped_witness :
  InitialDelay steep_config > MaxDelay steep_config
  /\ sleeps (fst (executeWithRetry amd64 plain_client (env_status 503) None
                    (Some steep_config)))
     = [10 * Second; 2 * Second; 2 * Second]
  /\ hd_error (sleeps (fst (executeWithRetry amd64 plain_client (env_status 503) None
                              (Some steep_config))))
     = Some (InitialDelay steep_config).
Proof.
  assert (Hgt : InitialDelay steep_config > MaxDelay steep_config) by reflexivity.
  assert (Hn : 1 <= MaxRetries steep_config) by (simpl; lia).
  split; [exact Hgt|]. split; [reflexivity|].
  apply (initial_delay_not_clamped amd64 plain_client (env_status 503) steep_config
           Hgt Hn eq_refl eq_refl).
Defined.

(** C10. Inside the loop the body of every retryable outcome is closed after
    the attempt that produced it, the last permitted attempt included; so on
    the exhaustion path the response handed back to the caller is one whose
    body has already been closed. *)
Theorem exhausted_response_body_closed :
  forall out_of_range c env ctx rc,
    let run := executeWithRetry out_of_range c env ctx (Some rc) in
    (forall pre n r e post b,
        fst run = pre ++ Attempt n (Some r) e :: post ->
        shouldRetry (Some r) e = true ->
        Body r = Some b ->
        In (BodyClose b) post)
    /\ (ret_via (snd run) = Exhausted ->
        forall r b,
          ret_resp (snd run) = Some r ->
          Body r = Some b ->
          exists pre post,
            fst run = pre ++ Attempt (MaxRetries rc) (Some r) (ret_err (snd run)) :: post
            /\ In (BodyClose b) post).
Proof.
  intros out_of_range c env ctx rc run.
  assert (Hclosed : retryable_closed (fst run)) by apply retry_loop_closes.
  split.
  - intros pre n r e post b Heq Hretry Hbody.
    apply (retryable_closed_split _ Hclosed pre n r e post b Heq Hretry Hbody).
  - intros Hvia r b Hresp Hbody.
    pose proof (retry_loop_exhausted out_of_range c env rc _ _ _ _ _ _ Hvia) as H.
    fold (executeWithRetry out_of_range c env ctx (Some rc)) in H. fold run in H.
    destruct (last_opt (attempts (fst run))) as [[[n resp] err]|] eqn:Hlast.
    + destruct H as [Hr [He [Hretry Hn]]].
      destruct (last_attempt_split _ _ _ _ Hlast) as [pre [post [Heq _]]].
      rewrite Hresp in Hr. subst resp n. rewrite He.
      exists pre, post. split; [exact Heq|].
      apply (retryable_closed_split _ Hclosed pre _ r err post b Heq Hretry Hbody).
    + destruct H as [Hr _]. rewrite Hresp in Hr. discriminate Hr.
Qed.

Lemma exhausted_response_body_closed_witness :
  let run := executeWithRetry amd64 plain_client (env_status 503) None
               (Some DefaultRetryConfig) in
  ret_via (snd run) = Exhausted
  /\ ret_resp (snd run) = Some {| StatusCode := 503; Body := Some 3%nat |}
  /\ exists pre post,
      fst run = pre ++ Attempt 3 (Some {| StatusCode := 503; Body := Some 3%nat |})
                               (ret_err (snd run)) :: post
      /\ In (BodyClose 3) post.
Proof.
  split; [reflexivity|]. split; [reflexivity|].
  apply (proj2 (exhausted_response_body_closed amd64 plain_client (env_status 503) None
                  DefaultRetryConfig) eq_refl
               {| StatusCode := 503; Body := Some 3%nat |} 3%nat eq_refl eq_refl).
Defined.

(** C7. Once the context is cancelled, [executeWithRetry] issues no further
    attempt.  (a) A loop iteration that starts with the signal set returns
    the cancellation error and makes no attempt; so does a call with a retry
    policy that starts with it set.  (b) In every trace, with or without a
    retry policy, no attempt follows a cancellation.  (c) When the signal
    fires during a backoff wait, the call returns the cancellation error
    [ctx.Err()] with a nil response, and no attempt follows. *)
Theorem cancellation_stops_attempts :
  forall out_of_range c env rc,
    (forall fuel attempt delay lr le e,
        attempt <= MaxRetries rc ->
        let run := retry_loop out_of_range c env rc (S fuel) attempt delay lr le (Some e) in
        attempts (fst run) = []
        /\ snd run = {| ret_resp := None; ret_err := Some e; ret_via := CancelledAtHead |})
    /\ (forall e,
        0 <= MaxRetries rc ->
        let run := executeWithRetry out_of_range c env (Some e) (Some rc) in
        attempts (fst run) = []
        /\ snd run = {| ret_resp := None; ret_err := Some e; ret_via := CancelledAtHead |})
    /\ (forall ctx retryConfig pre e post,
        fst (executeWithRetry out_of_range c env ctx retryConfig) = pre ++ Cancel e :: post ->
        attempts post = [])
    /\ (forall ctx pre d e post,
        let run := executeWithRetry out_of_range c env ctx (Some rc) in
        fst run = pre ++ Sleep d :: Cancel e :: post ->
        attempts post = []
        /\ ret_resp (snd run) = None
        /\ ret_err (snd run) = ctx_err ctx (fst run)
        /\ ret_err (snd run) <> None).
Proof.
  intros out_of_range c env rc.
  assert (Ha : forall fuel attempt delay lr le e,
             attempt <= MaxRetries rc ->
             let run := retry_loop out_of_range c env rc (S fuel) attempt delay lr le (Some e) in
             attempts (fst run) = []
             /\ snd run = {| ret_resp := None; ret_err := Some e;
                             ret_via := CancelledAtHead |}).
  { intros fuel attempt delay lr le e Hle run. subst run.
    rewrite retry_loop_cancelled by assumption. tidy. split; reflexivity. }
  assert (Hb : forall ctx retryConfig pre e post,
             fst (executeWithRetry out_of_range c env ctx retryConfig)
             = pre ++ Cancel e :: post ->
             attempts post = []).
  { intros ctx [rc'|] pre e post Heq.
    - apply (quiet_after_cancel_split _ (retry_loop_quiet out_of_range c env rc' _ _ _ _ _ _)
               pre e post Heq).
    - destruct pre as [|ev [|ev' pre]]; discriminate Heq. }
  split; [exact Ha|]. split; [|split; [exact Hb|]].
  - intros e Hn run. subst run. cbn [executeWithRetry].
    destruct (Z.to_nat (MaxRetries rc + 1)) as [|fuel] eqn:Hfuel; [lia|].
    apply Ha. assumption.
  - intros ctx pre d e post run Heq. split.
    + apply (Hb ctx (Some rc) (pre ++ [Sleep d]) e post). rewrite <- app_assoc. exact Heq.
    + assert (Hw : cancelled_while_waiting (fst run) = true)
        by (rewrite Heq; apply cancelled_while_waiting_split).
      subst run. cbn [executeWithRetry] in *.
      apply retry_loop_wait_cancelled; [|left; exact Hw].
      rewrite Z.sub_0_r. apply Nat.le_refl.
Qed.

Lemma cancellation_stops_attempts_witness :
  let run := executeWithRetry amd64 plain_client env_cancel_in_first_wait None
               (Some DefaultRetryConfig) in
  fst run = [Attempt 0 (fst (answer 503 0)) None; BodyClose 0]
            ++ Sleep (100 * Millisecond) :: Cancel Canceled :: []
  /\ attempts (fst run) = [(0, fst (answer 503 0), None)]
  /\ ret_resp (snd run) = None
  /\ ret_err (snd run) = Some Canceled.
Proof.
  assert (Heq : fst (executeWithRetry amd64 plain_client env_cancel_in_first_wait None
                       (Some DefaultRetryConfig))
                = [Attempt 0 (fst (answer 503 0)) None; BodyClose 0]
                  ++ Sleep (100 * Millisecond) :: Cancel Canceled :: [])
    by reflexivity.
  destruct (cancellation_stops_attempts amd64 plain_client env_cancel_in_first_wait
              DefaultRetryConfig) as [_ [_ [_ Hwait]]].
  destruct (Hwait None _ _ _ _ Heq) as [_ [Hresp [Herr _]]].
  split; [exact Heq|]. split; [reflexivity|]. split; [exact Hresp|].
  rewrite Herr. reflexivity.
Defined.

(* ================================================================== *)
(** * Properties of the streaming code *)
(* ================================================================== *)

(** ** Histories *)

Lemma published_app (h1 h2 : list ws_event) :
  published (h1 ++ h2) = published h1 ++ published h2.
Proof.
  induction h1 as [|ev h1 IH]; simpl; [reflexivity|].
  destruct ev; simpl; rewrite ?IH; reflexivity.
Qed.

Lemma connections_app (h1 h2 : list ws_event) :
  connections (h1 ++ h2) = (connections h1 + connections h2)%nat.
Proof.
  induction h1 as [|ev h1 IH]; simpl; [reflexivity|].
  destruct ev as [| [|] | | | | | | |]; simpl; rewrite ?IH; reflexivity.
Qed.

(** ** A session that is shut down by the caller *)

Lemma session_up_wrote (conn : nat) (msg : payload) (w : World) :
  session_up conn w -> session_up conn (record (Wrote conn msg) w).
Proof.
  intros [Hp [Hc [Hr [Ho Hm]]]]. repeat split; try assumption.
  simpl. rewrite published_app. simpl. rewrite app_nil_r. assumption.
Qed.

Lemma session_up_read (conn : nat) (msg : payload) (w : World) :
  session_up conn w -> session_up conn (bg_step (BgRead conn (inl msg)) w).
Proof.
  intros [Hp [Hc [Hr [Ho Hm]]]].
  unfold bg_step, reader_step. rewrite Hp, Hr, Ho. simpl.
  unfold chan_send. rewrite Hp, Hc.
  repeat split; try assumption.
  simpl. rewrite published_app. apply Forall_app. split; [assumption|].
  simpl. constructor; [split; reflexivity | constructor].
Qed.

Lemma writer_loop_graceful (conn : nat) :
  forall script w,
    graceful conn script ->
    session_up conn w ->
    fst (writer_loop conn script w) = Returned None
    /\ session_up conn (snd (writer_loop conn script w))
    /\ readers (snd (writer_loop conn script w)) = readers w.
Proof.
  induction script as [b rest IH | msg rest IH | msg err | | |]; intros w Hg Hup;
    simpl in Hg; try contradiction;
    pose proof Hup as [Hp [Hc [Hr [Ho _]]]]; cbn [writer_loop]; rewrite Hp.
  - destruct b as [cause | c [msg | err]]; try contradiction.
    destruct Hg as [-> Hg].
    destruct (IH _ Hg (session_up_read conn msg w Hup)) as [Hret [Hup' Hreaders]].
    split; [exact Hret|]. split; [exact Hup'|]. rewrite Hreaders.
    unfold bg_step, reader_step. rewrite Hp, Hr, Ho. simpl.
    unfold chan_send. rewrite Hp, Hc. reflexivity.
  - destruct (IH _ Hg (session_up_wrote conn msg w Hup)) as [Hret [Hup' Hreaders]].
    split; [exact Hret|]. split; [exact Hup'|]. rewrite Hreaders. reflexivity.
  - split; [reflexivity|]. split; [assumption | reflexivity].
Qed.

(** The reader of a closed connection fails its read, publishes the error
    with [Closed] set, closes [receiveChan] and returns. *)
Lemma reader_after_close (conn : nat) (wire : payload + error) (w : World) :
  panicked w = None ->
  recv_closed w = false ->
  reader_running conn w = true ->
  conn_open conn w = false ->
  history (reader_step conn wire w)
  = history w ++ [Published conn closed_event; ChanClose conn]
  /\ recv_closed (reader_step conn wire w) = true
  /\ panicked (reader_step conn wire w) = None.
Proof.
  intros Hp Hc Hr Ho. unfold reader_step. rewrite Hp, Hr, Ho. simpl.
  unfold chan_send. rewrite Hp, Hc. unfold chan_close. simpl. rewrite Hp, Hc. simpl.
  rewrite <- app_assoc. repeat split.
Qed.

Lemma session_up_fresh : session_up 0 (open_conn fresh).
Proof. repeat split. simpl. constructor. Qed.

Lemma conn_open_close_conn (conn : nat) (w : World) :
  conn_open conn (close_conn conn w) = false.
Proof. unfold conn_open. simpl. rewrite Nat.eqb_refl. reflexivity. Qed.

Lemma reader_running_filtered (conn : nat) (l : list nat) :
  existsb (Nat.eqb conn) (filter (fun c => negb (Nat.eqb conn c)) l) = false.
Proof.
  induction l as [|c l IH]; simpl; [reflexivity|].
  destruct (Nat.eqb conn c) eqn:Heq; simpl; [exact IH|].
  rewrite Heq. exact IH.
Qed.

Lemma reader_not_running (conn c : nat) (w : World) :
  (forall c', In c' (readers w) -> c' = conn) -> c <> conn -> reader_running c w = false.
Proof.
  intros Honly Hne. unfold reader_running.
  destruct (existsb (Nat.eqb c) (readers w)) eqn:E; [|reflexivity].
  apply existsb_exists in E. destruct E as [c' [Hin Heq]].
  apply Nat.eqb_eq in Heq. subst c'. exfalso. apply Hne. apply Honly. exact Hin.
Qed.

(** While [conn.Close] runs and afterwards, the only thing the other
    goroutines do to [receiveChan] is the last step of the reader. *)
Lemma closing_down_reader_step (conn c : nat) (before : list ws_event)
      (wire : payload + error) (w : World) :
  closing_down conn before w ->
  closing_down conn before (reader_step c wire w)
  /\ (c = conn ->
      recv_closed (reader_step c wire w) = true
      /\ published (history (reader_step c wire w))
         = published before ++ [closed_event]).
Proof.
  intros [Hp [Ho [Honly [during [Hh Hstate]]]]].
  destruct (Nat.eq_dec c conn) as [-> | Hne].
  - destruct Hstate as [[Hr [Hc Hpub]] | [Hr [Hc Hpub]]].
    + destruct (reader_after_close conn wire w Hp Hc Hr Ho) as [Hh' [Hc' Hp']].
      assert (Hgone : reader_running conn (reader_step conn wire w) = false).
      { unfold reader_step. rewrite Hp, Hr, Ho. simpl.
        unfold reader_running, reader_exit. cbn [readers].
        unfold chan_close, chan_send. rewrite Hp, Hc. simpl. rewrite Hp, Hc.
        cbn [readers]. apply reader_running_filtered. }
      assert (Hpub' : published (history (reader_step conn wire w))
                      = published before ++ [closed_event]).
      { rewrite Hh', Hh, !published_app. cbn [published]. rewrite Hpub, app_nil_r.
        reflexivity. }
      split; [|intros _; split; assumption].
      split; [exact Hp'|]. split.
      { unfold reader_step. rewrite Hp, Hr, Ho. simpl.
        unfold chan_close, chan_send. rewrite Hp, Hc. simpl. rewrite Hp, Hc. exact Ho. }
      split.
      { intros c' Hin. apply Honly. revert Hin. unfold reader_step.
        rewrite Hp, Hr, Ho. simpl. unfold chan_close, chan_send. rewrite Hp, Hc. simpl.
        rewrite Hp, Hc. cbn [readers]. intro Hin. apply filter_In in Hin. tauto. }
      exists (during ++ [Published conn closed_event; ChanClose conn]).
      split; [rewrite Hh', Hh, <- app_assoc; reflexivity|].
      right. split; [exact Hgone|]. split; [exact Hc'|].
      rewrite published_app, Hpub. reflexivity.
    + assert (Hsame : reader_step conn wire w = w)
        by (unfold reader_step; rewrite Hp, Hr; reflexivity).
      rewrite Hsame. split.
      * split; [exact Hp|]. split; [exact Ho|]. split; [exact Honly|].
        exists during. split; [exact Hh|]. right. repeat split; assumption.
      * intros _. split; [exact Hc|].
        rewrite Hh, published_app. cbn [published]. rewrite Hpub. reflexivity.
  - assert (Hsame : reader_step c wire w = w).
    { unfold reader_step. rewrite Hp, (reader_not_running conn c w Honly Hne).
      reflexivity. }
    rewrite Hsame. split; [|intro H; contradiction].
    split; [exact Hp|]. split; [exact Ho|]. split; [exact Honly|].
    exists during. split; [exact Hh | exact Hstate].
Qed.

Lemma closing_down_bg_step (conn : nat) (before : list ws_event) (b : background)
      (w : World) :
  closing_down conn before w -> closing_down conn before (bg_step b w).
Proof.
  intro H. pose proof H as [Hp [Ho [Honly [during [Hh Hstate]]]]].
  unfold bg_step. rewrite Hp. destruct b as [cause | c wire].
  - split; [exact Hp|]. split; [exact Ho|]. split; [exact Honly|].
    exists (during ++ [Cancelled cause]). split.
    + cbn [cancel history]. rewrite Hh, <- app_assoc. reflexivity.
    + rewrite published_app. cbn [published]. rewrite app_nil_r. exact Hstate.
  - apply closing_down_reader_step. exact H.
Qed.

Lemma closing_down_bg_steps (conn : nat) (before : list ws_event) (bs : list background) :
  forall w, closing_down conn before w -> closing_down conn before (bg_steps bs w).
Proof.
  induction bs as [|b bs IH]; intros w H; [exact H|].
  cbn [bg_steps fold_left]. apply IH. apply closing_down_bg_step. exact H.
Qed.

(** Once the reader has noticed, it stays that way. *)
Lemma closing_down_noticed (conn : nat) (before : list ws_event) (bs : list background) :
  forall w,
    closing_down conn before w ->
    recv_closed w = true \/ (exists wire, In (BgRead conn wire) bs) ->
    recv_closed (bg_steps bs w) = true.
Proof.
  induction bs as [|b bs IH]; intros w H Hor.
  - destruct Hor as [Hc | [wire []]]. exact Hc.
  - cbn [bg_steps fold_left]. apply IH; [apply closing_down_bg_step; exact H|].
    destruct Hor as [Hc | [wire [Heq | Hin]]].
    + left. pose proof H as [Hp [_ [_ [during [_ Hstate]]]]].
      destruct Hstate as [[_ [Hopen _]] | [Hr _]]; [congruence|].
      unfold bg_step. rewrite Hp. destruct b as [cause | c wire']; [exact Hc|].
      destruct (closing_down_reader_step conn c before wire' w H) as [H' _].
      destruct H' as [_ [_ [_ [during' [_ Hstate']]]]].
      unfold reader_step. pose proof H as [_ [_ [Honly _]]].
      destruct (Nat.eq_dec c conn) as [-> | Hne].
      * rewrite Hp, Hr. exact Hc.
      * rewrite Hp, (reader_not_running conn c w Honly Hne). exact Hc.
    + left. subst b. pose proof H as [Hp _]. unfold bg_step. rewrite Hp.
      apply (closing_down_reader_step conn conn before wire w H). reflexivity.
    + right. exists wire. exact Hin.
Qed.




(** ** The reconnect loop and the caller's queues *)

Lemma extends_refl (w : World) : extends w w.
Proof.
  split; [|auto]. exists []. rewrite app_nil_r. simpl. split; [reflexivity | lia].
Qed.

Lemma extends_trans (w1 w2 w3 : World) : extends w1 w2 -> extends w2 w3 -> extends w1 w3.
Proof.
  intros [[h1 [Hh1 Hn1]] Hc1] [[h2 [Hh2 Hn2]] Hc2]. split; [|auto].
  exists (h1 ++ h2). rewrite Hh2, Hh1, Hn2, Hn1, connections_app, app_assoc.
  split; [reflexivity | lia].
Qed.

(** A step that appends [h] to the history, keeps the closed flag or sets
    it, and adds [connections h] connections. *)
Lemma extends_step (w w' : World) (h : list ws_event) :
  history w' = history w ++ h ->
  next_conn w' = (next_conn w + connections h)%nat ->
  (recv_closed w = true -> recv_closed w' = true) ->
  extends w w'.
Proof. intros Hh Hn Hc. split; [exists h; split; assumption | assumption]. Qed.

Lemma extends_record (ev : ws_event) (w : World) :
  connections [ev] = 0%nat -> extends w (record ev w).
Proof.
  intro H. apply (extends_step w _ [ev]); [reflexivity | rewrite H; simpl; lia | auto].
Qed.

Lemma extends_panic (msg : string) (w : World) : extends w (panic msg w).
Proof. apply (extends_step w _ [Panic msg]); simpl; auto. Qed.

Lemma extends_cancel (cause : error) (w : World) : extends w (cancel cause w).
Proof. apply (extends_step w _ [Cancelled cause]); simpl; auto. Qed.

Lemma extends_chan_send (conn : nat) (r : WebSocketResponse) (w : World) :
  extends w (chan_send conn r w).
Proof.
  unfold chan_send. destruct (panicked w); [apply extends_refl|].
  destruct (recv_closed w); [apply extends_panic | apply extends_record; reflexivity].
Qed.

Lemma extends_chan_close (conn : nat) (w : World) : extends w (chan_close conn w).
Proof.
  unfold chan_close. destruct (panicked w); [apply extends_refl|].
  destruct (recv_closed w) eqn:Hc; [apply extends_panic|].
  apply (extends_step w _ [ChanClose conn]); simpl; auto.
Qed.

Lemma extends_reader_exit (conn : nat) (w : World) : extends w (reader_exit conn w).
Proof. apply (extends_step w _ []); simpl; auto; rewrite app_nil_r; reflexivity. Qed.

Lemma extends_open_conn (w : World) : extends w (open_conn w).
Proof. apply (extends_step w _ [Dial true]); simpl; auto; lia. Qed.

Lemma extends_close_conn (conn : nat) (w : World) : extends w (close_conn conn w).
Proof. apply (extends_step w _ [ConnClose conn]); simpl; auto. Qed.

Lemma extends_reader_step (conn : nat) (wire : payload + error) (w : World) :
  extends w (reader_step conn wire w).
Proof.
  unfold reader_step. destruct (panicked w); [apply extends_refl|].
  destruct (reader_running conn w); [|apply extends_refl].
  destruct (wsjson_Read (conn_open conn w) wire) as [msg | err].
  - apply extends_chan_send.
  - eapply extends_trans; [apply extends_chan_send|].
    eapply extends_trans; [apply extends_chan_close | apply extends_reader_exit].
Qed.

Lemma extends_bg_step (b : background) (w : World) : extends w (bg_step b w).
Proof.
  unfold bg_step. destruct (panicked w); [apply extends_refl|].
  destruct b; [apply extends_cancel | apply extends_reader_step].
Qed.

Lemma extends_bg_steps (bs : list background) :
  forall w, extends w (bg_steps bs w).
Proof.
  induction bs as [|b bs IH]; intro w; [apply extends_refl|].
  simpl. eapply extends_trans; [apply extends_bg_step | apply IH].
Qed.

Lemma extends_writer_loop (conn : nat) :
  forall script w, extends w (snd (writer_loop conn script w)).
Proof.
  induction script as [b rest IH | msg rest IH | msg err | | |]; intro w;
    cbn [writer_loop]; destruct (panicked w); try apply extends_refl.
  - eapply extends_trans; [apply extends_bg_step | apply IH].
  - eapply extends_trans; [apply (extends_record (Wrote conn msg)); reflexivity | apply IH].
  - destruct (ctxErr w); apply extends_refl.
Qed.

(** The world the deferred close leaves. *)
Lemma deferred_close_snd (conn : nat) (closing : list background) (st : status)
      (w : World) :
  snd (deferred_close conn closing (st, w))
  = match st with
    | Returned _ => bg_steps closing (close_conn conn w)
    | _ => w
    end.
Proof.
  unfold deferred_close. cbn [fst snd]. destruct st; try reflexivity.
  destruct (panicked (bg_steps closing (close_conn conn w))); reflexivity.
Qed.

(** What the deferred close does to the result: a call that was about to
    return may panic instead. *)
Lemma deferred_close_fst (conn : nat) (closing : list background) (st : status)
      (w : World) :
  fst (deferred_close conn closing (st, w))
  = match st with
    | Returned err =>
        match panicked (bg_steps closing (close_conn conn w)) with
        | Some msg => Crashed msg
        | None => Returned err
        end
    | _ => st
    end.
Proof.
  unfold deferred_close. cbn [fst snd]. destruct st; try reflexivity.
  destruct (panicked (bg_steps closing (close_conn conn w))); reflexivity.
Qed.

Lemma extends_WebSocketStream (script : session_script) (w : World) :
  extends w (snd (WebSocketStream script w)).
Proof.
  unfold WebSocketStream. destruct (panicked w); [apply extends_refl|].
  destruct (connect script) as [err | [code|] err |]; simpl;
    try apply extends_refl; try (apply extends_record; reflexivity).
  pose proof (extends_writer_loop (next_conn w) (writer script) (open_conn w)) as Hw.
  destruct (writer_loop (next_conn w) (writer script) (open_conn w)) as [st w1].
  cbn [snd] in Hw. rewrite deferred_close_snd.
  eapply extends_trans; [apply extends_open_conn|].
  eapply extends_trans; [exact Hw|].
  destruct st; try apply extends_refl.
  eapply extends_trans; [apply extends_close_conn | apply extends_bg_steps].
Qed.

Lemma extends_reconnect_loop (out_of_range : float64 -> Z) (cfg : WebSocketConfig) :
  forall rounds attempt delay w,
    extends w (snd (reconnect_loop out_of_range cfg rounds attempt delay w)).
Proof.
  induction rounds as [|r rounds IH]; intros attempt delay w; [apply extends_refl|].
  cbn [reconnect_loop].
  eapply extends_trans; [apply (extends_bg_steps (before_check r))|].
  set (w1 := bg_steps (before_check r) w).
  destruct (panicked w1) eqn:Hp1; [apply extends_refl|].
  destruct (ctxErr w1) eqn:Hc1; [apply extends_refl|].
  destruct (attempt >? 0).
  - set (w2 := bg_steps (in_wait r)
                 (record (Waiting delay)
                    (if OnReconnect cfg then record Reconnecting w1 else w1))).
    assert (H12 : extends w1 w2).
    { unfold w2. eapply extends_trans; [|apply extends_bg_steps].
      eapply extends_trans; [|apply extends_record; reflexivity].
      destruct (OnReconnect cfg); [apply extends_record; reflexivity | apply extends_refl]. }
    eapply extends_trans; [exact H12|].
    destruct (select_wait (ctxErr w2) (wait_timer_first r));
      destruct (panicked w2); try apply extends_refl.
    pose proof (extends_WebSocketStream (session r) w2) as Hs.
    destruct (WebSocketStream (session r) w2) as [[err | | msg] w3]; simpl in *;
      try exact Hs.
    eapply extends_trans; [exact Hs|].
    eapply extends_trans; [apply (extends_bg_steps (after_session r))|].
    destruct (panicked (bg_steps (after_session r) w3)); [apply extends_refl|].
    destruct (ctxErr (bg_steps (after_session r) w3)); [apply extends_refl|].
    destruct ((MaxReconnectAttempts cfg >? 0)
              && (int_succ attempt >=? MaxReconnectAttempts cfg));
      [apply extends_refl | apply IH].
  - rewrite Hp1.
    pose proof (extends_WebSocketStream (session r) w1) as Hs.
    destruct (WebSocketStream (session r) w1) as [[err | | msg] w3]; simpl in *;
      try exact Hs.
    eapply extends_trans; [exact Hs|].
    eapply extends_trans; [apply (extends_bg_steps (after_session r))|].
    destruct (panicked (bg_steps (after_session r) w3)); [apply extends_refl|].
    destruct (ctxErr (bg_steps (after_session r) w3)); [apply extends_refl|].
    destruct ((MaxReconnectAttempts cfg >? 0)
              && (int_succ attempt >=? MaxReconnectAttempts cfg));
      [apply extends_refl | apply IH].
Qed.

(** A reader that is started on a queue which an earlier reader has closed
    panics at the end of its first read, whatever it has read. *)
Lemma reader_on_closed_queue_panics (conn : nat) (wire : payload + error) (w : World) :
  panicked w = None ->
  recv_closed w = true ->
  reader_running conn w = true ->
  panicked (reader_step conn wire w) = Some "send on closed channel"%string
  /\ history (reader_step conn wire w) = history w ++ [Panic "send on closed channel"].
Proof.
  intros Hp Hc Hr. unfold reader_step. rewrite Hp, Hr.
  destruct (wsjson_Read (conn_open conn w) wire) as [msg | err];
    unfold chan_send; rewrite Hp, Hc; [split; reflexivity|].
  unfold chan_close. cbn [panic panicked]. split; reflexivity.
Qed.

(** So a session on a closed queue does not survive the first read of its
    reader: once a session has published its terminal event and closed
    [receiveChan], every later session that gets a connection kills the
    program as soon as its reader has read something or has failed to. *)
Lemma session_on_closed_queue_panics (script : session_script) (w : World)
      (wire : payload + error) (rest : writer_script) :
  panicked w = None ->
  recv_closed w = true ->
  connect script = Dialed ->
  writer script = WBackground (BgRead (next_conn w) wire) rest ->
  fst (WebSocketStream script w) = Crashed "send on closed channel".
Proof.
  intros Hp Hc Hd Hw. unfold WebSocketStream. rewrite Hp, Hd, Hw.
  assert (Hr : reader_running (next_conn w) (open_conn w) = true).
  { unfold reader_running, open_conn. cbn [readers existsb].
    rewrite Nat.eqb_refl. reflexivity. }
  destruct (reader_on_closed_queue_panics (next_conn w) wire (open_conn w) Hp Hc Hr)
    as [Hpanic _].
  cbn [writer_loop]. change (panicked (open_conn w)) with (panicked w). rewrite Hp.
  unfold bg_step. change (panicked (open_conn w)) with (panicked w). rewrite Hp.
  destruct rest; cbn [writer_loop]; rewrite Hpanic; reflexivity.
Qed.

(** C1 on the code.  With reconnection enabled, the reader of the first
    session publishes its terminal event and closes [receiveChan] when the
    peer drops the connection; the loop reconnects, and the reader of the
    second session sends the message it receives on that closed channel,
    which panics.  The output queue is written to after a terminal event, and
    the program dies of it. *)
Theorem reconnect_touches_queue_after_terminal_event :
  forall out_of_range,
    let r := WebSocketStreamWithReconnect out_of_range (Some five_attempts)
               [dropped_round; greeted_round] fresh in
    fst r = Crashed "send on closed channel"
    /\ history (snd r)
       = [Dial true;
          Published 0 {| Data := None; RawData := []; Error := Some (Opaque "EOF");
                         Closed := true |};
          ChanClose 0;
          ConnClose 0;
          Reconnecting;
          Waiting (2 * Second);
          Dial true;
          Panic "send on closed channel"]
    /\ untouched_after_terminal (history (snd r)) = false.
Proof. intro out_of_range. repeat split. Qed.

(** C2 on the code.  With [MaxReconnectAttempts = 5] and every dial refused
    the call makes five connection attempts in all, the first one and four
    reconnections, calls [OnReconnect] four times, and returns the "max
    reconnection attempts exceeded" error around the last dial error. *)
Theorem five_attempts_run :
  forall out_of_range,
    let r := WebSocketStreamWithReconnect out_of_range (Some five_attempts)
               (repeat failing_round 6) fresh in
    fst r = Returned (Some (NewWebSocketError "max reconnection attempts exceeded"
                              (Some (NewWebSocketError "dial failed" (Some refused)))))
    /\ dials (history (snd r)) = 5%nat
    /\ callbacks (history (snd r)) = 4%nat.
Proof. intro out_of_range. repeat split. Qed.

Lemma dials_app (h1 h2 : list ws_event) : dials (h1 ++ h2) = (dials h1 + dials h2)%nat.
Proof.
  induction h1 as [|ev h1 IH]; simpl; [reflexivity|].
  destruct ev; simpl; rewrite ?IH; reflexivity.
Qed.

Lemma callbacks_app (h1 h2 : list ws_event) :
  callbacks (h1 ++ h2) = (callbacks h1 + callbacks h2)%nat.
Proof.
  induction h1 as [|ev h1 IH]; simpl; [reflexivity|].
  destruct ev; simpl; rewrite ?IH; reflexivity.
Qed.

(** One iteration of the loop around a refused dial, nobody cancelling. *)
Lemma reconnect_loop_refused (out_of_range : float64 -> Z) (cfg : WebSocketConfig)
      (rest : list reconnect_round) (attempt : Z) (delay : Duration) (w : World) :
  panicked w = None ->
  ctxErr w = None ->
  OnReconnect cfg = true ->
  attempt < max_int64 ->
  let w' := record (Dial false)
              (if attempt >? 0
               then record (Waiting delay) (record Reconnecting w)
               else w) in
  reconnect_loop out_of_range cfg (failing_round :: rest) attempt delay w
  = if (MaxReconnectAttempts cfg >? 0) && (attempt + 1 >=? MaxReconnectAttempts cfg)
    then (Returned (Some (NewWebSocketError "max reconnection attempts exceeded"
                            (Some (NewWebSocketError "dial failed" (Some refused))))),
          w')
    else reconnect_loop out_of_range cfg rest (attempt + 1)
           (if attempt >? 0 then next_reconnect_delay out_of_range cfg delay else delay)
           w'.
Proof.
  intros Hp Hc Hcb Hlt w'. subst w'.
  cbn [reconnect_loop failing_round before_check in_wait wait_timer_first session
       after_session bg_steps fold_left].
  rewrite Hp, Hc, Hcb.
  assert (Hsucc : int_succ attempt = attempt + 1)
    by (unfold int_succ; destruct (attempt =? max_int64) eqn:H; [lia | reflexivity]).
  unfold WebSocketStream.
  destruct (attempt >? 0);
    repeat (progress (cbn [record ctxErr panicked select_wait connect fst snd];
                      rewrite ?Hc, ?Hp));
    rewrite Hsucc; reflexivity.
Qed.

(** With every dial refused and nobody cancelling, the loop that has
    completed [attempt] sessions of a cap of [attempt + k + 1] runs [k + 1]
    more sessions and then gives up; it calls [OnReconnect] before each of
    them except the very first session of the call. *)
Lemma reconnect_loop_all_refused (out_of_range : float64 -> Z) (cfg : WebSocketConfig) :
  forall k attempt delay w m,
    panicked w = None ->
    ctxErr w = None ->
    OnReconnect cfg = true ->
    0 <= attempt ->
    MaxReconnectAttempts cfg = attempt + Z.of_nat k + 1 ->
    MaxReconnectAttempts cfg <= max_int64 ->
    let r := reconnect_loop out_of_range cfg (repeat failing_round (S k + m))
               attempt delay w in
    fst r = Returned (Some (NewWebSocketError "max reconnection attempts exceeded"
                              (Some (NewWebSocketError "dial failed" (Some refused)))))
    /\ dials (history (snd r)) = (dials (history w) + S k)%nat
    /\ callbacks (history (snd r))
       = (callbacks (history w) + if attempt >? 0 then S k else k)%nat.
Proof.
  induction k as [|k IH]; intros attempt delay w m Hp Hc Hcb Ha Hmax Hrange;
    cbn [repeat Nat.add]; cbv zeta;
    rewrite (reconnect_loop_refused out_of_range cfg _ attempt delay w Hp Hc Hcb)
      by lia;
    set (w' := record (Dial false)
                 (if attempt >? 0
                  then record (Waiting delay) (record Reconnecting w) else w));
    assert (Hd : dials (history w') = (dials (history w) + 1)%nat)
      by (unfold w'; destruct (attempt >? 0); simpl;
          rewrite !dials_app; simpl; lia);
    assert (Hcbs : callbacks (history w')
                   = (callbacks (history w) + if attempt >? 0 then 1 else 0)%nat)
      by (unfold w'; destruct (attempt >? 0); simpl;
          rewrite !callbacks_app; simpl; lia).
  - assert (Hstop : ((MaxReconnectAttempts cfg >? 0)
                     && (attempt + 1 >=? MaxReconnectAttempts cfg)) = true)
      by (rewrite Hmax; simpl Z.of_nat; apply andb_true_intro; split; lia).
    rewrite Hstop. cbn [fst snd]. rewrite Hd, Hcbs.
    destruct (attempt >? 0); repeat split; lia.
  - assert (Hk : Z.of_nat (S k) = Z.of_nat k + 1) by lia.
    assert (Hgo : ((MaxReconnectAttempts cfg >? 0)
                   && (attempt + 1 >=? MaxReconnectAttempts cfg)) = false).
    { rewrite Hmax, Hk. apply andb_false_intro2.
      pose proof (Nat2Z.is_nonneg k). lia. }
    rewrite Hgo.
    assert (Hp' : panicked w' = None) by (unfold w'; destruct (attempt >? 0); exact Hp).
    assert (Hc' : ctxErr w' = None) by (unfold w'; destruct (attempt >? 0); exact Hc).
    destruct (IH (attempt + 1)
                 (if attempt >? 0 then next_reconnect_delay out_of_range cfg delay
                  else delay) w' m Hp' Hc' Hcb) as [Hret [Hd' Hcbs']]; try lia.
    cbn [repeat Nat.add] in Hret, Hd', Hcbs'.
    rewrite Hret, Hd', Hcbs', Hd, Hcbs.
    assert (Hnext : (attempt + 1 >? 0) = true) by lia. rewrite Hnext.
    destruct (attempt >? 0); repeat split; lia.
Qed.

(** The cap counts every session, the first one included: with
    [MaxReconnectAttempts = n >= 1], every dial refused and nobody
    cancelling, the call makes [n] connection attempts in all, hence [n - 1]
    reconnections, each announced by one call of [OnReconnect]. *)
Lemma reconnect_cap_counts_first_session :
  forall out_of_range cfg n m,
    AutoReconnect cfg = true ->
    OnReconnect cfg = true ->
    MaxReconnectAttempts cfg = Z.of_nat (S n) ->
    MaxReconnectAttempts cfg <= max_int64 ->
    let r := WebSocketStreamWithReconnect out_of_range (Some cfg)
               (repeat failing_round (S n + m)) fresh in
    fst r = Returned (Some (NewWebSocketError "max reconnection attempts exceeded"
                              (Some (NewWebSocketError "dial failed" (Some refused)))))
    /\ dials (history (snd r)) = S n
    /\ callbacks (history (snd r)) = n.
Proof.
  intros out_of_range cfg n m Hauto Hcb Hmax Hrange r. subst r.
  unfold WebSocketStreamWithReconnect. rewrite Hauto.
  apply (reconnect_loop_all_refused out_of_range cfg n 0 (ReconnectDelay cfg) fresh m);
    try reflexivity; try assumption; lia.
Qed.

(* ================================================================== *)
(** * Further properties of the retry executor *)
(* ================================================================== *)

(** X1. An outcome of the first attempt that [shouldRetry] rejects (a 404,
    a redirect, a success) ends [executeWithRetry] at once: the response and
    the error come back unchanged after exactly one attempt, without a wait
    and with the body left open for the caller. *)
Theorem final_outcome_returned_at_once :
  forall out_of_range c env ctx retryConfig n resp err,
    let run := executeWithRetry out_of_range c env ctx retryConfig in
    hd_error (attempts (fst run)) = Some (n, resp, err) ->
    shouldRetry resp err = false ->
    ret_resp (snd run) = resp
    /\ ret_err (snd run) = err
    /\ attempts (fst run) = [(0, resp, err)]
    /\ sleeps (fst run) = []
    /\ closed_bodies (fst run) = [].
Proof.
  intros out_of_range c env ctx [rc|] n resp err run Hfirst Hfinal; subst run;
    cbn [executeWithRetry] in *.
  - destruct (retry_loop_first_final out_of_range c env rc _ _ _ _ _ _ n resp err
                Hfirst Hfinal) as [Htr [Hresp Herr]].
    rewrite Htr, Hresp, Herr. tidy. repeat split.
  - tidy. cbn [hd_error] in Hfirst. injection Hfirst as Hn Hresp Herr.
    rewrite Hresp, Herr. repeat split.
Qed.

Lemma final_outcome_returned_at_once_witness :
  let run := executeWithRetry amd64 plain_client (env_status 404) None
               (Some DefaultRetryConfig) in
  ret_resp (snd run) = fst (answer 404 0)
  /\ ret_err (snd run) = None
  /\ attempts (fst run) = [(0, fst (answer 404 0), None)]
  /\ sleeps (fst run) = []
  /\ closed_bodies (fst run) = [].
Proof.
  apply (final_outcome_returned_at_once amd64 plain_client (env_status 404) None
           (Some DefaultRetryConfig) 0 (fst (answer 404 0)) None);
    reflexivity.
Defined.

(** X2. With [MaxRetries = N >= 0], nobody cancelling and every outcome a
    retryable one, [executeWithRetry] makes exactly [N + 1] attempts and
    waits exactly [N] times, then returns the outcome of attempt [N]. *)
Theorem retried_up_to_the_cap :
  forall out_of_range c env rc,
    0 <= MaxRetries rc ->
    (forall i, 0 <= i <= MaxRetries rc ->
               undisturbed (env i)
               /\ shouldRetry (fst (outcome (env i))) (snd (outcome (env i))) = true) ->
    let run := executeWithRetry out_of_range c env None (Some rc) in
    snd run = {| ret_resp := fst (outcome (env (MaxRetries rc)));
                 ret_err := snd (outcome (env (MaxRetries rc)));
                 ret_via := Exhausted |}
    /\ Z.of_nat (List.length (attempts (fst run))) = MaxRetries rc + 1
    /\ Z.of_nat (List.length (sleeps (fst run))) = MaxRetries rc.
Proof.
  intros out_of_range c env rc Hn Hall run. subst run. cbn [executeWithRetry].
  destruct (retry_loop_all_retryable out_of_range c env rc
              (Z.to_nat (MaxRetries rc + 1)) 0 (InitialDelay rc) None None)
    as [Hret [Ha Hs]]; try lia; try assumption.
  rewrite Hret. repeat split; lia.
Qed.

Lemma retried_up_to_the_cap_witness :
  let run := executeWithRetry amd64 plain_client (env_status 503) None
               (Some DefaultRetryConfig) in
  snd run = {| ret_resp := fst (answer 503 3); ret_err := None; ret_via := Exhausted |}
  /\ Z.of_nat (List.length (attempts (fst run))) = 4
  /\ Z.of_nat (List.length (sleeps (fst run))) = 3.
Proof.
  apply (retried_up_to_the_cap amd64 plain_client (env_status 503) DefaultRetryConfig).
  - simpl. lia.
  - intros i _. split; [repeat split | reflexivity].
Defined.

(** X3. When every attempt yields either a response or an error, never both
    and never neither, and [MaxRetries] is not negative, [executeWithRetry]
    too returns either a response or an error: a nil error always comes with
    a response. *)
Theorem response_or_error :
  forall out_of_range c env ctx retryConfig,
    (forall i, one_of (fst (outcome (env i))) (snd (outcome (env i)))) ->
    match retryConfig with Some rc => 0 <= MaxRetries rc | None => True end ->
    let run := executeWithRetry out_of_range c env ctx retryConfig in
    one_of (ret_resp (snd run)) (ret_err (snd run)).
Proof.
  intros out_of_range c env ctx [rc|] Hall Hn run; subst run; cbn [executeWithRetry].
  - apply retry_loop_one_of; [assumption | lia | left; assumption].
  - apply Hall.
Qed.

Lemma response_or_error_witness :
  one_of (ret_resp (snd (executeWithRetry amd64 plain_client (env_status 503) None
                           (Some DefaultRetryConfig))))
         (ret_err (snd (executeWithRetry amd64 plain_client (env_status 503) None
                          (Some DefaultRetryConfig)))).
Proof.
  apply (response_or_error amd64 plain_client (env_status 503) None
           (Some DefaultRetryConfig)).
  - intro i. exact I.
  - simpl. lia.
Defined.

(** X4. The logger is only told.  Two clients that differ in their logger
    get the same result from [executeWithRetry] and do the same things in
    the same order, the calls of the logger apart; a client without a logger
    logs nothing. *)
Theorem logger_only_observes :
  forall out_of_range c c' env ctx retryConfig,
    snd (executeWithRetry out_of_range c' env ctx retryConfig)
    = snd (executeWithRetry out_of_range c env ctx retryConfig)
    /\ without_logs (fst (executeWithRetry out_of_range c' env ctx retryConfig))
       = without_logs (fst (executeWithRetry out_of_range c env ctx retryConfig))
    /\ (logger c = false ->
        without_logs (fst (executeWithRetry out_of_range c env ctx retryConfig))
        = fst (executeWithRetry out_of_range c env ctx retryConfig)).
Proof.
  intros out_of_range c c' env ctx [rc|]; cbn [executeWithRetry].
  - destruct (retry_loop_logger_silent out_of_range c env rc c'
                (Z.to_nat (MaxRetries rc + 1)) 0 (InitialDelay rc) None None ctx)
      as [Hret Htr].
    split; [exact Hret|]. split; [exact Htr|].
    intro Hoff. apply retry_loop_no_logger. exact Hoff.
  - repeat split.
Qed.

Lemma logger_only_observes_witness :
  logger plain_client = false
  /\ let tr := fst (executeWithRetry amd64 plain_client (env_status 503) None
                     (Some DefaultRetryConfig)) in
     without_logs tr = tr.
Proof.
  split; [reflexivity|].
  apply (logger_only_observes amd64 plain_client plain_client (env_status 503) None
           (Some DefaultRetryConfig)).
  reflexivity.
Defined.

(* ================================================================== *)
(** * Further properties of the streaming code *)
(* ================================================================== *)

(** ** What a session adds to the history *)

Lemma in_session_bg_step (b : background) (w : World) :
  exists h, history (bg_step b w) = history w ++ h /\ Forall in_session h.
Proof.
  unfold bg_step. destruct (panicked w) eqn:Hp.
  { exists []. rewrite app_nil_r. split; [reflexivity | constructor]. }
  destruct b as [cause | conn wire].
  - exists [Cancelled cause]. split; [reflexivity | repeat constructor].
  - unfold reader_step. rewrite Hp.
    destruct (reader_running conn w);
      [|exists []; rewrite app_nil_r; split; [reflexivity | constructor]].
    destruct (wsjson_Read (conn_open conn w) wire) as [msg | err];
      unfold chan_send; rewrite Hp; destruct (recv_closed w) eqn:Hc;
      unfold chan_close; simpl; rewrite ?Hp, ?Hc; simpl.
    + exists [Panic "send on closed channel"]. split; [reflexivity | repeat constructor].
    + eexists [_]. split; [reflexivity | repeat constructor].
    + exists [Panic "send on closed channel"]. split; [reflexivity | repeat constructor].
    + eexists [_; _]. rewrite <- app_assoc. split; [reflexivity | repeat constructor].
Qed.

Lemma in_session_bg_steps (bs : list background) :
  forall w, exists h, history (bg_steps bs w) = history w ++ h /\ Forall in_session h.
Proof.
  induction bs as [|b bs IH]; intro w.
  - exists []. rewrite app_nil_r. split; [reflexivity | constructor].
  - simpl. destruct (in_session_bg_step b w) as [h1 [Hh1 Hf1]].
    destruct (IH (bg_step b w)) as [h2 [Hh2 Hf2]].
    exists (h1 ++ h2). rewrite Hh2, Hh1, app_assoc.
    split; [reflexivity | apply Forall_app; split; assumption].
Qed.

Lemma in_session_writer_loop (conn : nat) :
  forall script w,
    exists h, history (snd (writer_loop conn script w)) = history w ++ h
              /\ Forall in_session h.
Proof.
  induction script as [b rest IH | msg rest IH | msg err | | |]; intro w;
    cbn [writer_loop]; destruct (panicked w);
    try (exists []; rewrite app_nil_r; split; [reflexivity | constructor]).
  - destruct (in_session_bg_step b w) as [h1 [Hh1 Hf1]].
    destruct (IH (bg_step b w)) as [h2 [Hh2 Hf2]].
    exists (h1 ++ h2). rewrite Hh2, Hh1, app_assoc.
    split; [reflexivity | apply Forall_app; split; assumption].
  - destruct (IH (record (Wrote conn msg) w)) as [h2 [Hh2 Hf2]].
    exists (Wrote conn msg :: h2). rewrite Hh2. simpl. rewrite <- app_assoc.
    split; [reflexivity | constructor; [exact I | assumption]].
  - destruct (ctxErr w); exists []; rewrite app_nil_r; split; (reflexivity || constructor).
Qed.

(** The history of one session: nothing for a bad URL, the failed dial, or
    the dial, what happens during the writer loop and, when the loop has
    chosen to return, the closing of the connection and what happens while
    it is being closed. *)
Lemma WebSocketStream_history (script : session_script) (w : World) :
  panicked w = None ->
  match connect script with
  | BadURL _ => snd (WebSocketStream script w) = w
  | DialFailed _ _ => history (snd (WebSocketStream script w)) = history w ++ [Dial false]
  | Dialed =>
      exists h during,
        Forall in_session h
        /\ Forall in_session during
        /\ history (snd (WebSocketStream script w))
           = history w ++ Dial true :: h
               ++ match fst (writer_loop (next_conn w) (writer script) (open_conn w)) with
                  | Returned _ => ConnClose (next_conn w) :: during
                  | _ => []
                  end
  end.
Proof.
  intro Hp. unfold WebSocketStream. rewrite Hp.
  destruct (connect script) as [err | [code|] err |]; try reflexivity.
  destruct (in_session_writer_loop (next_conn w) (writer script) (open_conn w))
    as [h [Hh Hf]].
  destruct (writer_loop (next_conn w) (writer script) (open_conn w)) as [st w1].
  cbn [fst snd] in *.
  destruct (in_session_bg_steps (closing script) (close_conn (next_conn w) w1))
    as [during [Hd Hfd]].
  exists h, during. split; [exact Hf|]. split; [exact Hfd|].
  rewrite deferred_close_snd.
  destruct st; [rewrite Hd; cbn [close_conn history] | |]; rewrite Hh; simpl;
    rewrite <- ?app_assoc; simpl; rewrite ?app_nil_r; reflexivity.
Qed.

(** A call that returns has come out of its writer loop with what it
    returns, and has closed its connection. *)
Lemma WebSocketStream_returned (script : session_script) (w : World) (err : option error) :
  panicked w = None ->
  connect script = Dialed ->
  fst (WebSocketStream script w) = Returned err ->
  fst (writer_loop (next_conn w) (writer script) (open_conn w)) = Returned err
  /\ snd (WebSocketStream script w)
     = bg_steps (closing script)
         (close_conn (next_conn w)
            (snd (writer_loop (next_conn w) (writer script) (open_conn w)))).
Proof.
  intros Hp Hd. unfold WebSocketStream. rewrite Hp, Hd.
  destruct (writer_loop (next_conn w) (writer script) (open_conn w)) as [st w1].
  rewrite deferred_close_fst, deferred_close_snd. cbn [fst snd].
  destruct st; try discriminate.
  destruct (panicked (bg_steps (closing script) (close_conn (next_conn w) w1)));
    [discriminate|].
  intro H. split; [exact H | reflexivity].
Qed.

(** Nothing that happens beside the calling goroutine opens a connection
    again. *)
Lemma closed_conns_bg_steps (bs : list background) :
  forall w, closed_conns (bg_steps bs w) = closed_conns w.
Proof.
  induction bs as [|b bs IH]; intro w; [reflexivity|].
  cbn [bg_steps fold_left]. fold (bg_steps bs (bg_step b w)). rewrite IH.
  unfold bg_step. destruct (panicked w) eqn:Hp; [reflexivity|].
  destruct b as [cause | conn wire]; [reflexivity|].
  unfold reader_step. rewrite Hp. destruct (reader_running conn w); [|reflexivity].
  destruct (wsjson_Read (conn_open conn w) wire);
    unfold chan_send; rewrite Hp; destruct (recv_closed w) eqn:Hc;
    unfold chan_close; simpl; rewrite ?Hp, ?Hc; reflexivity.
Qed.

Lemma conn_closes_app (conn : nat) (h1 h2 : list ws_event) :
  conn_closes conn (h1 ++ h2) = (conn_closes conn h1 + conn_closes conn h2)%nat.
Proof.
  induction h1 as [|ev h1 IH]; simpl; [reflexivity|].
  destruct ev; simpl; rewrite ?IH; lia.
Qed.

Lemma conn_closes_in_session (conn : nat) (h : list ws_event) :
  Forall in_session h -> conn_closes conn h = 0%nat.
Proof.
  induction 1 as [|ev h Hev _ IH]; [reflexivity|].
  destruct ev; simpl in *; try contradiction; exact IH.
Qed.

(** X5. The connection of a session is closed exactly once on every path on
    which [WebSocketStream] returns after a successful dial: once the writer
    loop is left, and not again by anything that happens while the close
    runs; a call that does not get a connection closes none. *)
Theorem connection_closed_once :
  forall script w,
    panicked w = None ->
    let r := WebSocketStream script w in
    (forall err,
        connect script = Dialed ->
        fst r = Returned err ->
        exists h during,
          history (snd r) = history w ++ h ++ ConnClose (next_conn w) :: during
          /\ conn_closes (next_conn w) h = 0%nat
          /\ conn_closes (next_conn w) during = 0%nat
          /\ conn_open (next_conn w) (snd r) = false)
    /\ (connect script <> Dialed ->
        exists h, history (snd r) = history w ++ h
                  /\ forall conn, conn_closes conn h = 0%nat).
Proof.
  intros script w Hp r. subst r.
  pose proof (WebSocketStream_history script w Hp) as Hh. split.
  - intros err Hd Hret. rewrite Hd in Hh. destruct Hh as [h [during [Hf [Hfd Hh]]]].
    destruct (WebSocketStream_returned script w err Hp Hd Hret) as [Hw Hsnd].
    rewrite Hw in Hh. exists (Dial true :: h), during.
    split; [rewrite Hh; simpl; reflexivity|]. split; [|split].
    + simpl. apply conn_closes_in_session. exact Hf.
    + apply conn_closes_in_session. exact Hfd.
    + rewrite Hsnd. unfold conn_open. rewrite closed_conns_bg_steps.
      apply conn_open_close_conn.
  - intro Hd. destruct (connect script) as [err | status err |]; [| |contradiction].
    + exists []. rewrite Hh, app_nil_r. split; reflexivity.
    + exists [Dial false]. split; [exact Hh | reflexivity].
Qed.

Lemma connection_closed_once_witness :
  let r := WebSocketStream observed_shutdown_script fresh in
  exists h during,
    history (snd r) = history fresh ++ h ++ ConnClose 0 :: during
    /\ conn_closes 0 h = 0%nat
    /\ conn_closes 0 during = 0%nat
    /\ conn_open 0 (snd r) = false.
Proof.
  apply (proj1 (connection_closed_once observed_shutdown_script fresh eq_refl) None);
    reflexivity.
Defined.

(** X6. [WebSocketStream] returns a nil error only after a successful dial
    and only because the caller closed [sendChan]: every other way out of the
    call carries an error. *)
Theorem nil_only_for_closed_input :
  forall script w,
    fst (WebSocketStream script w) = Returned None ->
    connect script = Dialed /\ reaches_input_closed (writer script).
Proof.
  intros script w. unfold WebSocketStream.
  destruct (panicked w); [discriminate|].
  destruct (connect script) as [err | [code|] err |]; try discriminate.
  intro Hret. split; [reflexivity|].
  assert (Hw : fst (writer_loop (next_conn w) (writer script) (open_conn w))
               = Returned None).
  { revert Hret.
    destruct (writer_loop (next_conn w) (writer script) (open_conn w)) as [st w1].
    rewrite deferred_close_fst. cbn [fst].
    destruct st; try discriminate.
    destruct (panicked (bg_steps (closing script) (close_conn (next_conn w) w1)));
      [discriminate | intro H; exact H]. }
  clear Hret. revert Hw. generalize (open_conn w). generalize (next_conn w).
  intro conn.
  induction (writer script) as [b rest IH | msg rest IH | msg err | | |]; intro w0;
    cbn [writer_loop]; destruct (panicked w0); try discriminate; simpl.
  - apply IH.
  - apply IH.
  - destruct (ctxErr w0); discriminate.
  - intros _. exact I.
Qed.

Lemma nil_only_for_closed_input_witness :
  connect shutdown_script = Dialed /\ reaches_input_closed (writer shutdown_script).
Proof.
  apply (nil_only_for_closed_input shutdown_script fresh). reflexivity.
Defined.

(** ** One session and the queue *)

Lemma single_reader_history (w : World) (h : list ws_event) :
  single_reader w ->
  single_reader {| ctxErr := ctxErr w; recv_closed := recv_closed w;
                   next_conn := next_conn w; closed_conns := closed_conns w;
                   readers := readers w; panicked := panicked w; history := h |}.
Proof. intro H. exact H. Qed.

Lemma reader_running_In (conn : nat) (w : World) :
  reader_running conn w = true -> In conn (readers w).
Proof.
  unfold reader_running. intro H. apply existsb_exists in H.
  destruct H as [c [Hin Heq]]. apply Nat.eqb_eq in Heq. subst c. exact Hin.
Qed.

Lemma single_reader_reader_step (conn : nat) (wire : payload + error) (w : World) :
  single_reader w -> single_reader (reader_step conn wire w).
Proof.
  intros [Hp [Hone Hclosed]]. unfold reader_step. rewrite Hp.
  destruct (reader_running conn w) eqn:Hrun; [|repeat split; assumption].
  apply reader_running_In in Hrun.
  assert (Hc : recv_closed w = false).
  { destruct (recv_closed w); [|reflexivity].
    rewrite (Hclosed eq_refl) in Hrun. contradiction. }
  destruct (wsjson_Read (conn_open conn w) wire) as [msg | err];
    unfold chan_send; rewrite Hp, Hc.
  - repeat split; assumption.
  - unfold chan_close. simpl. rewrite Hp, Hc.
    assert (Hnone : filter (fun c => negb (Nat.eqb conn c)) (readers w) = []).
    { clear Hclosed. induction (readers w) as [|c l IH]; [reflexivity|].
      simpl. rewrite <- (Hone conn c Hrun (or_introl eq_refl)), Nat.eqb_refl. simpl.
      destruct l as [|c' l]; [reflexivity|].
      apply IH.
      - intros a b Ha Hb. apply Hone; right; assumption.
      - rewrite (Hone conn c' Hrun (or_intror (or_introl eq_refl))). left. reflexivity. }
    repeat split; simpl; try assumption; rewrite Hnone; [intros c c' [] | reflexivity].
Qed.

Lemma single_reader_bg_step (b : background) (w : World) :
  single_reader w -> single_reader (bg_step b w).
Proof.
  intro H. pose proof H as [Hp _]. unfold bg_step. rewrite Hp.
  destruct b; [exact H | apply single_reader_reader_step; exact H].
Qed.

Lemma single_reader_bg_steps (bs : list background) :
  forall w, single_reader w -> single_reader (bg_steps bs w).
Proof.
  induction bs as [|b bs IH]; intros w H; [exact H|].
  simpl. apply IH, single_reader_bg_step, H.
Qed.

Lemma single_reader_writer_loop (conn : nat) :
  forall script w,
    single_reader w ->
    (forall msg, fst (writer_loop conn script w) <> Crashed msg)
    /\ single_reader (snd (writer_loop conn script w)).
Proof.
  induction script as [b rest IH | msg rest IH | msg err | | |]; intros w H;
    pose proof H as [Hp _]; cbn [writer_loop]; rewrite Hp;
    try (split; [discriminate | exact H]).
  - apply IH, single_reader_bg_step, H.
  - apply IH. exact H.
  - destruct (ctxErr w); (split; [discriminate | exact H]).
Qed.

(** X7. A single call of [WebSocketStream] on a queue that is open and has
    no reader yet never panics, whatever the peer, the caller and the
    scheduler do, and neither does its reader goroutine afterwards: the
    reader sends only on the open queue and closes it once. *)
Theorem single_session_never_panics :
  forall script later w,
    panicked w = None ->
    readers w = [] ->
    recv_closed w = false ->
    (forall msg, fst (WebSocketStream script w) <> Crashed msg)
    /\ panicked (bg_steps later (snd (WebSocketStream script w))) = None.
Proof.
  intros script later w Hp Hr Hc.
  assert (Hstart : single_reader w).
  { repeat split; [exact Hp | rewrite Hr; intros c c' [] | congruence]. }
  assert (Hsession : (forall msg, fst (WebSocketStream script w) <> Crashed msg)
                     /\ single_reader (snd (WebSocketStream script w))).
  { unfold WebSocketStream. rewrite Hp.
    destruct (connect script) as [err | [code|] err |];
      try (split; [discriminate | exact Hstart]).
    assert (Hopen : single_reader (open_conn w)).
    { repeat split; simpl; [exact Hp | | congruence].
      rewrite Hr. intros c c' [<- | []] [<- | []]. reflexivity. }
    destruct (single_reader_writer_loop (next_conn w) (writer script) (open_conn w) Hopen)
      as [Hok Hsingle].
    destruct (writer_loop (next_conn w) (writer script) (open_conn w)) as [st w1].
    rewrite deferred_close_fst, deferred_close_snd.
    cbn [fst snd] in *. destruct st; try (split; [exact Hok | exact Hsingle]).
    assert (Hclosing : single_reader (bg_steps (closing script)
                                        (close_conn (next_conn w) w1)))
      by (apply single_reader_bg_steps; exact Hsingle).
    pose proof Hclosing as [Hp' _]. rewrite Hp'.
    split; [discriminate | exact Hclosing]. }
  destruct Hsession as [Hok Hsingle]. split; [exact Hok|].
  apply (single_reader_bg_steps later) in Hsingle. apply Hsingle.
Qed.

Lemma single_session_never_panics_witness :
  (forall msg, fst (WebSocketStream (session dropped_round) fresh) <> Crashed msg)
  /\ panicked (bg_steps [BgRead 0 (inl "late"%string)]
                 (snd (WebSocketStream (session dropped_round) fresh))) = None.
Proof.
  apply (single_session_never_panics (session dropped_round)
           [BgRead 0 (inl "late"%string)] fresh); reflexivity.
Defined.

(** ** What the reconnect loop returns *)

Lemma ended_by_session_later (r : reconnect_round) (rounds : list reconnect_round)
      (w w' : World) (n : nat) (last : option error) (w_end : World) :
  extends w w' ->
  ended_by_session rounds w' n last w_end ->
  ended_by_session (r :: rounds) w (S n) last w_end.
Proof.
  intros Hext [pre [r' [post [w2 [Hrounds [Hlen [Hext' [Hret Hend]]]]]]]].
  exists (r :: pre), r', post, w2. split; [|split; [|split; [|split]]].
  - rewrite Hrounds. reflexivity.
  - cbn [List.length]. rewrite Hlen. reflexivity.
  - eapply extends_trans; [exact Hext | exact Hext'].
  - exact Hret.
  - exact Hend.
Qed.

(** The two ways in which the loop returns: with the error of the context,
    or, when the cap is reached, with the error of the session it has just
    run, wrapped. *)
Lemma reconnect_loop_returns_kinds (out_of_range : float64 -> Z) (cfg : WebSocketConfig) :
  forall rounds attempt delay w err,
    let res := reconnect_loop out_of_range cfg rounds attempt delay w in
    fst res = Returned err ->
    (exists e, err = Some e /\ ctxErr (snd res) = Some e)
    \/ (MaxReconnectAttempts cfg > 0
        /\ exists last n,
            err = Some (NewWebSocketError "max reconnection attempts exceeded" last)
            /\ ended_by_session rounds w n last (snd res)
            /\ (0 <= attempt < MaxReconnectAttempts cfg ->
                MaxReconnectAttempts cfg <= max_int64 ->
                attempt + Z.of_nat (S n) = MaxReconnectAttempts cfg)).
Proof.
  induction rounds as [|r rounds IH]; intros attempt delay w err; [discriminate|].
  cbn [reconnect_loop]. cbv zeta.
  pose proof (extends_bg_steps (before_check r) w) as Hext1.
  set (w1 := bg_steps (before_check r) w) in *.
  (* the session and what follows it, entered in [w2] with the delay [d] *)
  assert (Hrest : forall (d : Duration) (w2 : World),
             extends w w2 ->
             let res :=
               match WebSocketStream (session r) w2 with
               | (Returned err0, w3) =>
                   let w4 := bg_steps (after_session r) w3 in
                   match panicked w4, ctxErr w4 with
                   | Some msg, _ => (Crashed msg, w4)
                   | None, Some e => (Returned (Some e), w4)
                   | None, None =>
                       if (MaxReconnectAttempts cfg >? 0)
                          && (int_succ attempt >=? MaxReconnectAttempts cfg)
                       then (Returned
                               (Some (NewWebSocketError
                                        "max reconnection attempts exceeded" err0)),
                             w4)
                       else reconnect_loop out_of_range cfg rounds (int_succ attempt) d w4
                   end
               | other => other
               end in
             fst res = Returned err ->
             (exists e, err = Some e /\ ctxErr (snd res) = Some e)
             \/ (MaxReconnectAttempts cfg > 0
                 /\ exists last n,
                     err = Some (NewWebSocketError "max reconnection attempts exceeded"
                                                   last)
                     /\ ended_by_session (r :: rounds) w n last (snd res)
                     /\ (0 <= attempt < MaxReconnectAttempts cfg ->
                         MaxReconnectAttempts cfg <= max_int64 ->
                         attempt + Z.of_nat (S n) = MaxReconnectAttempts cfg))).
  { intros d w2 Hext2.
    pose proof (extends_WebSocketStream (session r) w2) as Hext3.
    destruct (WebSocketStream (session r) w2) as [[err0 | | msg] w3] eqn:Hsession;
      cbn [fst snd]; try discriminate. cbv zeta.
    cbn [snd] in Hext3.
    pose proof (extends_bg_steps (after_session r) w3) as Hext4.
    set (w4 := bg_steps (after_session r) w3) in *.
    destruct (panicked w4); [discriminate|].
    destruct (ctxErr w4) as [e|] eqn:Hc4.
    { cbn [fst snd]. intro H. injection H as <-. left. exists e.
      split; [reflexivity | exact Hc4]. }
    destruct ((MaxReconnectAttempts cfg >? 0)
              && (int_succ attempt >=? MaxReconnectAttempts cfg)) eqn:Hcap.
    - cbn [fst snd]. intro H. injection H as <-. right.
      apply andb_prop in Hcap. destruct Hcap as [Hpos Hge].
      split; [lia|]. exists err0, 0%nat. split; [reflexivity|]. split.
      + exists [], r, rounds, w2. rewrite Hsession.
        split; [reflexivity|]. split; [reflexivity|]. split; [exact Hext2|].
        split; reflexivity.
      + intros Hlt Hmax. unfold int_succ in Hge.
        destruct (attempt =? max_int64) eqn:E; lia.
    - intro H. destruct (IH (int_succ attempt) d w4 err H)
        as [Hctx | [Hpos [last [n [Herr [Hended Hcount]]]]]]; [left; exact Hctx|].
      right. split; [exact Hpos|]. exists last, (S n). split; [exact Herr|]. split.
      + apply (ended_by_session_later r rounds w w4); [|exact Hended].
        eapply extends_trans; [exact Hext2|].
        eapply extends_trans; [exact Hext3 | exact Hext4].
      + intros Hlt Hmax. apply andb_false_iff in Hcap.
        assert (Hsucc : int_succ attempt = attempt + 1)
          by (unfold int_succ; destruct (attempt =? max_int64) eqn:E; [lia | reflexivity]).
        rewrite Hsucc in Hcount, Hcap.
        assert (Hnext : attempt + 1 < MaxReconnectAttempts cfg)
          by (destruct Hcap as [Hcap | Hcap]; lia).
        specialize (Hcount ltac:(lia) Hmax). lia. }
  destruct (panicked w1) eqn:Hp1; [discriminate|].
  destruct (ctxErr w1) as [e1|] eqn:Hc1.
  { cbn [fst snd]. intro H. injection H as <-. left. exists e1.
    split; [reflexivity | exact Hc1]. }
  destruct (attempt >? 0).
  - assert (Hext2 : extends w (bg_steps (in_wait r)
                                 (record (Waiting delay)
                                    (if OnReconnect cfg then record Reconnecting w1
                                     else w1)))).
    { eapply extends_trans; [exact Hext1|].
      eapply extends_trans; [|apply extends_bg_steps].
      eapply extends_trans; [|apply extends_record; reflexivity].
      destruct (OnReconnect cfg); [apply extends_record; reflexivity | apply extends_refl]. }
    set (w2 := bg_steps (in_wait r)
                 (record (Waiting delay)
                    (if OnReconnect cfg then record Reconnecting w1 else w1))) in *.
    destruct (select_wait (ctxErr w2) (wait_timer_first r)) as [e|] eqn:Hsel;
      destruct (panicked w2); try discriminate.
    + cbn [fst snd]. intro H. injection H as <-. left. exists e.
      split; [reflexivity|].
      unfold select_wait in Hsel. destruct (ctxErr w2) as [e'|]; [|discriminate].
      destruct (wait_timer_first r); [discriminate | exact Hsel].
    + apply Hrest. exact Hext2.
  - rewrite Hp1. apply Hrest. exact Hext1.
Qed.

(** X8. With reconnection enabled, [WebSocketStreamWithReconnect] returns
    only [ctx.Err()] of a context that is done, or, under a positive cap, the
    "max reconnection attempts exceeded" error around what the last session
    returned: that session is the one the loop ran last, session number
    [MaxReconnectAttempts], and nothing but what the other goroutines did
    behind it lies between its return and the return of the loop.  The call
    never returns nil, also not after a session that the caller ended by
    closing [sendChan], and it never returns the bare error of a session. *)
Theorem reconnect_returns_cancellation_or_exhaustion :
  forall out_of_range cfg rounds w err,
    AutoReconnect cfg = true ->
    let r := WebSocketStreamWithReconnect out_of_range (Some cfg) rounds w in
    fst r = Returned err ->
    err <> None
    /\ ((exists e, err = Some e /\ ctxErr (snd r) = Some e)
        \/ (MaxReconnectAttempts cfg > 0
            /\ exists last n,
                err = Some (NewWebSocketError "max reconnection attempts exceeded" last)
                /\ ended_by_session rounds w n last (snd r)
                /\ (MaxReconnectAttempts cfg <= max_int64 ->
                    Z.of_nat (S n) = MaxReconnectAttempts cfg))).
Proof.
  intros out_of_range cfg rounds w err Hauto r Hret. subst r.
  unfold WebSocketStreamWithReconnect in *. rewrite Hauto in *.
  destruct (reconnect_loop_returns_kinds out_of_range cfg rounds 0 (ReconnectDelay cfg)
              w err Hret)
    as [[e [-> Hctx]] | [Hpos [last [n [-> [Hended Hcount]]]]]].
  - split; [discriminate|]. left. exists e. split; [reflexivity | exact Hctx].
  - split; [discriminate|]. right. split; [exact Hpos|].
    exists last, n. split; [reflexivity|]. split; [exact Hended|].
    intro Hmax. specialize (Hcount ltac:(lia) Hmax). lia.
Qed.

Lemma reconnect_returns_cancellation_or_exhaustion_witness :
  let r := WebSocketStreamWithReconnect amd64 (Some five_attempts)
             (repeat failing_round 6) fresh in
  fst r = Returned (Some (NewWebSocketError "max reconnection attempts exceeded"
                            (Some (NewWebSocketError "dial failed" (Some refused)))))
  /\ MaxReconnectAttempts five_attempts > 0.
Proof.
  split; [reflexivity|].
  destruct (reconnect_returns_cancellation_or_exhaustion amd64 five_attempts
              (repeat failing_round 6) fresh _ eq_refl eq_refl)
    as [_ [[e [_ Hctx]] | [Hcap _]]]; [discriminate Hctx | exact Hcap].
Defined.

(** ** The backoff of the reconnect loop *)

Lemma waits_app (h1 h2 : list ws_event) : waits (h1 ++ h2) = waits h1 ++ waits h2.
Proof.
  induction h1 as [|ev h1 IH]; simpl; [reflexivity|].
  destruct ev; simpl; rewrite ?IH; reflexivity.
Qed.

Lemma in_session_counts (h : list ws_event) :
  Forall in_session h -> waits h = [] /\ callbacks h = 0%nat /\ dials h = 0%nat.
Proof.
  induction 1 as [|ev h Hev _ IH]; [repeat split|].
  destruct ev; simpl in *; try contradiction; exact IH.
Qed.

Lemma between_bg_steps (bs : list background) (w : World) : between 0 w (bg_steps bs w).
Proof.
  destruct (in_session_bg_steps bs w) as [h [Hh Hf]].
  destruct (in_session_counts h Hf) as [Hw [Hc Hd]].
  unfold between. rewrite Hh, waits_app, callbacks_app, dials_app, Hw, Hc, Hd, app_nil_r.
  repeat split; lia.
Qed.

Lemma between_WebSocketStream (script : session_script) (w : World) :
  between 1 w (snd (WebSocketStream script w)).
Proof.
  destruct (panicked w) eqn:Hp.
  { unfold WebSocketStream. rewrite Hp. repeat split. simpl. lia. }
  pose proof (WebSocketStream_history script w Hp) as H.
  unfold between.
  destruct (connect script) as [err | status err |].
  - rewrite H. repeat split. lia.
  - rewrite H, waits_app, callbacks_app, dials_app. simpl. rewrite app_nil_r.
    repeat split; lia.
  - destruct H as [h [during [Hf [Hfd H]]]].
    destruct (in_session_counts h Hf) as [Hw [Hc Hd]].
    destruct (in_session_counts during Hfd) as [Hw' [Hc' Hd']].
    rewrite H, waits_app, callbacks_app, dials_app. simpl.
    rewrite waits_app, callbacks_app, dials_app, Hw, Hc, Hd.
    destruct (fst (writer_loop (next_conn w) (writer script) (open_conn w))); simpl;
      rewrite ?Hw', ?Hc', ?Hd', ?app_nil_r; repeat split; lia.
Qed.

Lemma reconnect_loop_backoff (out_of_range : float64 -> Z) (cfg : WebSocketConfig) :
  forall rounds attempt delay w,
    continues_backoff (next_reconnect_delay out_of_range cfg) (OnReconnect cfg)
      (attempt >? 0) delay w
      (0 <= attempt /\ attempt + Z.of_nat (List.length rounds) <= max_int64)
      (reconnect_loop out_of_range cfg rounds attempt delay w).
Proof.
  induction rounds as [|r rounds IH]; intros attempt delay w.
  { exists 0%nat. simpl. rewrite app_nil_r. destruct (OnReconnect cfg), (attempt >? 0);
      repeat split; lia. }
  cbn [reconnect_loop].
  destruct (between_bg_steps (before_check r) w) as [Hw1 [Hc1 Hd1]].
  set (w1 := bg_steps (before_check r) w) in *.
  set (next := next_reconnect_delay out_of_range cfg) in *.
  set (no_wrap := 0 <= attempt
                  /\ attempt + Z.of_nat (List.length (r :: rounds)) <= max_int64).
  (* leaving the loop in [w'] after [k] waits *)
  assert (Hout : forall (k : nat) (w' : World) (st : status),
             waits (history w') = waits (history w) ++ schedule next k delay ->
             callbacks (history w')
             = (callbacks (history w) + if OnReconnect cfg then k else 0)%nat ->
             (dials (history w')
              <= dials (history w) + k + if attempt >? 0 then 0 else 1)%nat ->
             continues_backoff next (OnReconnect cfg) (attempt >? 0) delay w no_wrap
               (st, w')).
  { intros k w' st Hw Hc Hd. exists k. cbn [snd].
    split; [exact Hw | split; [exact Hc | intros _; exact Hd]]. }
  (* the session and what follows it, entered in [w2] after [k] waits *)
  assert (Hrest : forall (k : nat) (d : Duration) (w2 : World),
             waits (history w2) = waits (history w) ++ schedule next k delay ->
             (forall k', schedule next k delay ++ schedule next k' d
                         = schedule next (k + k') delay) ->
             callbacks (history w2)
             = (callbacks (history w) + if OnReconnect cfg then k else 0)%nat ->
             (dials (history w2) <= dials (history w))%nat ->
             k = (if attempt >? 0 then 1 else 0)%nat ->
             continues_backoff next (OnReconnect cfg) (attempt >? 0) delay w no_wrap
               match WebSocketStream (session r) w2 with
               | (Returned err0, w3) =>
                   let w4 := bg_steps (after_session r) w3 in
                   match panicked w4, ctxErr w4 with
                   | Some msg, _ => (Crashed msg, w4)
                   | None, Some e => (Returned (Some e), w4)
                   | None, None =>
                       if (MaxReconnectAttempts cfg >? 0)
                          && (int_succ attempt >=? MaxReconnectAttempts cfg)
                       then (Returned
                               (Some (NewWebSocketError
                                        "max reconnection attempts exceeded" err0)),
                             w4)
                       else reconnect_loop out_of_range cfg rounds (int_succ attempt) d w4
                   end
               | other => other
               end).
  { intros k d w2 Hw Hsched Hc Hd Hk.
    destruct (between_WebSocketStream (session r) w2) as [Hw3 [Hc3 Hd3]].
    destruct (WebSocketStream (session r) w2) as [st w3]. cbn [snd] in Hw3, Hc3, Hd3.
    assert (Hstop : forall st',
               continues_backoff next (OnReconnect cfg) (attempt >? 0) delay w no_wrap
                 (st', w3)).
    { intro st'. apply (Hout k); try congruence. destruct (attempt >? 0); lia. }
    destruct st as [err0 | | msg]; try apply Hstop.
    cbv zeta.
    destruct (between_bg_steps (after_session r) w3) as [Hw4 [Hc4 Hd4]].
    set (w4 := bg_steps (after_session r) w3) in *.
    assert (Hstop4 : forall st',
               continues_backoff next (OnReconnect cfg) (attempt >? 0) delay w no_wrap
                 (st', w4)).
    { intro st'. apply (Hout k); try congruence. destruct (attempt >? 0); lia. }
    destruct (panicked w4); [apply Hstop4|].
    destruct (ctxErr w4); [apply Hstop4|].
    destruct ((MaxReconnectAttempts cfg >? 0)
              && (int_succ attempt >=? MaxReconnectAttempts cfg)); [apply Hstop4|].
    destruct (IH (int_succ attempt) d w4) as [k' [Hw' [Hc' Hd']]].
    exists (k + k')%nat. split; [|split].
    - rewrite Hw', Hw4, Hw3, Hw, <- app_assoc, Hsched. reflexivity.
    - rewrite Hc', Hc4, Hc3, Hc. destruct (OnReconnect cfg); lia.
    - intros [H0 Hlen]. cbn [List.length] in Hlen.
      assert (Hsucc : int_succ attempt = attempt + 1)
        by (unfold int_succ; destruct (attempt =? max_int64) eqn:E; [lia | reflexivity]).
      rewrite Hsucc in Hd'.
      assert (Hpos : (attempt + 1 >? 0) = true) by lia. rewrite Hpos in Hd'.
      specialize (Hd' ltac:(lia)). rewrite <- Hsucc in Hd'.
      subst k. destruct (attempt >? 0); lia. }
  assert (Hhead : forall st,
             continues_backoff next (OnReconnect cfg) (attempt >? 0) delay w no_wrap
               (st, w1)).
  { intro st. apply (Hout 0%nat); cbn [schedule]; rewrite ?app_nil_r; try assumption.
    - destruct (OnReconnect cfg); lia.
    - destruct (attempt >? 0); lia. }
  destruct (panicked w1) eqn:Hp1; [apply Hhead|].
  destruct (ctxErr w1) eqn:Hctx1; [apply Hhead|].
  destruct (attempt >? 0) eqn:Hpos.
  - destruct (between_bg_steps (in_wait r)
                (record (Waiting delay)
                   (if OnReconnect cfg then record Reconnecting w1 else w1)))
      as [Hw2 [Hc2 Hd2]].
    set (w2 := bg_steps (in_wait r)
                 (record (Waiting delay)
                    (if OnReconnect cfg then record Reconnecting w1 else w1))) in *.
    assert (Hw2' : waits (history w2) = waits (history w) ++ schedule next 1 delay).
    { rewrite Hw2. cbn [record history schedule]. rewrite waits_app. simpl.
      destruct (OnReconnect cfg); cbn [record history]; rewrite ?waits_app; simpl;
        rewrite ?app_nil_r, Hw1; reflexivity. }
    assert (Hc2' : callbacks (history w2)
                   = (callbacks (history w) + if OnReconnect cfg then 1 else 0)%nat).
    { rewrite Hc2. cbn [record history]. rewrite callbacks_app. simpl.
      destruct (OnReconnect cfg); cbn [record history]; rewrite ?callbacks_app; simpl;
        rewrite Hc1; lia. }
    assert (Hd2' : (dials (history w2) <= dials (history w))%nat).
    { etransitivity; [exact Hd2|]. cbn [record history]. rewrite dials_app. simpl.
      destruct (OnReconnect cfg); cbn [record history]; rewrite ?dials_app; simpl; lia. }
    destruct (select_wait (ctxErr w2) (wait_timer_first r)).
    + destruct (panicked w2); apply (Hout 1%nat); try assumption; lia.
    + destruct (panicked w2).
      * apply (Hout 1%nat); try assumption; lia.
      * apply (Hrest 1%nat); try assumption; reflexivity.
  - rewrite Hp1. apply (Hrest 0%nat); cbn [schedule]; rewrite ?app_nil_r;
      try assumption; try reflexivity; try lia.
    destruct (OnReconnect cfg); lia.
Qed.

(** X9. The waits of [WebSocketStreamWithReconnect] follow the backoff: with
    reconnection enabled the delays it waits for are [ReconnectDelay], then
    each time the previous delay scaled by [ReconnectMultiplier] and cut at
    [MaxReconnectDelay]; sessions and what happens beside them add no wait.
    [OnReconnect], when given, is called exactly once per wait, and there is
    at most one dial per wait besides the first one. *)
Theorem reconnect_backoff_schedule :
  forall out_of_range cfg rounds w,
    AutoReconnect cfg = true ->
    let r := WebSocketStreamWithReconnect out_of_range (Some cfg) rounds w in
    exists k : nat,
      waits (history (snd r))
      = waits (history w)
        ++ schedule (next_reconnect_delay out_of_range cfg) k (ReconnectDelay cfg)
      /\ callbacks (history (snd r))
         = (callbacks (history w) + if OnReconnect cfg then k else 0)%nat
      /\ (Z.of_nat (List.length rounds) <= max_int64 ->
          (dials (history (snd r)) <= dials (history w) + k + 1)%nat).
Proof.
  intros out_of_range cfg rounds w Hauto r. subst r.
  unfold WebSocketStreamWithReconnect. rewrite Hauto.
  destruct (reconnect_loop_backoff out_of_range cfg rounds 0 (ReconnectDelay cfg) w)
    as [k [Hw [Hc Hd]]].
  exists k. split; [exact Hw|]. split; [exact Hc|].
  intro Hlen. apply Hd. split; lia.
Qed.

Lemma reconnect_backoff_schedule_witness :
  AutoReconnect five_attempts = true
  /\ Z.of_nat (List.length (repeat failing_round 6)) <= max_int64
  /\ let r := WebSocketStreamWithReconnect amd64 (Some five_attempts)
                (repeat failing_round 6) fresh in
     waits (history (snd r)) = [2 * Second; 4 * Second; 8 * Second; 16 * Second]
     /\ exists k : nat,
         callbacks (history (snd r)) = k
         /\ (dials (history (snd r)) <= k + 1)%nat.
Proof.
  assert (Hlen : Z.of_nat (List.length (repeat failing_round 6)) <= max_int64)
    by (vm_compute; discriminate).
  split; [reflexivity|]. split; [exact Hlen|]. split; [reflexivity|].
  destruct (reconnect_backoff_schedule amd64 five_attempts (repeat failing_round 6) fresh
              eq_refl) as [k [_ [Hc Hd]]].
  exists k. split; [exact Hc | exact (Hd Hlen)].
Defined.

(* ================================================================== *)
(** * Properties of the request builder *)
(* ================================================================== *)

(** ** Readings of the pieces of a trace *)

Lemma error_hook_calls_app (t1 t2 : list build_event) :
  error_hook_calls (t1 ++ t2) = error_hook_calls t1 ++ error_hook_calls t2.
Proof. apply flat_map_app. Qed.

Lemma before_calls_app (t1 t2 : list build_event) :
  before_calls (t1 ++ t2) = before_calls t1 ++ before_calls t2.
Proof. apply flat_map_app. Qed.

Lemma after_calls_app (t1 t2 : list build_event) :
  after_calls (t1 ++ t2) = after_calls t1 ++ after_calls t2.
Proof. apply flat_map_app. Qed.

Lemma sent_app (t1 t2 : list build_event) : sent (t1 ++ t2) = sent t1 ++ sent t2.
Proof. apply flat_map_app. Qed.

Lemma body_closes_app (t1 t2 : list build_event) :
  body_closes (t1 ++ t2) = body_closes t1 ++ body_closes t2.
Proof. apply flat_map_app. Qed.

Lemma marshals_app (t1 t2 : list build_event) :
  marshals (t1 ++ t2) = marshals t1 ++ marshals t2.
Proof. apply flat_map_app. Qed.

Create Rewrite HintDb calls.
#[local] Hint Rewrite error_hook_calls_app before_calls_app after_calls_app sent_app
  body_closes_app marshals_app app_nil_r : calls.

Lemma write_fields_reading {A : Type} (f : build_event -> list A) (a : Answers)
      (fields : list (string * string)) :
  (forall k v, f (CallWriteField k v) = []) ->
  flat_map f (fst (write_fields a fields)) = [].
Proof.
  intro Hf. induction fields as [|[k v] rest IH]; [reflexivity|].
  cbn [write_fields]. destruct (WriteField a k v); cbn [fst flat_map]; rewrite Hf.
  - reflexivity.
  - exact IH.
Qed.

Lemma run_hooks_reading {A : Type} (f : build_event -> list A) (call : nat -> build_event)
      (answer : nat -> option error) (hooks : list nat) :
  (forall h, f (call h) = []) ->
  forall i, flat_map f (fst (run_hooks call answer i hooks)) = [].
Proof.
  intro Hf. induction hooks as [|h rest IH]; intro i; [reflexivity|].
  cbn [run_hooks]. destruct (answer i); cbn [fst flat_map]; rewrite Hf.
  - reflexivity.
  - apply IH.
Qed.

(** The hooks called are the first ones of the list, up to and including the
    first that fails. *)
Lemma run_hooks_calls (f : build_event -> list nat) (call : nat -> build_event)
      (answer : nat -> option error) (hooks : list nat) :
  (forall h, f (call h) = [h]) ->
  forall i,
    match snd (run_hooks call answer i hooks) with
    | None =>
        flat_map f (fst (run_hooks call answer i hooks)) = hooks
        /\ forall j, (j < List.length hooks)%nat -> answer (i + j)%nat = None
    | Some e =>
        exists k, (k < List.length hooks)%nat
                  /\ answer (i + k)%nat = Some e
                  /\ (forall j, (j < k)%nat -> answer (i + j)%nat = None)
                  /\ flat_map f (fst (run_hooks call answer i hooks)) = firstn (S k) hooks
    end.
Proof.
  intro Hf. induction hooks as [|h rest IH]; intro i.
  { cbn. split; [reflexivity | intros j Hj; inversion Hj]. }
  cbn [run_hooks]. destruct (answer i) as [e|] eqn:Hi.
  - cbn [fst snd flat_map]. rewrite Hf. exists 0%nat. rewrite Nat.add_0_r.
    repeat split; [cbn; lia | exact Hi | intros j Hj; inversion Hj].
  - cbn [fst snd flat_map]. rewrite Hf. specialize (IH (S i)).
    destruct (snd (run_hooks call answer (S i) rest)) as [e|].
    + destruct IH as [k [Hk [He [Hbefore Hcalls]]]]. exists (S k).
      repeat split.
      * cbn [List.length]. lia.
      * rewrite <- He. f_equal. lia.
      * intros [|j] Hj; [rewrite Nat.add_0_r; exact Hi|].
        rewrite <- (Hbefore j) by lia. f_equal. lia.
      * cbn [app firstn] in *. rewrite Hcalls. reflexivity.
    + destruct IH as [Hcalls Hall]. split.
      * cbn [app]. rewrite Hcalls. reflexivity.
      * intros [|j] Hj; [rewrite Nat.add_0_r; exact Hi|].
        cbn [List.length] in Hj. rewrite <- (Hall j) by lia. f_equal. lia.
Qed.

Lemma log_debug_reading {A : Type} (f : build_event -> list A) (c : Client) (msg : string) :
  (forall m, f (LogDebug m) = []) -> flat_map f (log_debug c msg) = [].
Proof.
  intro Hf. unfold log_debug. destruct (logger c); cbn; rewrite ?Hf; reflexivity.
Qed.

Lemma error_hook_calls_call_error_hooks (config : requestConfig) (e : error) :
  error_hook_calls (call_error_hooks config e) = map (fun h => (h, e)) (errorHooks config).
Proof.
  unfold call_error_hooks, error_hook_calls.
  induction (errorHooks config) as [|h rest IH]; [reflexivity|].
  cbn. f_equal. exact IH.
Qed.

Lemma call_error_hooks_reading {A : Type} (f : build_event -> list A)
      (config : requestConfig) (e : error) :
  (forall h err, f (CallOnError h err) = []) -> flat_map f (call_error_hooks config e) = [].
Proof.
  intro Hf. unfold call_error_hooks.
  induction (errorHooks config) as [|h rest IH]; [reflexivity|].
  cbn. rewrite Hf. exact IH.
Qed.

(** The case analysis of one call of the builder. *)
Ltac build_cases :=
  repeat match goal with
         | |- context [match ?x with _ => _ end] => destruct x eqn:?
         end.

Lemma file_close_reading {A : Type} (f : build_event -> list A) (opened : bool) :
  f CallFileClose = [] -> flat_map f (if opened then [CallFileClose] else []) = [].
Proof. intro Hf. destruct opened; cbn; rewrite ?Hf; reflexivity. Qed.

(** The preparation of the body only writes form fields, handles the file
    and marshals. *)
Lemma prepare_body_reading {A : Type} (f : build_event -> list A)
      (config : requestConfig) (a : Answers)
      (evs : list build_event) (prep : prepared) (opened : bool) :
  prepare_body config a = (evs, prep, opened) ->
  (forall k v, f (CallWriteField k v) = []) ->
  (forall n m, f (CallCreateFormFile n m) = []) ->
  f CallOpen = [] ->
  f CallCopy = [] ->
  (forall v, file config = None -> body config = Some v -> f (CallMarshal v) = []) ->
  flat_map f evs = [].
Proof.
  intros Hp Hw Hc Ho Hy Hm. revert Hp. unfold prepare_body.
  destruct (file config) as [fh|].
  - build_cases; intro H; inversion H; subst;
      repeat rewrite flat_map_app; rewrite write_fields_reading by exact Hw;
      cbn [flat_map app]; rewrite ?Hc, ?Ho, ?Hy; reflexivity.
  - destruct (body config) as [v|].
    + build_cases; intro H; inversion H; subst; cbn [flat_map app];
        rewrite (Hm v) by reflexivity; reflexivity.
    + intro H; inversion H; reflexivity.
Qed.

Lemma run_before_reading {A : Type} (f : build_event -> list A) (a : Answers)
      (hooks : list RequestHook) :
  (forall h, f (CallBefore h) = []) ->
  forall i req, flat_map f (fst (fst (run_before a i hooks req))) = [].
Proof.
  intro Hf. induction hooks as [|h rest IH]; intros i req; [reflexivity|].
  cbn [run_before]. destruct (snd (before_result a i req)); cbn [fst flat_map]; rewrite Hf.
  - reflexivity.
  - apply IH.
Qed.

Lemma before_calls_map (hooks : list RequestHook) :
  before_calls (map CallBefore hooks) = hooks.
Proof.
  unfold before_calls. induction hooks as [|h rest IH]; [reflexivity|].
  cbn. f_equal. exact IH.
Qed.

Lemma map_CallBefore_reading {A : Type} (f : build_event -> list A)
      (hooks : list RequestHook) :
  (forall h, f (CallBefore h) = []) -> flat_map f (map CallBefore hooks) = [].
Proof.
  intro Hf. induction hooks as [|h rest IH]; [reflexivity|].
  cbn. rewrite Hf. exact IH.
Qed.

(** When every before-request hook passes, every one of them was called, in
    the order of the list. *)
Lemma run_before_passed (a : Answers) (hooks : list RequestHook) :
  forall i req,
    snd (run_before a i hooks req) = None ->
    fst (fst (run_before a i hooks req)) = map CallBefore hooks.
Proof.
  induction hooks as [|h rest IH]; intros i req; [reflexivity|].
  cbn [run_before]. destruct (snd (before_result a i req)); [discriminate|].
  cbn [fst snd map]. intro H. rewrite (IH _ _ H). reflexivity.
Qed.

(** When one fails, it is the last that was called: the hooks before it
    passed, each on the request the ones before it left, and it failed on
    the request they left. *)
Lemma run_before_failed (a : Answers) (hooks : list RequestHook) :
  forall i req e,
    snd (run_before a i hooks req) = Some e ->
    exists k,
      (k < List.length hooks)%nat
      /\ fst (fst (run_before a i hooks req)) = map CallBefore (firstn (S k) hooks)
      /\ snd (run_before a i (firstn k hooks) req) = None
      /\ snd (before_result a (i + k)
                (snd (fst (run_before a i (firstn k hooks) req)))) = Some e.
Proof.
  induction hooks as [|h rest IH]; intros i req e; [discriminate|].
  cbn [run_before]. destruct (snd (before_result a i req)) as [e0|] eqn:Hi.
  - cbn [fst snd]. intro H. injection H as <-. exists 0%nat.
    rewrite Nat.add_0_r. cbn. repeat split; [lia | exact Hi].
  - cbn [fst snd]. intro H. destruct (IH _ _ _ H) as [k [Hk [Hcalls [Hpass Hfail]]]].
    exists (S k). split; [cbn; lia|]. split; [|split].
    + cbn [firstn map] in *. rewrite Hcalls. reflexivity.
    + cbn [firstn run_before]. rewrite Hi. cbn [snd]. exact Hpass.
    + cbn [firstn run_before]. rewrite Hi. cbn [fst snd].
      replace (i + S k)%nat with (S i + k)%nat by lia. exact Hfail.
Qed.

Lemma prepare_body_prefix (config : requestConfig) (a : Answers)
      (evs : list build_event) (prefix : string) (e : error) (opened : bool) :
  prepare_body config a = (evs, PrepareFailed prefix e, opened) -> In prefix unreported.
Proof.
  unfold prepare_body. build_cases; intro H; inversion H; subst; cbn; tauto.
Qed.

(** ** The anatomy of a call *)

(** A call of the builder fails in the preparation, without having called a
    hook, the server or [Close], or it builds the request and runs the
    before-request hooks on it, and then goes one of four ways. *)
Lemma buildAndExecuteRequest_anatomy (canon : string -> string) (c : Client)
      (baseURL : string) (config : requestConfig) (a : Answers) :
  let run := buildAndExecuteRequest canon c baseURL config a in
  (exists prefix cause,
      In prefix unreported
      /\ snd run = (None, Some (Errorf prefix cause))
      /\ before_calls (fst run) = [] /\ after_calls (fst run) = []
      /\ sent (fst run) = [] /\ body_closes (fst run) = []
      /\ error_hook_calls (fst run) = [])
  \/ exists u evs reqBody contentType opened called req res,
      url_Parse a (baseURL ++ path config) = inl u
      /\ prepare_body config a = (evs, Prepared reqBody contentType, opened)
      /\ run_before a 0 (beforeRequestHooks config)
           (new_request canon config a
              {| Location := Location u;
                 RawQuery := EncodedValues (queryParams config) |}
              reqBody contentType)
         = (called, req, res)
      /\ match res with
         | Some e =>
             run = (evs ++ (called ++ call_error_hooks config e)
                        ++ (if opened then [CallFileClose] else []),
                    (None, Some (Errorf "before-request hook failed" e)))
         | None =>
             match client_Do a with
             | inr e =>
                 run = (evs ++ ((called ++ log_debug c "requesting to API" ++ [CallDo req])
                                  ++ call_error_hooks config e)
                            ++ (if opened then [CallFileClose] else []),
                        (None, Some (Errorf "request failed" e)))
             | inl (status, b) =>
                 match snd (run_hooks CallAfter (after_result a) 0
                                      (afterResponseHooks config)) with
                 | Some e =>
                     run = (evs ++ ((called ++ log_debug c "requesting to API"
                                            ++ [CallDo req])
                                      ++ fst (run_hooks CallAfter (after_result a) 0
                                                        (afterResponseHooks config))
                                      ++ call_error_hooks config e ++ [CallBodyClose b])
                                ++ (if opened then [CallFileClose] else []),
                            (None, Some (Errorf "after-response hook failed" e)))
                 | None =>
                     run = (evs ++ ((called ++ log_debug c "requesting to API"
                                            ++ [CallDo req])
                                      ++ fst (run_hooks CallAfter (after_result a) 0
                                                        (afterResponseHooks config)))
                                ++ (if opened then [CallFileClose] else []),
                            (Some {| StatusCode := status; Body := Some b |}, None))
                 end
             end
         end.
Proof.
  cbv zeta. unfold buildAndExecuteRequest.
  destruct (url_Parse a (baseURL ++ path config)) as [u|e].
  2:{ left. exists "invalid URL"%string, e. cbn. repeat split. tauto. }
  destruct (prepare_body config a) as [[evs [reqBody contentType | prefix e]] opened] eqn:Hp.
  2:{ left. exists prefix, e. cbn [fst snd].
      split; [eapply prepare_body_prefix; exact Hp|]. split; [reflexivity|].
      unfold before_calls, after_calls, sent, body_closes, error_hook_calls.
      rewrite !flat_map_app.
      rewrite !(prepare_body_reading _ _ _ _ _ _ Hp), !file_close_reading
        by (intros; reflexivity).
      repeat split. }
  unfold send_request.
  destruct (NewRequestWithContext a) as [e|].
  { left. exists "failed to create request"%string, e. cbn [fst snd].
    split; [cbn; tauto|]. split; [reflexivity|].
    unfold before_calls, after_calls, sent, body_closes, error_hook_calls.
    rewrite !flat_map_app.
    rewrite !(prepare_body_reading _ _ _ _ _ _ Hp), !file_close_reading
      by (intros; reflexivity).
    repeat split. }
  right. cbv zeta.
  destruct (run_before a 0 (beforeRequestHooks config)
              (new_request canon config a
                 {| Location := Location u;
                    RawQuery := EncodedValues (queryParams config) |}
                 reqBody contentType)) as [[called req] res] eqn:Hb.
  exists u, evs, reqBody, contentType, opened, called, req, res.
  split; [reflexivity|]. split; [reflexivity|]. split; [exact Hb|].
  cbn [fst snd].
  destruct res as [e|]; [reflexivity|].
  destruct (client_Do a) as [[status b]|e]; [|reflexivity].
  destruct (snd (run_hooks CallAfter (after_result a) 0 (afterResponseHooks config)));
    reflexivity.
Qed.

(** Read a trace that is put together from the pieces of the anatomy; [Hp]
    tells which events the preparation of the body gave and [Hb] which the
    before-request hooks. *)
Ltac read_calls Hp Hb :=
  cbn [fst snd];
  unfold error_hook_calls, before_calls, after_calls, sent, body_closes, marshals;
  repeat rewrite flat_map_app;
  rewrite ?(prepare_body_reading _ _ _ _ _ _ Hp), ?file_close_reading,
    ?(run_hooks_reading _ CallAfter), ?log_debug_reading,
    ?call_error_hooks_reading by (intros; reflexivity);
  try (match type of Hb with
       | run_before ?a ?i ?hooks ?built = (?called, _, _) =>
           let H := fresh in
           assert (H : called = fst (fst (run_before a i hooks built)))
             by (rewrite Hb; reflexivity);
           rewrite ?H; rewrite ?run_before_reading by (intros; reflexivity);
           rewrite <- ?H; clear H
       end);
  cbn [flat_map app]; rewrite ?file_close_reading by (intros; reflexivity);
  rewrite ?app_nil_r.

(** ** The result of the builder *)

(** The two shapes of what the builder returns. *)
Lemma buildAndExecuteRequest_outcome (canon : string -> string) (c : Client)
      (baseURL : string) (config : requestConfig) (a : Answers) :
  (exists status b,
      client_Do a = inl (status, b)
      /\ snd (buildAndExecuteRequest canon c baseURL config a)
         = (Some {| StatusCode := status; Body := Some b |}, None))
  \/ (exists prefix cause,
         In prefix (unreported ++ reported)
         /\ snd (buildAndExecuteRequest canon c baseURL config a)
            = (None, Some (Errorf prefix cause))).
Proof.
  destruct (buildAndExecuteRequest_anatomy canon c baseURL config a)
    as [[prefix [cause [Hin [Hr _]]]]
       | [u [evs [reqBody [ct [opened [called [req [res [_ [_ [_ Hrun]]]]]]]]]]]].
  { right. exists prefix, cause. split; [apply in_or_app; left; exact Hin | exact Hr]. }
  destruct res as [e|].
  { right. rewrite Hrun. do 2 eexists. split; [|reflexivity]. cbn. tauto. }
  destruct (client_Do a) as [[status b]|e].
  2:{ right. rewrite Hrun. do 2 eexists. split; [|reflexivity]. cbn. tauto. }
  destruct (snd (run_hooks CallAfter (after_result a) 0 (afterResponseHooks config))).
  - right. rewrite Hrun. do 2 eexists. split; [|reflexivity]. cbn. tauto.
  - left. rewrite Hrun. exists status, b. split; reflexivity.
Qed.

(** X10. [buildAndExecuteRequest] returns either a response or an error,
    never both and never neither.  The response is the one the server gave,
    with its body; the error wraps its cause behind one of ten fixed
    prefixes. *)
Theorem buildAndExecuteRequest_response_or_error :
  forall canon c baseURL config a,
    let r := snd (buildAndExecuteRequest canon c baseURL config a) in
    one_of (fst r) (snd r)
    /\ (forall resp, fst r = Some resp ->
        exists status b,
          client_Do a = inl (status, b)
          /\ resp = {| StatusCode := status; Body := Some b |})
    /\ (forall e, snd r = Some e ->
        exists prefix cause, e = Errorf prefix cause /\ In prefix (unreported ++ reported)).
Proof.
  intros canon c baseURL config a.
  destruct (buildAndExecuteRequest_outcome canon c baseURL config a)
    as [[status [b [Hdo Hr]]] | [prefix [cause [Hin Hr]]]]; rewrite Hr; cbn [fst snd one_of].
  - split; [exact I|]. split; [|discriminate].
    intros resp H. inversion H. eauto.
  - split; [exact I|]. split; [discriminate|].
    intros e H. inversion H. eauto.
Qed.

Lemma buildAndExecuteRequest_response_or_error_witness :
  let r := snd (buildAndExecuteRequest verbatim plain_client "https://api.example.com"
                  (GET "users" new_requestConfig) (answers 200 7)) in
  fst r = Some {| StatusCode := 200; Body := Some 7%nat |}
  /\ exists status b,
      client_Do (answers 200 7) = inl (status, b)
      /\ {| StatusCode := 200; Body := Some 7%nat |}
         = {| StatusCode := status; Body := Some b |}.
Proof.
  split; [reflexivity|].
  apply (buildAndExecuteRequest_response_or_error verbatim plain_client
           "https://api.example.com" (GET "users" new_requestConfig) (answers 200 7)).
  reflexivity.
Defined.

(** ** The hooks *)

(** X11. Error hooks are called exactly when a before-request hook, the
    round trip or an after-response hook fails: then each of them is called
    once, in the order of registration, with the cause, not with the wrapped
    error the caller receives.  A failure of the preparation (URL, form
    fields, file, JSON, creating the request) is not reported to them, and
    neither is a response. *)
Theorem error_hooks_see_the_cause :
  forall canon c baseURL config a,
    let run := buildAndExecuteRequest canon c baseURL config a in
    (forall resp, fst (snd run) = Some resp -> error_hook_calls (fst run) = [])
    /\ (forall prefix cause,
          snd (snd run) = Some (Errorf prefix cause) ->
          error_hook_calls (fst run)
          = if existsb (String.eqb prefix) reported
            then map (fun h => (h, cause)) (errorHooks config)
            else []).
Proof.
  intros canon c baseURL config a. cbv zeta.
  destruct (buildAndExecuteRequest_anatomy canon c baseURL config a)
    as [[prefix [cause [Hin [Hr [_ [_ [_ [_ Hnone]]]]]]]]
       | [u [evs [reqBody [ct [opened [called [req [res [_ [Hp [Hb Hrun]]]]]]]]]]]].
  { rewrite Hr, Hnone. split; [discriminate|].
    intros ? ? H. inversion H; subst.
    cbn in Hin. decompose [or] Hin; subst; try contradiction; reflexivity. }
  destruct res as [e|];
    [|destruct (client_Do a) as [[status b]|e];
      [destruct (snd (run_hooks CallAfter (after_result a) 0 (afterResponseHooks config)))
         as [e|]|]];
    rewrite Hrun; (split; [try discriminate | intros ? ? H; inversion H; subst]);
    try (intros resp _);
    read_calls Hp Hb; fold error_hook_calls;
    rewrite ?error_hook_calls_call_error_hooks; reflexivity.
Qed.

Lemma error_hooks_see_the_cause_witness :
  let config := WithOnError 2%nat (WithOnError 1%nat (WithAfterResponse 5%nat new_requestConfig)) in
  let run := buildAndExecuteRequest verbatim plain_client "https://api.example.com" config
               (answers_after_fails 200 7 0 (Opaque "schema")) in
  snd (snd run) = Some (Errorf "after-response hook failed" (Opaque "schema"))
  /\ error_hook_calls (fst run) = [(1%nat, Opaque "schema"); (2%nat, Opaque "schema")].
Proof.
  split; [reflexivity|].
  apply (proj2 (error_hooks_see_the_cause verbatim plain_client "https://api.example.com"
                  (WithOnError 2%nat
                     (WithOnError 1%nat (WithAfterResponse 5%nat new_requestConfig)))
                  (answers_after_fails 200 7 0 (Opaque "schema")))
               "after-response hook failed"%string (Opaque "schema")).
  reflexivity.
Defined.



(** X13. A response that was received is returned exactly when every
    after-response hook passes: then every one of them was called, in the
    order of registration, and the builder has not closed the body.  It is
    dropped exactly when one of them fails: then the hooks up to that one
    were called, the builder has closed the body once, and the caller gets
    the "after-response hook failed" error around the error of that hook.
    Nothing is closed when no response was received. *)
Theorem received_response_returned_or_closed :
  forall canon c baseURL config a,
    let run := buildAndExecuteRequest canon c baseURL config a in
    let hooks := afterResponseHooks config in
    (forall resp,
        fst (snd run) = Some resp ->
        body_closes (fst run) = []
        /\ after_calls (fst run) = hooks
        /\ forall i, (i < List.length hooks)%nat -> after_result a i = None)
    /\ (forall status b,
          sent (fst run) <> [] ->
          client_Do a = inl (status, b) ->
          ((forall i, (i < List.length hooks)%nat -> after_result a i = None) ->
           fst (snd run) = Some {| StatusCode := status; Body := Some b |})
          /\ (forall k cause,
                 (k < List.length hooks)%nat ->
                 after_result a k = Some cause ->
                 (forall j, (j < k)%nat -> after_result a j = None) ->
                 snd run = (None, Some (Errorf "after-response hook failed" cause))
                 /\ body_closes (fst run) = [b]
                 /\ after_calls (fst run) = firstn (S k) hooks)
          /\ (fst (snd run) = None ->
              exists k cause,
                (k < List.length hooks)%nat
                /\ after_result a k = Some cause
                /\ (forall j, (j < k)%nat -> after_result a j = None)))
    /\ (sent (fst run) = [] \/ (exists e, client_Do a = inr e) ->
        body_closes (fst run) = [] /\ after_calls (fst run) = []).
Proof.
  intros canon c baseURL config a. cbv zeta.
  destruct (buildAndExecuteRequest_anatomy canon c baseURL config a)
    as [[prefix [cause [Hin [Hr [_ [Hafter [Hsent [Hclosed _]]]]]]]]
       | [u [evs [reqBody [ct [opened [called [req [res [_ [Hp [Hb Hrun]]]]]]]]]]]].
  { split; [rewrite Hr; discriminate|].
    split; [intros ? ? H; exfalso; apply H; exact Hsent|].
    intros _. split; assumption. }
  destruct res as [e|].
  { rewrite Hrun. split; [discriminate|].
    split; [intros ? ? H; exfalso; apply H; read_calls Hp Hb; reflexivity|].
    intros _. split; read_calls Hp Hb; reflexivity. }
  destruct (client_Do a) as [[status b]|e].
  2:{ rewrite Hrun. split; [discriminate|]. split; [discriminate|].
      intros _. split; read_calls Hp Hb; reflexivity. }
  pose proof (run_hooks_calls
                (fun ev => match ev with CallAfter h => [h] | _ => [] end)
                CallAfter (after_result a) (afterResponseHooks config)
                (fun h => eq_refl) 0) as Ha.
  destruct (snd (run_hooks CallAfter (after_result a) 0 (afterResponseHooks config)))
    as [e|].
  - (* an after-response hook fails *)
    destruct Ha as [k [Hk [He [Hnone Hcalls]]]]. cbn [Nat.add] in He, Hnone.
    assert (Hfirst : forall k' cause,
               (k' < List.length (afterResponseHooks config))%nat ->
               after_result a k' = Some cause ->
               (forall j, (j < k')%nat -> after_result a j = None) ->
               k' = k /\ cause = e).
    { intros k' cause Hk' He' Hnone'.
      destruct (Nat.lt_trichotomy k' k) as [Hlt | [Heq | Hgt]].
      - rewrite (Hnone k' Hlt) in He'. discriminate He'.
      - subst k'. split; [reflexivity | congruence].
      - rewrite (Hnone' k Hgt) in He. discriminate He. }
    rewrite Hrun. split; [discriminate|]. split.
    + intros status' b' _ H. inversion H; subst. split; [|split].
      * intro Hall. rewrite (Hall k Hk) in He. discriminate He.
      * intros k' cause Hk' He' Hnone'.
        destruct (Hfirst k' cause Hk' He' Hnone') as [-> ->].
        split; [reflexivity|]. split; [read_calls Hp Hb; reflexivity|].
        read_calls Hp Hb. exact Hcalls.
      * intros _. exists k, e. repeat split; assumption.
    + intros [H | [e' H]]; [|discriminate H].
      exfalso. revert H. read_calls Hp Hb. discriminate.
  - (* every after-response hook passes *)
    destruct Ha as [Hcalls Hnone]. cbn [Nat.add] in Hnone.
    rewrite Hrun. split; [|split].
    + intros resp _. split; [read_calls Hp Hb; reflexivity|].
      split; [read_calls Hp Hb; exact Hcalls | exact Hnone].
    + intros status' b' _ H. inversion H; subst. split; [|split].
      * intros _. reflexivity.
      * intros k cause Hk He _. rewrite (Hnone k Hk) in He. discriminate He.
      * discriminate.
    + intros [H | [e' H]]; [|discriminate H].
      exfalso. revert H. read_calls Hp Hb. discriminate.
Qed.

Lemma received_response_returned_or_closed_witness :
  let config := WithAfterResponse 6%nat (WithAfterResponse 5%nat new_requestConfig) in
  let a := answers_after_fails 200 7 0 (Opaque "schema") in
  let run := buildAndExecuteRequest verbatim plain_client "https://api.example.com" config
               a in
  sent (fst run) <> []
  /\ client_Do a = inl (200, 7%nat)
  /\ after_result a 0 = Some (Opaque "schema")
  /\ snd run = (None, Some (Errorf "after-response hook failed" (Opaque "schema")))
  /\ body_closes (fst run) = [7%nat]
  /\ after_calls (fst run) = [5%nat].
Proof.
  assert (Hsent : sent (fst (buildAndExecuteRequest verbatim plain_client
                               "https://api.example.com"
                               (WithAfterResponse 6%nat
                                  (WithAfterResponse 5%nat new_requestConfig))
                               (answers_after_fails 200 7 0 (Opaque "schema")))) <> [])
    by discriminate.
  split; [exact Hsent|]. split; [reflexivity|]. split; [reflexivity|].
  apply (proj1 (proj2 (proj1 (proj2 (received_response_returned_or_closed verbatim
                                       plain_client "https://api.example.com"
                                       (WithAfterResponse 6%nat
                                          (WithAfterResponse 5%nat new_requestConfig))
                                       (answers_after_fails 200 7 0 (Opaque "schema"))))
                             200 7%nat Hsent eq_refl))
               0%nat (Opaque "schema")).
  - cbn. lia.
  - reflexivity.
  - intros j Hj. inversion Hj.
Defined.

(** ** The body and the header of the request *)

Lemma ReplaceAll_length (s : string) (old new : ascii) :
  String.length (ReplaceAll s old new) = String.length s.
Proof. induction s as [|ch rest IH]; cbn; [reflexivity | rewrite IH; reflexivity]. Qed.

Lemma ReplaceAll_removes (s : string) (old new : ascii) :
  old <> new -> ~ In old (list_ascii_of_string (ReplaceAll s old new)).
Proof.
  intro Hne. induction s as [|ch rest IH]; cbn; [tauto|].
  intros [H | H]; [|exact (IH H)].
  destruct (Ascii.eqb ch old) eqn:E.
  - apply Hne. symmetry. exact H.
  - apply Ascii.eqb_neq in E. apply E. exact H.
Qed.

Lemma prepare_body_file (config : requestConfig) (a : Answers) (f : FileHeader)
      (evs : list build_event) (reqBody : option request_body) (contentType : string)
      (opened : bool) :
  file config = Some f ->
  prepare_body config a = (evs, Prepared reqBody contentType, opened) ->
  reqBody = Some (MultipartBody (range_formFields a (formFields config))
                                (formFieldName config)
                                (ReplaceAll (Filename f) " " "_"))
  /\ contentType = ("multipart/form-data; boundary=" ++ Boundary a)%string.
Proof.
  intros Hf. unfold prepare_body. rewrite Hf.
  build_cases; intro H; inversion H; subst. split; reflexivity.
Qed.

Lemma prepare_body_json (config : requestConfig) (a : Answers) (v : payload)
      (evs : list build_event) (reqBody : option request_body) (contentType : string)
      (opened : bool) :
  file config = None ->
  body config = Some v ->
  prepare_body config a = (evs, Prepared reqBody contentType, opened) ->
  reqBody = Some (JSONBody v) /\ contentType = "application/json"%string.
Proof.
  intros Hf Hb. unfold prepare_body. rewrite Hf, Hb.
  build_cases; intro H; inversion H; subst. split; reflexivity.
Qed.

(** The request that was sent, if any, is what the before-request hooks,
    all of which passed, made of the request built from the prepared body. *)
Lemma sent_request (canon : string -> string) (c : Client) (baseURL : string)
      (config : requestConfig) (a : Answers) (req : http_Request) :
  In req (sent (fst (buildAndExecuteRequest canon c baseURL config a))) ->
  exists u evs reqBody contentType opened,
    url_Parse a (baseURL ++ path config) = inl u
    /\ prepare_body config a = (evs, Prepared reqBody contentType, opened)
    /\ run_before a 0 (beforeRequestHooks config)
         (new_request canon config a
            {| Location := Location u; RawQuery := EncodedValues (queryParams config) |}
            reqBody contentType)
       = (map CallBefore (beforeRequestHooks config), req, None).
Proof.
  destruct (buildAndExecuteRequest_anatomy canon c baseURL config a)
    as [[prefix [cause [_ [_ [_ [_ [Hsent _]]]]]]]
       | [u [evs [reqBody [ct [opened [called [req' [res [Hu [Hp [Hb Hrun]]]]]]]]]]]].
  { rewrite Hsent. intros []. }
  assert (Hres : snd (run_before a 0 (beforeRequestHooks config)
                        (new_request canon config a
                           {| Location := Location u;
                              RawQuery := EncodedValues (queryParams config) |}
                           reqBody ct)) = res) by (rewrite Hb; reflexivity).
  destruct res as [e|].
  { rewrite Hrun. read_calls Hp Hb. intros []. }
  pose proof (run_before_passed a _ _ _ Hres) as Hcalls. rewrite Hb in Hcalls.
  cbn [fst] in Hcalls. subst called.
  assert (Hin : In req (sent (fst (buildAndExecuteRequest canon c baseURL config a)))
                -> req = req').
  { destruct (client_Do a) as [[status b]|e];
      [destruct (snd (run_hooks CallAfter (after_result a) 0
                                (afterResponseHooks config)))|];
      rewrite Hrun; read_calls Hp Hb; intros [H | []]; symmetry; exact H. }
  intro H. rewrite (Hin H).
  exists u, evs, reqBody, ct, opened. split; [exact Hu|]. split; [exact Hp | exact Hb].
Qed.

(** X14. A file takes precedence over a body: when the configuration has a
    file, [json.Marshal] is not called, whatever [WithBody] gave, and the
    request that the builder makes carries the multipart form, with the form
    fields, under the configured field name.  The file name in it has every
    space replaced by an underscore: it has the length of the name given and
    no space.  The request that goes out is that request as the
    before-request hooks, all of which passed, left it, and the very request
    when there are no such hooks. *)
Theorem file_takes_precedence_over_body :
  forall canon c baseURL config a f,
    file config = Some f ->
    let run := buildAndExecuteRequest canon c baseURL config a in
    let name := ReplaceAll (Filename f) " " "_" in
    let form := MultipartBody (range_formFields a (formFields config))
                              (formFieldName config) name in
    marshals (fst run) = []
    /\ String.length name = String.length (Filename f)
    /\ ~ In " "%char (list_ascii_of_string name)
    /\ forall req,
        In req (sent (fst run)) ->
        exists u,
          url_Parse a (baseURL ++ path config) = inl u
          /\ let built := new_request canon config a
                            {| Location := Location u;
                               RawQuery := EncodedValues (queryParams config) |}
                            (Some form)
                            ("multipart/form-data; boundary=" ++ Boundary a) in
             SendBody built = Some form
             /\ run_before a 0 (beforeRequestHooks config) built
                = (map CallBefore (beforeRequestHooks config), req, None)
             /\ (beforeRequestHooks config = [] -> req = built).
Proof.
  intros canon c baseURL config a f Hf run name form. subst run name form.
  split; [|split; [apply ReplaceAll_length|split; [apply ReplaceAll_removes; discriminate|]]].
  - unfold buildAndExecuteRequest.
    destruct (url_Parse a (baseURL ++ path config)) as [u|e]; [|reflexivity].
    destruct (prepare_body config a) as [[evs prep] opened] eqn:Hp.
    assert (Hevs : marshals evs = []).
    { unfold marshals. apply (prepare_body_reading _ _ _ _ _ _ Hp); try reflexivity.
      intros v Hnone. rewrite Hf in Hnone. discriminate Hnone. }
    destruct prep as [reqBody contentType | prefix e]; cbn [fst];
      unfold marshals in *; repeat rewrite flat_map_app; rewrite Hevs;
      rewrite ?file_close_reading by reflexivity; [|reflexivity].
    unfold send_request. build_cases; cbn [fst]; repeat rewrite flat_map_app;
      rewrite ?run_before_reading, ?(run_hooks_reading _ CallAfter),
        ?log_debug_reading, ?call_error_hooks_reading by (intros; reflexivity);
      reflexivity.
  - intros req Hin.
    destruct (sent_request _ _ _ _ _ _ Hin) as [u [evs [reqBody [ct [opened [Hu [Hp Hb]]]]]]].
    destruct (prepare_body_file _ _ _ _ _ _ _ Hf Hp) as [-> ->].
    exists u. split; [exact Hu|]. cbv zeta.
    split; [reflexivity|]. split; [exact Hb|].
    intro Hnone. rewrite Hnone in Hb. cbn [run_before map] in Hb.
    injection Hb as <-. reflexivity.
Qed.

Lemma file_takes_precedence_over_body_witness :
  let config := WithJSON (Some "{}"%string)
                  (WithFile EmptyString (Some {| Filename := "my report.pdf" |})
                     (POST "upload" new_requestConfig)) in
  let run := buildAndExecuteRequest verbatim plain_client "https://api.example.com" config
               (answers 201 7) in
  file config = Some {| Filename := "my report.pdf" |}
  /\ marshals (fst run) = []
  /\ In {| Method := "POST";
           URL := {| Location := "https://api.example.com/upload";
                     RawQuery := EncodedValues [] |};
           Header := [("Content-Type"%string, ["multipart/form-data; boundary=b0"%string])];
           SendBody := Some (MultipartBody [] "file" "my_report.pdf") |} (sent (fst run)).
Proof.
  split; [reflexivity|].
  split; [|left; reflexivity].
  apply (file_takes_precedence_over_body verbatim plain_client "https://api.example.com"
           (WithJSON (Some "{}"%string)
              (WithFile EmptyString (Some {| Filename := "my report.pdf" |})
                 (POST "upload" new_requestConfig)))
           (answers 201 7) {| Filename := "my report.pdf" |}).
  reflexivity.
Defined.

Lemma Values_lookup_Set_same (h : Values) (key value : string) :
  Values_lookup (Values_Set h key value) key = [value].
Proof.
  induction h as [|[k vs] rest IH]; cbn.
  - rewrite String.eqb_refl. reflexivity.
  - destruct (String.eqb k key) eqn:E; cbn; rewrite E; [reflexivity | exact IH].
Qed.

Lemma Values_lookup_Set_other (h : Values) (key value key' : string) :
  key <> key' ->
  Values_lookup (Values_Set h key value) key' = Values_lookup h key'.
Proof.
  intro Hne. induction h as [|[k vs] rest IH]; cbn.
  - apply String.eqb_neq in Hne. rewrite Hne. reflexivity.
  - destruct (String.eqb k key) eqn:E; cbn.
    + apply String.eqb_eq in E. subst k.
      apply String.eqb_neq in Hne. rewrite Hne. reflexivity.
    + destruct (String.eqb k key'); [reflexivity | exact IH].
Qed.

(** X15. What the builder sets replaces what [WithHeader] gave.  The
    request it makes for a configuration with a token carries exactly that
    token as its [Authorization], and the one for a file or a body carries
    exactly the content type of the multipart form or of JSON, whatever
    values the configured headers hold under these keys.  The request that
    goes out is that request as the before-request hooks, all of which
    passed, left it, and the very request when there are no such hooks: only
    a hook can change what the builder has set. *)
Theorem builder_headers_replace_configured_ones :
  forall canon c baseURL config a req,
    In req (sent (fst (buildAndExecuteRequest canon c baseURL config a))) ->
    exists u reqBody contentType,
      url_Parse a (baseURL ++ path config) = inl u
      /\ let built := new_request canon config a
                        {| Location := Location u;
                           RawQuery := EncodedValues (queryParams config) |}
                        reqBody contentType in
         run_before a 0 (beforeRequestHooks config) built
         = (map CallBefore (beforeRequestHooks config), req, None)
         /\ (beforeRequestHooks config = [] -> req = built)
         /\ (auth config <> EmptyString ->
             Values_lookup (Header built) (canon "Authorization"%string) = [auth config])
         /\ (canon "Content-Type"%string <> canon "Authorization"%string ->
             (file config <> None ->
              Values_lookup (Header built) (canon "Content-Type"%string)
              = [("multipart/form-data; boundary=" ++ Boundary a)%string])
             /\ (file config = None -> body config <> None ->
                 Values_lookup (Header built) (canon "Content-Type"%string)
                 = ["application/json"%string])).
Proof.
  intros canon c baseURL config a req Hin.
  destruct (sent_request _ _ _ _ _ _ Hin) as [u [evs [reqBody [ct [opened [Hu [Hp Hb]]]]]]].
  exists u, reqBody, ct. split; [exact Hu|]. cbv zeta.
  split; [exact Hb|]. split.
  { intro Hnone. rewrite Hnone in Hb. cbn [run_before map] in Hb.
    injection Hb as <-. reflexivity. }
  cbn [new_request Header]. unfold request_header. split.
  - intro Hauth. destruct (auth config) as [|ch rest] eqn:Ha; [contradiction Hauth; reflexivity|].
    unfold Header_Set. apply Values_lookup_Set_same.
  - intro Hne.
    assert (Hkeep : forall h,
               Values_lookup match auth config with
                             | EmptyString => h
                             | String _ _ => Header_Set canon h "Authorization" (auth config)
                             end (canon "Content-Type"%string)
               = Values_lookup h (canon "Content-Type"%string)).
    { intro h. destruct (auth config); [reflexivity|].
      unfold Header_Set. apply Values_lookup_Set_other. congruence. }
    rewrite Hkeep. split.
    + intro Hfile. destruct (file config) as [f|] eqn:Hf; [|contradiction Hfile; reflexivity].
      destruct (prepare_body_file _ _ _ _ _ _ _ Hf Hp) as [_ ->].
      cbn [append]. unfold Header_Set. apply Values_lookup_Set_same.
    + intros Hf Hbody. destruct (body config) as [v|] eqn:Hb'; [|contradiction Hbody; reflexivity].
      destruct (prepare_body_json _ _ _ _ _ _ _ Hf Hb' Hp) as [_ ->].
      unfold Header_Set. apply Values_lookup_Set_same.
Qed.

Lemma builder_headers_replace_configured_ones_witness :
  let config := WithBearerToken "t0"
                  (WithHeader verbatim "Authorization" "Basic xyz"
                     (WithHeader verbatim "Content-Type" "text/plain"
                        (WithJSON (Some "{}"%string) (POST "items" new_requestConfig)))) in
  let req := {| Method := "POST";
                URL := {| Location := "https://api.example.com/items";
                          RawQuery := EncodedValues [] |};
                Header := [("Content-Type"%string, ["application/json"%string]);
                           ("Authorization"%string, ["Bearer t0"%string])];
                SendBody := Some (JSONBody "{}"%string) |} in
  In req (sent (fst (buildAndExecuteRequest verbatim plain_client "https://api.example.com"
                       config (answers 201 7))))
  /\ beforeRequestHooks config = []
  /\ auth config <> EmptyString
  /\ Values_lookup (Header req) (verbatim "Authorization"%string) = ["Bearer t0"%string].
Proof.
  assert (Hin : In {| Method := "POST";
                      URL := {| Location := "https://api.example.com/items";
                                RawQuery := EncodedValues [] |};
                      Header := [("Content-Type"%string, ["application/json"%string]);
                                 ("Authorization"%string, ["Bearer t0"%string])];
                      SendBody := Some (JSONBody "{}"%string) |}
                   (sent (fst (buildAndExecuteRequest verbatim plain_client
                                 "https://api.example.com"
                                 (WithBearerToken "t0"
                                    (WithHeader verbatim "Authorization" "Basic xyz"
                                       (WithHeader verbatim "Content-Type" "text/plain"
                                          (WithJSON (Some "{}"%string)
                                             (POST "items" new_requestConfig)))))
                                 (answers 201 7)))))
    by (left; reflexivity).
  assert (Hauth : auth (WithBearerToken "t0"
                          (WithHeader verbatim "Authorization" "Basic xyz"
                             (WithHeader verbatim "Content-Type" "text/plain"
                                (WithJSON (Some "{}"%string)
                                   (POST "items" new_requestConfig))))) <> EmptyString)
    by discriminate.
  split; [exact Hin|]. split; [reflexivity|]. split; [exact Hauth|].
  destruct (builder_headers_replace_configured_ones verbatim plain_client
              "https://api.example.com" _ (answers 201 7) _ Hin)
    as [u [reqBody [contentType [_ [_ [Hsame [Hlookup _]]]]]]].
  rewrite (Hsame eq_refl). exact (Hlookup Hauth).
Defined.

(** A before-request hook that sets the token has the last word: the request
    that goes out carries the token of the hook, not the configured one. *)
Lemma hook_replaces_authorization :
  let config := WithBeforeRequest 9%nat (WithBearerToken "t0" (GET "me" new_requestConfig)) in
  sent (fst (buildAndExecuteRequest verbatim plain_client "https://api.example.com" config
               (answers_hook_sets_token 200 7 "Bearer t1")))
  = [{| Method := "GET";
        URL := {| Location := "https://api.example.com/me";
                  RawQuery := EncodedValues [] |};
        Header := [("Authorization"%string, ["Bearer t1"%string])];
        SendBody := None |}].
Proof. reflexivity. Qed.

(** The query of the configuration replaces whatever query the path had. *)
Lemma query_in_path_is_dropped :
  let config := WithQueryParam "page" "2" (GET "users?x=1" new_requestConfig) in
  map URL (sent (fst (buildAndExecuteRequest verbatim plain_client
                        "https://api.example.com" config (answers_splitting 200 7))))
  = [{| Location := "https://api.example.com/users";
        RawQuery := EncodedValues [("page"%string, ["2"%string])] |}].
Proof. reflexivity. Qed.

(* ================================================================== *)
(** * Properties of [Request] and [Do] *)
(* ================================================================== *)

Lemma executeWithRetry_returns_last_attempt (out_of_range : float64 -> Z) (c : Client)
      (env : Z -> Round) (ctx : option error) (retryConfig : option RetryConfig)
      (resp : Response) :
  let run := executeWithRetry out_of_range c env ctx retryConfig in
  ret_resp (snd run) = Some resp ->
  exists n,
    last_opt (attempts (fst run)) = Some (n, Some resp, ret_err (snd run))
    /\ fst (outcome (env n)) = Some resp
    /\ snd (outcome (env n)) = ret_err (snd run).
Proof.
  destruct retryConfig as [rc|]; cbn [executeWithRetry]; cbv zeta.
  - intro H.
    destruct (retry_loop_returns_last_attempt out_of_range c env rc _ _ _ _ _ _ _ H)
      as [Hlast | [_ [Hnone _]]]; [exact Hlast | discriminate Hnone].
  - cbn. intro H. exists 0. rewrite H. repeat split; assumption.
Qed.

(** X16. [Request] returns a nil error only for a 2xx response: the last
    attempt that was made gave that response and no error, and the bytes
    returned are what [io.ReadAll] read from its body, which is closed
    afterwards. *)
Theorem request_succeeds_only_on_2xx :
  forall out_of_range c env io_ReadAll ctx opts data,
    let run := executeWithRetry out_of_range c env ctx
                 (retryConfig (apply_options opts new_requestConfig)) in
    snd (Request out_of_range c env io_ReadAll ctx opts) = Returns (data, None) ->
    exists n resp b respBody,
      last_opt (attempts (fst run)) = Some (n, Some resp, None)
      /\ 200 <= StatusCode resp < 300
      /\ Body resp = Some b
      /\ io_ReadAll b (closed_in (fst run) b) = inl respBody
      /\ data = Some respBody
      /\ fst (Request out_of_range c env io_ReadAll ctx opts)
         = map Retrying (fst run) ++ [ReadAll b; DeferredClose b].
Proof.
  intros out_of_range c env io_ReadAll ctx opts data run.
  unfold Request, execute_and_read. fold run.
  destruct (ret_err (snd run)) as [e|] eqn:Herr; [discriminate|].
  destruct (ret_resp (snd run)) as [resp|] eqn:Hresp; [|discriminate].
  destruct (Body resp) as [b|] eqn:Hb; [|discriminate].
  cbn [fst snd].
  destruct (io_ReadAll b (closed_in (fst run) b)) as [respBody|e] eqn:Hread; [|discriminate].
  destruct ((StatusCode resp <? 200) || (StatusCode resp >=? 300)) eqn:Hstatus;
    [discriminate|].
  intro H. inversion H; subst data.
  destruct (executeWithRetry_returns_last_attempt out_of_range c env ctx _ resp Hresp)
    as [n [Hlast _]].
  fold run in Hlast. rewrite Herr in Hlast.
  exists n, resp, b, respBody. repeat split; try assumption; try reflexivity; lia.
Qed.

Lemma request_succeeds_only_on_2xx_witness :
  let run := executeWithRetry amd64 plain_client (env_status 200) None
               (retryConfig (apply_options [GET "users"; WithDefaultRetry]
                               new_requestConfig)) in
  snd (Request amd64 plain_client (env_status 200) http_body None
         [GET "users"; WithDefaultRetry]) = Returns (Some [], None)
  /\ exists n resp b respBody,
      last_opt (attempts (fst run)) = Some (n, Some resp, None)
      /\ 200 <= StatusCode resp < 300
      /\ Body resp = Some b
      /\ http_body b (closed_in (fst run) b) = inl respBody
      /\ Some [] = Some respBody
      /\ fst (Request amd64 plain_client (env_status 200) http_body None
                [GET "users"; WithDefaultRetry])
         = map Retrying (fst run) ++ [ReadAll b; DeferredClose b].
Proof.
  split; [reflexivity|].
  apply (request_succeeds_only_on_2xx amd64 plain_client (env_status 200) http_body None
           [GET "users"; WithDefaultRetry] (Some [])).
  reflexivity.
Defined.

(** X17. A retry policy with a negative [MaxRetries] makes [Request] and
    [Do] dereference a nil pointer: the loop of [executeWithRetry] is not
    entered, no attempt is made, and a nil response comes back with a nil
    error. *)
Theorem negative_max_retries_dereferences_nil :
  forall out_of_range c env io_ReadAll ctx opts rc,
    retryConfig (apply_options opts new_requestConfig) = Some rc ->
    MaxRetries rc < 0 ->
    executeWithRetry out_of_range c env ctx (Some rc)
    = ([], {| ret_resp := None; ret_err := None; ret_via := Exhausted |})
    /\ Request out_of_range c env io_ReadAll ctx opts = ([], NilDereference)
    /\ Do out_of_range c env io_ReadAll ctx opts = ([], NilDereference).
Proof.
  intros out_of_range c env io_ReadAll ctx opts rc Hrc Hneg.
  assert (Hrun : executeWithRetry out_of_range c env ctx (Some rc)
                 = ([], {| ret_resp := None; ret_err := None; ret_via := Exhausted |})).
  { cbn [executeWithRetry].
    assert (Hfuel : Z.to_nat (MaxRetries rc + 1) = 0%nat) by lia.
    rewrite Hfuel. cbn [retry_loop].
    assert (Hcond : (0 <=? MaxRetries rc) = false) by lia.
    rewrite Hcond. reflexivity. }
  split; [exact Hrun|].
  unfold Request, Do, execute_and_read. rewrite Hrc, Hrun. split; reflexivity.
Qed.

Lemma negative_max_retries_dereferences_nil_witness :
  retryConfig (apply_options [GET "users"; WithRetry no_attempts] new_requestConfig)
  = Some no_attempts
  /\ MaxRetries no_attempts < 0
  /\ Request amd64 plain_client (env_status 200) http_body None
       [GET "users"; WithRetry no_attempts] = ([], NilDereference).
Proof.
  assert (Hneg : MaxRetries no_attempts < 0) by (cbn; lia).
  split; [reflexivity|]. split; [exact Hneg|].
  apply (negative_max_retries_dereferences_nil amd64 plain_client (env_status 200)
           http_body None [GET "users"; WithRetry no_attempts] no_attempts eq_refl Hneg).
Defined.

(** X18. [Request] and [Do] return, without dereferencing nil, whenever
    the retry policy, if there is one, has a [MaxRetries] that is not
    negative: what [buildAndExecuteRequest] hands to the retry loop is always
    a response with its body or an error, and so is what the loop hands on. *)
Theorem request_returns_for_builder_attempts :
  forall canon out_of_range c baseURL env io_ReadAll ctx opts scripts,
    let config := apply_options opts new_requestConfig in
    (forall i, outcome (env i)
               = snd (buildAndExecuteRequest canon c baseURL config (scripts i))) ->
    (forall rc, retryConfig config = Some rc -> 0 <= MaxRetries rc) ->
    snd (Request out_of_range c env io_ReadAll ctx opts) <> NilDereference
    /\ snd (Do out_of_range c env io_ReadAll ctx opts) <> NilDereference.
Proof.
  intros canon out_of_range c baseURL env io_ReadAll ctx opts scripts config Henv Hcap.
  assert (Hone : forall i, one_of (fst (outcome (env i))) (snd (outcome (env i)))).
  { intro i. rewrite Henv.
    destruct (buildAndExecuteRequest_outcome canon c baseURL config (scripts i))
      as [[status [b [_ Hr]]] | [prefix [cause [_ Hr]]]]; rewrite Hr; exact I. }
  assert (Hbody : forall i resp, fst (outcome (env i)) = Some resp -> Body resp <> None).
  { intros i resp. rewrite Henv.
    destruct (buildAndExecuteRequest_outcome canon c baseURL config (scripts i))
      as [[status [b [_ Hr]]] | [prefix [cause [_ Hr]]]]; rewrite Hr; cbn [fst];
      intro H; inversion H; discriminate. }
  set (run := executeWithRetry out_of_range c env ctx (retryConfig config)).
  assert (Hrun : one_of (ret_resp (snd run)) (ret_err (snd run))).
  { subst run. destruct (retryConfig config) as [rc|] eqn:Hrc; cbn [executeWithRetry].
    - apply retry_loop_one_of; [exact Hone | lia |].
      left. apply Hcap. reflexivity.
    - apply Hone. }
  unfold Request, Do, execute_and_read. fold config. fold run.
  destruct (ret_err (snd run)) as [e|]; [split; discriminate|].
  destruct (ret_resp (snd run)) as [resp|] eqn:Hresp; [|contradiction Hrun].
  destruct (executeWithRetry_returns_last_attempt out_of_range c env ctx _ resp Hresp)
    as [n [_ [Hout _]]].
  destruct (Body resp) as [b|] eqn:Hb; [split; discriminate|].
  exfalso. exact (Hbody n resp Hout Hb).
Qed.

Lemma request_returns_for_builder_attempts_witness :
  let config := apply_options [GET "users"; WithDefaultRetry] new_requestConfig in
  let env := env_of verbatim plain_client "https://api.example.com" config
               (fun i => answers 503 (Z.to_nat i)) in
  (forall rc, retryConfig config = Some rc -> 0 <= MaxRetries rc)
  /\ snd (Request amd64 plain_client env http_body None [GET "users"; WithDefaultRetry])
     <> NilDereference.
Proof.
  assert (Hcap : forall rc,
             retryConfig (apply_options [GET "users"; WithDefaultRetry] new_requestConfig)
             = Some rc -> 0 <= MaxRetries rc).
  { intros rc H. inversion H. cbn. lia. }
  split; [exact Hcap|].
  apply (request_returns_for_builder_attempts verbatim amd64 plain_client
           "https://api.example.com"
           (env_of verbatim plain_client "https://api.example.com"
              (apply_options [GET "users"; WithDefaultRetry] new_requestConfig)
              (fun i => answers 503 (Z.to_nat i)))
           http_body None [GET "users"; WithDefaultRetry]
           (fun i => answers 503 (Z.to_nat i)) (fun i => eq_refl) Hcap).
Defined.

(** X19. After the retries are used up on responses, [Request] reads a body
    that is closed already: [executeWithRetry] closed the body of the last
    response before it returned the response, whose status is 429 or at
    least 500.  So the caller gets the [HTTPError] of that status only if a
    closed body can still be read, and the read error otherwise; the body
    is closed a second time in either case. *)
Theorem exhausted_request_reads_closed_body :
  forall out_of_range c env io_ReadAll ctx opts rc resp b,
    retryConfig (apply_options opts new_requestConfig) = Some rc ->
    let run := executeWithRetry out_of_range c env ctx (Some rc) in
    ret_via (snd run) = Exhausted ->
    ret_resp (snd run) = Some resp ->
    ret_err (snd run) = None ->
    Body resp = Some b ->
    In b (closed_bodies (fst run))
    /\ (StatusCode resp >= 500 \/ StatusCode resp = 429)
    /\ Request out_of_range c env io_ReadAll ctx opts
       = (map Retrying (fst run) ++ [ReadAll b; DeferredClose b],
          Returns
            match io_ReadAll b true with
            | inr e => (None, Some (Failed (Errorf "failed to read response body" e)))
            | inl respBody =>
                (Some respBody, Some (Status (NewHTTPError (StatusCode resp) respBody)))
            end).
Proof.
  intros out_of_range c env io_ReadAll ctx opts rc resp b Hrc run Hvia Hresp Herr Hb.
  assert (Hex : shouldRetry (Some resp) None = true /\ In b (closed_bodies (fst run))).
  { subst run. cbn [executeWithRetry] in *.
    destruct (retry_loop_exhausted_closed out_of_range c env rc _ _ _ _ _ _ Hvia)
      as [[Hnone _] | [Hretry Hclosed]].
    - rewrite Hresp in Hnone. discriminate Hnone.
    - rewrite Hresp, Herr in Hretry. split; [exact Hretry|].
      apply (Hclosed resp b Hresp Hb). }
  destruct Hex as [Hretry Hclosed].
  assert (Hstatus : StatusCode resp >= 500 \/ StatusCode resp = 429).
  { unfold shouldRetry in Hretry.
    destruct (StatusCode resp >=? 500) eqn:H5; [left; lia|].
    destruct (StatusCode resp =? 429) eqn:H4; [right; lia|].
    destruct ((StatusCode resp >=? 400) && (StatusCode resp <? 500)); discriminate Hretry. }
  split; [exact Hclosed|]. split; [exact Hstatus|].
  unfold Request, execute_and_read. rewrite Hrc. fold run. rewrite Herr, Hresp, Hb.
  assert (Hflag : closed_in (fst run) b = true).
  { unfold closed_in. apply existsb_exists. exists b. split; [exact Hclosed|].
    apply Nat.eqb_refl. }
  rewrite Hflag.
  assert (Hnot2xx : (StatusCode resp <? 200) || (StatusCode resp >=? 300) = true).
  { apply orb_true_iff. right. lia. }
  rewrite Hnot2xx. reflexivity.
Qed.

Lemma exhausted_request_reads_closed_body_witness :
  let run := executeWithRetry amd64 plain_client (env_status 503) None
               (Some DefaultRetryConfig) in
  ret_via (snd run) = Exhausted
  /\ ret_resp (snd run) = Some {| StatusCode := 503; Body := Some 3%nat |}
  /\ ret_err (snd run) = None
  /\ In 3%nat (closed_bodies (fst run))
  /\ snd (Request amd64 plain_client (env_status 503) http_body None
            [GET "users"; WithDefaultRetry])
     = Returns (None,
                Some (Failed (Errorf "failed to read response body"
                                (Opaque "http: read on closed response body")))).
Proof.
  split; [reflexivity|]. split; [reflexivity|]. split; [reflexivity|].
  destruct (exhausted_request_reads_closed_body amd64 plain_client (env_status 503)
              http_body None [GET "users"; WithDefaultRetry] DefaultRetryConfig
              {| StatusCode := 503; Body := Some 3%nat |} 3%nat
              eq_refl eq_refl eq_refl eq_refl eq_refl) as [Hclosed [_ Hreq]].
  split; [exact Hclosed|]. rewrite Hreq. reflexivity.
Defined.

(** X20. [Request] is [Do] followed by a check of the status.  Both make
    the same calls and fail together; where [Do] returns a response,
    [Request] returns its body, with a nil error if the response
    [IsSuccess] and with the [HTTPError] of its status and body if not. *)
Theorem request_is_do_with_status_check :
  forall out_of_range c env io_ReadAll ctx opts,
    fst (Request out_of_range c env io_ReadAll ctx opts)
    = fst (Do out_of_range c env io_ReadAll ctx opts)
    /\ match snd (Do out_of_range c env io_ReadAll ctx opts) with
       | NilDereference =>
           snd (Request out_of_range c env io_ReadAll ctx opts) = NilDereference
       | Returns (Some r, None) =>
           snd (Request out_of_range c env io_ReadAll ctx opts)
           = Returns (Some (reqws.Body r),
                      if reqws.IsSuccess r then None
                      else Some (Status (NewHTTPError (reqws.StatusCode r) (reqws.Body r))))
       | Returns (None, Some e) =>
           snd (Request out_of_range c env io_ReadAll ctx opts)
           = Returns (None, Some (Failed e))
       | Returns _ => False
       end.
Proof.
  intros out_of_range c env io_ReadAll ctx opts.
  unfold Request, Do, execute_and_read.
  set (run := executeWithRetry out_of_range c env ctx
                (retryConfig (apply_options opts new_requestConfig))).
  destruct (ret_err (snd run)) as [e|]; [split; reflexivity|].
  destruct (ret_resp (snd run)) as [resp|]; [|split; reflexivity].
  destruct (Body resp) as [b|]; [|split; reflexivity].
  split; [reflexivity|]. cbn [snd].
  destruct (io_ReadAll b (closed_in (fst run) b)) as [respBody|e]; [|reflexivity].
  unfold reqws.IsSuccess. cbn [reqws.Body reqws.StatusCode].
  destruct (StatusCode resp <? 200) eqn:Hlow, (StatusCode resp >=? 300) eqn:Hhigh,
    (StatusCode resp >=? 200) eqn:Hlow', (StatusCode resp <? 300) eqn:Hhigh';
    cbn [orb andb]; try reflexivity; lia.
Qed.

(* ================================================================== *)
(** * Properties of the request options, of the status classes and of [HTTPError] *)
(* ================================================================== *)

(** X21. The path that [WithPath] or a method shortcut stores begins with a
    slash: a path that has one is stored as it is, any other gets one in
    front, so that the empty path becomes the root.  Setting the stored path
    again changes nothing. *)
Theorem stored_path_begins_with_slash :
  forall m p c,
    path (WithPath p c) = slash_path p
    /\ path (method_and_path m p c) = slash_path p
    /\ prefix "/" (slash_path p) = true
    /\ slash_path (slash_path p) = slash_path p
    /\ (prefix "/" p = true -> slash_path p = p)
    /\ slash_path EmptyString = "/"%string.
Proof.
  intros m p c.
  assert (Hprefix : prefix "/" (slash_path p) = true).
  { unfold slash_path. destruct (prefix "/" p) eqn:E; [exact E|].
    cbn. destruct p; reflexivity. }
  split; [reflexivity|]. split; [reflexivity|]. split; [exact Hprefix|].
  split; [|split; [|reflexivity]].
  - unfold slash_path at 1. rewrite Hprefix. reflexivity.
  - intro H. unfold slash_path. rewrite H. reflexivity.
Qed.

Lemma stored_path_begins_with_slash_witness :
  prefix "/" "/users/1" = true
  /\ path (GET "/users/1" new_requestConfig) = "/users/1"%string
  /\ path (GET "users/1" new_requestConfig) = "/users/1"%string.
Proof.
  assert (H : prefix "/" "/users/1" = true) by reflexivity.
  split; [exact H|]. split; [|reflexivity].
  destruct (stored_path_begins_with_slash "GET" "/users/1" new_requestConfig)
    as [_ [Hget [_ [_ [Hkeep _]]]]].
  unfold GET. rewrite Hget. exact (Hkeep H).
Defined.

Lemma Values_lookup_Add (v : Values) (k x key : string) :
  Values_lookup (Values_Add v k x) key
  = if String.eqb k key then Values_lookup v key ++ [x] else Values_lookup v key.
Proof.
  induction v as [|[k0 vs] rest IH]; cbn.
  - destruct (String.eqb k key); reflexivity.
  - destruct (String.eqb k0 k) eqn:E0; cbn.
    + apply String.eqb_eq in E0. subst k0.
      destruct (String.eqb k key); reflexivity.
    + destruct (String.eqb k0 key) eqn:E1; [|exact IH].
      destruct (String.eqb k key) eqn:E2; [|reflexivity].
      apply String.eqb_eq in E1, E2. subst. rewrite String.eqb_refl in E0. discriminate E0.
Qed.

Lemma Values_lookup_Add_all (vs : list string) (v : Values) (k key : string) :
  Values_lookup (fold_left (fun acc x => Values_Add acc k x) vs v) key
  = if String.eqb k key then Values_lookup v key ++ vs else Values_lookup v key.
Proof.
  revert v. induction vs as [|x vs IH]; intro v; cbn [fold_left].
  - destruct (String.eqb k key); [rewrite app_nil_r|]; reflexivity.
  - rewrite IH, Values_lookup_Add. destruct (String.eqb k key); [|reflexivity].
    rewrite <- app_assoc. reflexivity.
Qed.

Lemma Values_lookup_absent (v : Values) (key : string) :
  ~ In key (map fst v) -> Values_lookup v key = [].
Proof.
  induction v as [|[k vs] rest IH]; cbn; [reflexivity|].
  intro H. destruct (String.eqb k key) eqn:E.
  - apply String.eqb_eq in E. exfalso. apply H. left. exact E.
  - apply IH. intro Hin. apply H. right. exact Hin.
Qed.

Lemma Values_lookup_add_each (params dst : Values) (key : string) :
  NoDup (map fst params) ->
  Values_lookup (add_each Values_Add dst params) key
  = Values_lookup dst key ++ Values_lookup params key.
Proof.
  revert dst. induction params as [|[k vs] rest IH]; intros dst Hnodup.
  - cbn. rewrite app_nil_r. reflexivity.
  - cbn [map fst] in Hnodup. inversion Hnodup as [|? ? Hfresh Hrest]; subst.
    unfold add_each in *. cbn [fold_left fst snd].
    rewrite (IH _ Hrest), Values_lookup_Add_all. cbn [Values_lookup].
    destruct (String.eqb k key) eqn:E; [|reflexivity].
    apply String.eqb_eq in E. subst key.
    rewrite (Values_lookup_absent rest k Hfresh), app_nil_r. reflexivity.
Qed.

(** X22. [WithQueryParams] adds the values of every key behind the values
    the key has already, in their order, in whatever order the [range]
    visits the keys of the map it is given; keys that the map does not
    have keep their values. *)
Theorem query_params_are_appended_per_key :
  forall params cfg key,
    NoDup (map fst params) ->
    Values_lookup (queryParams (WithQueryParams params cfg)) key
    = Values_lookup (queryParams cfg) key ++ Values_lookup params key.
Proof.
  intros params cfg key Hnodup. cbn [WithQueryParams set_queryParams queryParams].
  apply Values_lookup_add_each. exact Hnodup.
Qed.

Lemma query_params_are_appended_per_key_witness :
  let params := [("tag"%string, ["b"; "c"]%string); ("page"%string, ["2"%string])] in
  NoDup (map fst params)
  /\ Values_lookup (queryParams (WithQueryParams params
                                   (WithQueryParam "tag" "a" new_requestConfig)))
                   "tag"
     = ["a"; "b"; "c"]%string.
Proof.
  assert (Hnodup : NoDup (map fst [("tag"%string, ["b"; "c"]%string);
                                   ("page"%string, ["2"%string])])).
  { cbn. repeat constructor; cbn; intuition discriminate. }
  split; [exact Hnodup|].
  rewrite (query_params_are_appended_per_key _ _ _ Hnodup). reflexivity.
Defined.

(** X23. The three status classes of [Response] exclude one another, and
    the retry classifier does not follow them: a success is never retried
    and a server error always is, but among the client errors exactly 429 is
    retried, and a status of 600 or more is retried although it is no
    server error. *)
Theorem status_classes_and_retries :
  forall (respBody : list Byte.byte) (b : option nat) (status : Z),
    let r := {| reqws.Body := respBody; reqws.StatusCode := status |} in
    let resp := Some {| StatusCode := status; Body := b |} in
    (reqws.IsSuccess r && reqws.IsClientError r = false)
    /\ (reqws.IsSuccess r && reqws.IsServerError r = false)
    /\ (reqws.IsClientError r && reqws.IsServerError r = false)
    /\ (reqws.IsSuccess r = is_success resp None)
    /\ (reqws.IsSuccess r = true -> shouldRetry resp None = false)
    /\ (reqws.IsServerError r = true -> shouldRetry resp None = true)
    /\ (reqws.IsClientError r = true -> shouldRetry resp None = (status =? 429))
    /\ (600 <= status ->
        reqws.IsServerError r = false /\ shouldRetry resp None = true).
Proof.
  intros respBody b status r resp. subst r resp.
  unfold reqws.IsSuccess, reqws.IsClientError, reqws.IsServerError, is_success, shouldRetry.
  cbn [reqws.StatusCode StatusCode].
  destruct (status >=? 200) eqn:H200, (status <? 300) eqn:H300,
    (status >=? 400) eqn:H400, (status <? 500) eqn:H500,
    (status >=? 500) eqn:H500', (status <? 600) eqn:H600,
    (status =? 429) eqn:H429; cbn [andb];
    repeat split; intros; try reflexivity; try discriminate; try lia.
Qed.

Lemma status_classes_and_retries_witness :
  reqws.IsClientError {| reqws.Body := []; reqws.StatusCode := 429 |} = true
  /\ shouldRetry (Some {| StatusCode := 429; Body := None |}) None = true
  /\ 600 <= 600
  /\ reqws.IsServerError {| reqws.Body := []; reqws.StatusCode := 600 |} = false
  /\ shouldRetry (Some {| StatusCode := 600; Body := None |}) None = true.
Proof.
  destruct (status_classes_and_retries [] None 429) as [_ [_ [_ [_ [_ [_ [H429 _]]]]]]].
  destruct (status_classes_and_retries [] None 600) as [_ [_ [_ [_ [_ [_ [_ H600]]]]]]].
  assert (Hle : 600 <= 600) by lia.
  split; [reflexivity|]. split; [rewrite (H429 eq_refl); reflexivity|].
  split; [exact Hle|]. exact (H600 Hle).
Defined.

(** X24. The message of an [HTTPError] made by [NewHTTPError] names the
    status twice; the wording of [Error] for an error without a message is
    never used for it.  The error keeps the status and the body. *)
Theorem new_http_error_message :
  forall statusCode respBody,
    let e := NewHTTPError statusCode respBody in
    HTTPError.Error e
    = ("HTTP " ++ HTTPError.decimal statusCode ++ ": received non-2xx status code: "
               ++ HTTPError.decimal statusCode)%string
    /\ HTTPError.Error e
       <> ("HTTP " ++ HTTPError.decimal statusCode ++ ": received non-2xx status code")%string
    /\ HTTPError.StatusCode e = statusCode
    /\ HTTPError.Body e = respBody.
Proof.
  intros statusCode respBody e. subst e.
  assert (Hmsg : HTTPError.Error (NewHTTPError statusCode respBody)
                 = ("HTTP " ++ HTTPError.decimal statusCode
                            ++ ": received non-2xx status code: "
                            ++ HTTPError.decimal statusCode)%string) by reflexivity.
  split; [exact Hmsg|]. split; [|split; reflexivity].
  rewrite Hmsg. cbn [append]. intro H. injection H as H.
  assert (Hcut : forall s t u : string, (s ++ t)%string = (s ++ u)%string -> t = u).
  { induction s as [|ch s IH]; cbn; intros t u Heq; [exact Heq|].
    injection Heq as Heq. exact (IH _ _ Heq). }
  apply Hcut in H. cbn [append] in H. discriminate H.
Qed.

Lemma set_beforeRequestHooks_eta (c : requestConfig) :
  set_beforeRequestHooks (beforeRequestHooks c) c = c.
Proof. destruct c; reflexivity. Qed.

Lemma set_afterResponseHooks_eta (c : requestConfig) :
  set_afterResponseHooks (afterResponseHooks c) c = c.
Proof. destruct c; reflexivity. Qed.

Lemma set_errorHooks_eta (c : requestConfig) : set_errorHooks (errorHooks c) c = c.
Proof. destruct c; reflexivity. Qed.

(** X25. Hooks pile up in the order of registration.  Registering hooks
    of one kind puts them, in that order, behind the hooks of that kind the
    configuration has, and changes nothing else in it. *)
Theorem hooks_are_registered_in_order :
  forall hooks c,
    apply_options (map WithBeforeRequest hooks) c
    = set_beforeRequestHooks (beforeRequestHooks c ++ hooks) c
    /\ apply_options (map WithAfterResponse hooks) c
       = set_afterResponseHooks (afterResponseHooks c ++ hooks) c
    /\ apply_options (map WithOnError hooks) c
       = set_errorHooks (errorHooks c ++ hooks) c.
Proof.
  unfold apply_options.
  induction hooks as [|h rest IH]; intro c; cbn [map fold_left].
  - rewrite !app_nil_r, set_beforeRequestHooks_eta, set_afterResponseHooks_eta,
      set_errorHooks_eta. repeat split.
  - destruct (IH (WithBeforeRequest h c)) as [Hb _].
    destruct (IH (WithAfterResponse h c)) as [_ [Ha _]].
    destruct (IH (WithOnError h c)) as [_ [_ He]].
    rewrite Hb, Ha, He.
    cbn [WithBeforeRequest WithAfterResponse WithOnError set_beforeRequestHooks
         set_afterResponseHooks set_errorHooks beforeRequestHooks afterResponseHooks
         errorHooks method path queryParams body headers auth file formFieldName
         formFields insecureSkipVerify retryConfig wsConfig].
    rewrite <- !app_assoc. repeat split.
Qed.
